(** * DeepScoresV2 / obb_anns: the metric engine of [OBBAnns]

    A shallow embedding of [src/obb_anns/obb_anns.py]: proposal loading,
    ground-truth selection, the per-image matcher [calculate_tpfp], the
    corpus loop of [calculate_metrics] and the precision/recall evaluator
    ([_evaluate_overlaps], [_average_precision]).

    Modelling conventions.
    - Numbers are exact rationals ([Q]).  The source computes with IEEE
      floats (float32 boxes, float64 curves); rounding is not represented,
      only the arithmetic structure of the formulas is.  In the matcher,
      where a division by zero can be reached, a number is a Python number
      or a numpy scalar and an overlap is a number or [nan].
    - A Python exception is a value of [exn]; a computation that may raise
      has type [result A].
    - A pandas [DataFrame]/[Series] is the list of its rows in order, each
      row paired with its index label where the label is used.
    - A Python [dict] is an association list in insertion order. *)

From Stdlib Require Import Ascii String.
From Stdlib Require Import List ZArith QArith Qminmax Bool Lia Lqa.
From Stdlib Require Import Permutation Sorted.
Import ListNotations.

Local Open Scope Q_scope.

(** ** Exceptions and the error monad *)

(** A dictionary key or an index label: a string or an integer; and what
    the [KeyError] of a pandas indexer names: the labels it did not find. *)
Inductive pykey : Type :=
| KStr (s : string)
| KInt (z : Z)
| KLabels (l : list Z).

Inductive exn : Type :=
| IndexError
| KeyError (key : pykey)
| ValueError
| ZeroDivisionError
| AssertionError
| TypeError.

Inductive result (A : Type) : Type :=
| Ok (a : A)
| Raise (e : exn).

Arguments Ok {A} a.
Arguments Raise {A} e.

Definition bind {A B : Type} (m : result A) (k : A -> result B) : result B :=
  match m with
  | Ok a => k a
  | Raise e => Raise e
  end.

Notation "x <- m ;; k" := (bind m (fun x => k))
  (at level 61, m at next level, right associativity).

Definition is_ok {A : Type} (m : result A) : bool :=
  match m with Ok _ => true | Raise _ => false end.

Fixpoint mapM {A B : Type} (f : A -> result B) (l : list A) : result (list B) :=
  match l with
  | [] => Ok []
  | x :: r => y <- f x ;; ys <- mapM f r ;; Ok (y :: ys)
  end.

Fixpoint foldM {A B : Type} (f : B -> A -> result B) (l : list A) (b : B)
  : result B :=
  match l with
  | [] => Ok b
  | x :: r => b' <- f b x ;; foldM f r b'
  end.

(** ** Python sequence primitives *)

(** [l[i]] for a non-negative index: [IndexError] out of range. *)
Definition getitem {A : Type} (l : list A) (i : nat) : result A :=
  match nth_error l i with
  | Some x => Ok x
  | None => Raise IndexError
  end.

(** [min(l)] and [max(l)] of the builtins: the first extremal element. *)
Fixpoint py_min_from (m : Q) (l : list Q) : Q :=
  match l with
  | [] => m
  | x :: r => py_min_from (if Qlt_le_dec x m then x else m) r
  end.

Fixpoint py_max_from (m : Q) (l : list Q) : Q :=
  match l with
  | [] => m
  | x :: r => py_max_from (if Qlt_le_dec m x then x else m) r
  end.

Definition py_min (l : list Q) : result Q :=
  match l with
  | [] => Raise ValueError
  | x :: r => Ok (py_min_from x r)
  end.

Definition py_max (l : list Q) : result Q :=
  match l with
  | [] => Raise ValueError
  | x :: r => Ok (py_max_from x r)
  end.

(** [x / y] between Python numbers: [ZeroDivisionError] on a zero
    divisor. *)
Definition py_div (x y : Q) : result Q :=
  if Qeq_bool y 0 then Raise ZeroDivisionError else Ok (x / y).

Definition Qge_bool (x y : Q) : bool := Qle_bool y x.
Definition Qlt_bool (x y : Q) : bool := negb (Qle_bool y x).
Definition Qgt_bool (x y : Q) : bool := negb (Qle_bool x y).

(** [l.index(x)] on a list of strings: [ValueError] when absent. *)
Fixpoint list_index (l : list string) (x : string) : result nat :=
  match l with
  | [] => Raise ValueError
  | y :: r => if String.eqb y x then Ok 0%nat
              else (i <- list_index r x ;; Ok (S i))
  end.

(** Dictionaries as association lists in insertion order. *)
Section Dict.
Context {K V : Type} (eqb : K -> K -> bool) (err : K -> exn).

Fixpoint dict_get (d : list (K * V)) (k : K) : result V :=
  match d with
  | [] => Raise (err k)
  | (k', v) :: r => if eqb k' k then Ok v else dict_get r k
  end.

Fixpoint dict_set (d : list (K * V)) (k : K) (v : V) : list (K * V) :=
  match d with
  | [] => [(k, v)]
  | (k', v') :: r =>
      if eqb k' k then (k', v) :: r else (k', v') :: dict_set r k v
  end.
End Dict.

Definition str_get {V : Type} := @dict_get string V String.eqb (fun k => KeyError (KStr k)).
Definition str_set {V : Type} := @dict_set string V String.eqb.
Definition int_get {V : Type} := @dict_get Z V Z.eqb (fun k => KeyError (KInt k)).
Definition num_set {V : Type} := @dict_set Q V Qeq_bool.

(** Stable insertion sort, ascending for [le]; the model of the sorts of
    numpy and pandas (their default kind orders equal keys in an unspecified
    way; equal keys keep their input order here). *)
Section Sort.
Context {A : Type} (le : A -> A -> bool).

Fixpoint insert_by (x : A) (l : list A) : list A :=
  match l with
  | [] => [x]
  | y :: r => if le x y then x :: l else y :: insert_by x r
  end.

Fixpoint sort_by (l : list A) : list A :=
  match l with
  | [] => []
  | x :: r => insert_by x (sort_by r)
  end.
End Sort.

(** [Index.unique()]: the distinct labels, in order of first occurrence. *)
Definition Index_unique (l : list Z) : list Z :=
  rev (nodup Z.eq_dec (rev l)).

(** [np.unique]: the sorted distinct values. *)
Definition np_unique_nat (l : list nat) : list nat :=
  nodup Nat.eq_dec (sort_by Nat.leb l).
Definition np_unique_Z (l : list Z) : list Z :=
  nodup Z.eq_dec (sort_by Z.leb l).

(** [Series.value_counts()]: one entry per distinct value, most frequent
    first (equally frequent values in order of first occurrence). *)
Fixpoint count_add (c : list (Z * nat)) (x : Z) : list (Z * nat) :=
  match c with
  | [] => [(x, 1%nat)]
  | (y, n) :: r => if Z.eqb y x then (y, S n) :: r else (y, n) :: count_add r x
  end.

Definition value_counts (l : list Z) : list (Z * nat) :=
  sort_by (fun p q => Nat.leb (snd q) (snd p)) (fold_left count_add l []).

(** [np.cumsum] of a boolean array, as floats. *)
Fixpoint cumsum_from (acc : Z) (l : list bool) : list Q :=
  match l with
  | [] => []
  | b :: r => let acc' := (acc + (if b then 1 else 0))%Z in
              inject_Z acc' :: cumsum_from acc' r
  end.
Definition cumsum (l : list bool) : list Q := cumsum_from 0%Z l.

Definition Qsum (l : list Q) : Q := fold_left Qplus l 0.

(** [np.average]; the mean of an empty array ([nan] in numpy) is [0] here. *)
Definition np_average (l : list Q) : Q :=
  Qsum l / inject_Z (Z.of_nat (length l)).

(** [np.spacing(1)], the gap between 1.0 and the next float64. *)
Definition np_spacing_1 : Q := 1 # (2 ^ 52).

(** ** Data frames with an integer index *)

Section Frame.
Context {A : Type}.

(** The labels of [labels] that are not in the index of [df]. *)
Definition not_in_index (df : list (Z * A)) (labels : list Z) : list Z :=
  filter (fun l => negb (existsb (Z.eqb l) (map fst df))) labels.

(** [df.loc[labels]] for a list of labels: the rows of each label in turn;
    with labels missing, one [KeyError] whose message names them: the labels
    as asked when none is in the index, else the missing ones, each once. *)
Definition loc (df : list (Z * A)) (labels : list Z) : result (list (Z * A)) :=
  match not_in_index df labels with
  | [] => Ok (flat_map (fun l => filter (fun rw => Z.eqb (fst rw) l) df) labels)
  | missing =>
      Raise (KeyError
               (KLabels (if Nat.eqb (List.length missing) (List.length labels)
                         then labels
                         else Index_unique missing)))
  end.

(** [df.drop(label)]: every row of that label goes; a missing label is a
    [KeyError]. *)
Definition drop (df : list (Z * A)) (label : Z) : result (list (Z * A)) :=
  if existsb (fun rw => Z.eqb (fst rw) label) df
  then Ok (filter (fun rw => negb (Z.eqb (fst rw) label)) df)
  else Raise (KeyError (KLabels [label])).

(** [df[mask]] for a boolean mask of the frame's length. *)
Fixpoint bool_index (df : list A) (mask : list bool) : result (list A) :=
  match df, mask with
  | [], [] => Ok []
  | x :: r, b :: m =>
      rest <- bool_index r m ;; Ok (if b then x :: rest else rest)
  | _, _ => Raise ValueError
  end.
End Frame.

(** ** Python numbers, numpy scalars and [nan] *)

(** A number of the matcher: a Python number (a coordinate read from the
    annotation file) or a numpy scalar (a coordinate of a float32 proposal
    box).  The two compute alike, except in a division by zero. *)
Inductive num : Type :=
| PyNum (q : Q)
| NpNum (q : Q).

Definition num_val (x : num) : Q :=
  match x with PyNum q | NpNum q => q end.

Definition is_py (x : num) : bool :=
  match x with PyNum _ => true | NpNum _ => false end.

(** [min(l)] and [max(l)] of the builtins on such numbers: the first
    extremal element, whichever kind it is. *)
Fixpoint num_min_from (m : num) (l : list num) : num :=
  match l with
  | [] => m
  | x :: r => num_min_from (if Qlt_le_dec (num_val x) (num_val m) then x else m) r
  end.

Fixpoint num_max_from (m : num) (l : list num) : num :=
  match l with
  | [] => m
  | x :: r => num_max_from (if Qlt_le_dec (num_val m) (num_val x) then x else m) r
  end.

Definition num_min (l : list num) : result num :=
  match l with
  | [] => Raise ValueError
  | x :: r => Ok (num_min_from x r)
  end.

Definition num_max (l : list num) : result num :=
  match l with
  | [] => Raise ValueError
  | x :: r => Ok (num_max_from x r)
  end.

(** [x - y] and [x * y]: a Python number only between Python numbers. *)
Definition num_sub (x y : num) : num :=
  if is_py x && is_py y then PyNum (num_val x - num_val y)
  else NpNum (num_val x - num_val y).

Definition num_mul (x y : num) : num :=
  if is_py x && is_py y then PyNum (num_val x * num_val y)
  else NpNum (num_val x * num_val y).

(** A float of a pandas series: a number or [nan]. *)
Inductive fval : Type :=
| Fin (q : Q)
| NaN.

(** The numbers of a series, [nan] skipped. *)
Definition dropna (s : list (Z * fval)) : list (Z * Q) :=
  flat_map (fun p => match snd p with
                     | Fin q => [(fst p, q)]
                     | NaN => []
                     end) s.

(** [Series.max()] and [Series.idxmax()] skip [nan]: the greatest number of
    the series ([nan] when it holds none), and the label of its first
    occurrence. *)
Fixpoint idxmax_from (best : Z * Q) (s : list (Z * Q)) : Z * Q :=
  match s with
  | [] => best
  | (i, v) :: r =>
      idxmax_from (if Qlt_le_dec (snd best) v then (i, v) else best) r
  end.

Definition series_max (s : list (Z * fval)) : fval :=
  match py_max (map snd (dropna s)) with
  | Ok m => Fin m
  | Raise _ => NaN
  end.

Definition idxmax (s : list (Z * fval)) : result Z :=
  match dropna s with
  | [] => Raise ValueError
  | p :: r => Ok (fst (idxmax_from p r))
  end.

(** ** Geometry *)

(** One row of the frame built in [calculate_tpfp]: column ['gt'] holds a
    list of Python numbers, column ['det'] a float32 array. *)
Record row : Type := mkRow { gt : list Q; det : list Q }.

(** [calculate_aligned_overlap] (inner function of [calculate_tpfp]).  In
    the quotient the dividend is zero whenever the divisor is (lemma
    [aligned_dividend_zero]): 0 / 0 raises between Python numbers and is
    [nan], with a warning, as soon as a numpy scalar is involved. *)
Definition calculate_aligned_overlap (r : row) : result fval :=
  let a := map PyNum (gt r) in
  let b := map NpNum (det r) in
  a0 <- getitem a 0 ;; a1 <- getitem a 1 ;;
  a2 <- getitem a 2 ;; a3 <- getitem a 3 ;;
  b0 <- getitem b 0 ;; b1 <- getitem b 1 ;;
  b2 <- getitem b 2 ;; b3 <- getitem b 3 ;;
  mn2 <- num_min [a2; b2] ;; mx0 <- num_max [a0; b0] ;;
  let dx_int := num_sub mn2 mx0 in
  mn3 <- num_min [a3; b3] ;; mx1 <- num_max [a1; b1] ;;
  let dy_int := num_sub mn3 mx1 in
  mx2 <- num_max [a2; b2] ;; mn0 <- num_min [a0; b0] ;;
  let dx_ov := num_sub mx2 mn0 in
  mx3 <- num_max [a3; b3] ;; mn1 <- num_min [a1; b1] ;;
  let dy_ov := num_sub mx3 mn1 in
  if Qge_bool (num_val dx_int) 0 && Qge_bool (num_val dy_int) 0
  then
    let dividend := num_mul dx_int dy_int in
    let divisor := num_mul dx_ov dy_ov in
    if Qeq_bool (num_val divisor) 0
    then if is_py dividend && is_py divisor
         then Raise ZeroDivisionError
         else Ok NaN
    else Ok (Fin (num_val dividend / num_val divisor))
  else Ok (Fin 0).

(** The extents of the specification, over the four named coordinates of
    one axis. *)
Definition dx_int_spec (axmin axmax bxmin bxmax : Q) : Q :=
  Qmin axmax bxmax - Qmax axmin bxmin.
Definition dx_ov_spec (axmin axmax bxmin bxmax : Q) : Q :=
  Qmax axmax bxmax - Qmin axmin bxmin.

(** Two boxes equal in every coordinate: the pairs for which every operand
    of the quotient is a Python number. *)
Definition same_box
  (axmin aymin axmax aymax bxmin bymin bxmax bymax : Q) : bool :=
  Qeq_bool axmin bxmin && Qeq_bool aymin bymin
  && Qeq_bool axmax bxmax && Qeq_bool aymax bymax.

(** [calculate_aligned_overlap] in closed form over the eight
    coordinates. *)
Definition overlap_aligned_spec
  (axmin aymin axmax aymax bxmin bymin bxmax bymax : Q) : result fval :=
  let dxi := dx_int_spec axmin axmax bxmin bxmax in
  let dyi := dx_int_spec aymin aymax bymin bymax in
  let dxo := dx_ov_spec axmin axmax bxmin bxmax in
  let dyo := dx_ov_spec aymin aymax bymin bymax in
  if Qle_bool 0 dxi && Qle_bool 0 dyi
  then
    if Qeq_bool (dxo * dyo) 0
    then if same_box axmin aymin axmax aymax bxmin bymin bxmax bymax
         then Raise ZeroDivisionError
         else Ok NaN
    else Ok (Fin ((dxi * dyi) / (dxo * dyo)))
  else Ok (Fin 0).

(** Area of an axis-aligned box and the textbook intersection over union. *)
Definition box_area (xmin ymin xmax ymax : Q) : Q :=
  (xmax - xmin) * (ymax - ymin).

Definition true_iou
  (axmin aymin axmax aymax bxmin bymin bxmax bymax : Q) : Q :=
  let dxi := dx_int_spec axmin axmax bxmin bxmax in
  let dyi := dx_int_spec aymin aymax bymin bymax in
  let inter := if Qle_bool 0 dxi && Qle_bool 0 dyi then dxi * dyi else 0 in
  inter / (box_area axmin aymin axmax aymax
           + box_area bxmin bymin bxmax bymax - inter).


(** ** The data model of [OBBAnns] *)

(** A row of [ann_info]; its index label is the annotation id. *)
Record annotation : Type := mkAnn {
  a_bbox : list Q;
  o_bbox : list Q;
  cat_id : list Z;
  area : Q;
  img_id : Z;
  comments : string
}.

(** An entry of [img_info] (key ['id'] is [image_id]). *)
Record image : Type := mkImage {
  image_id : Z;
  filename : string;
  ann_ids : list Z
}.

(** A value of [cat_info]. *)
Record category : Type := mkCat {
  name : string;
  annotation_set : string
}.

(** A row of the [proposals] frame (column ['cat_id'] is [p_cat_id]). *)
Record proposal : Type := mkProp {
  bbox : list Q;
  p_cat_id : Z;
  img_idx : nat;
  score : Q
}.

(** The parsed proposal file: [props['annotation_set']] and the entries of
    [props['proposals']]. *)
Record json_proposal : Type := mkJsonProp {
  jp_bbox : list Q;
  jp_cat_id : Z;
  jp_img_id : Z;
  jp_score : Q
}.

Record proposal_file_data : Type := mkPropFile {
  pf_annotation_set : string;
  pf_proposals : list json_proposal
}.

(** An annotation-set filter is one name or a list of names. *)
Inductive ann_set_sel : Type :=
| OneSet (s : string)
| ManySets (l : list string).

(** The attributes of an [OBBAnns] object once [load_annotations] has run;
    [img_info] and [proposals] are [None] until loaded.  The file paths
    ([ann_file], [proposal_file]) and [dataset_info] play no part. *)
Record OBBAnns : Type := mkOBBAnns {
  proposals : option (list proposal);
  props_oriented : bool;
  prop_ann_set_idx : option nat;
  img_info : option (list image);
  img_idx_lookup : list (Z * nat);
  annotation_sets : list string;
  cat_info : list (Z * category);
  ann_info : list (Z * annotation);
  chosen_ann_set : ann_set_sel;
  classes_blacklist : list string;
  classes_blacklist_id : list Z
}.

Definition with_proposals (self : OBBAnns) (ps : option (list proposal))
  (oriented : bool) (idx : option nat) : OBBAnns :=
  mkOBBAnns ps oriented idx (img_info self) (img_idx_lookup self)
    (annotation_sets self) (cat_info self) (ann_info self)
    (chosen_ann_set self) (classes_blacklist self)
    (classes_blacklist_id self).

(** [load_proposals]: the object after loading, or the exception raised
    (attributes assigned before the exception are not kept). *)
Definition load_proposals (self : OBBAnns) (props : proposal_file_data)
  : result OBBAnns :=
  match img_info self with
  | None => Raise AssertionError
  | Some _ =>
      idx <- list_index (annotation_sets self) (pf_annotation_set props) ;;
      p0 <- getitem (pf_proposals props) 0 ;;
      let bbox_len := List.length (jp_bbox p0) in
      if negb (Nat.eqb bbox_len 4 || Nat.eqb bbox_len 8)
      then Raise AssertionError
      else
        let oriented :=
          if Nat.eqb bbox_len 8 then true else props_oriented self in
        rows <- mapM (fun prop =>
                        prop_img_idx <- int_get (img_idx_lookup self)
                                                (jp_img_id prop) ;;
                        Ok (mkProp (jp_bbox prop) (jp_cat_id prop)
                                   prop_img_idx (jp_score prop)))
                     (pf_proposals props) ;;
        Ok (with_proposals self (Some rows) oriented (Some idx))
  end.

(** [set_annotation_set_filter] *)
Definition set_annotation_set_filter (self : OBBAnns) (f : ann_set_sel)
  : OBBAnns :=
  mkOBBAnns (proposals self) (props_oriented self) (prop_ann_set_idx self)
    (img_info self) (img_idx_lookup self) (annotation_sets self)
    (cat_info self) (ann_info self) f (classes_blacklist self)
    (classes_blacklist_id self).

(** [set_class_blacklist] *)
Definition set_class_blacklist (self : OBBAnns) (blacklist : list string)
  : OBBAnns :=
  mkOBBAnns (proposals self) (props_oriented self) (prop_ann_set_idx self)
    (img_info self) (img_idx_lookup self) (annotation_sets self)
    (cat_info self) (ann_info self) (chosen_ann_set self) blacklist
    (map fst
       (filter (fun kv => existsb (String.eqb (name (snd kv))) blacklist)
               (cat_info self))).

(** [_xor_args] *)
Definition _xor_args {A B : Type} (m : option A) (n : option B) : result unit :=
  match m, n with
  | Some _, None | None, Some _ => Ok tt
  | _, _ => Raise AssertionError
  end.

Definition set_cat_id (a : annotation) (c : list Z) : annotation :=
  mkAnn (a_bbox a) (o_bbox a) c (area a) (img_id a) (comments a).

(** [get_ann_ids] *)
Definition get_ann_ids (self : OBBAnns) (ids : list Z)
  (ann_set_filter : option ann_set_sel) : result (list (Z * annotation)) :=
  selected <- loc (ann_info self) ids ;;
  let ann_set_filter :=
    match ann_set_filter with
    | None => chosen_ann_set self
    | Some f => f
    end in
  let ann_set_filter :=
    match ann_set_filter with
    | OneSet s => [s]
    | ManySets l => l
    end in
  ann_set_idx <- mapM (list_index (annotation_sets self)) ann_set_filter ;;
  let filter_ids (record : list Z) : result (list Z) :=
    cs <- mapM (getitem record) ann_set_idx ;;
    Ok (filter (fun c => negb (existsb (Z.eqb c) (classes_blacklist_id self)))
               cs) in
  selected <- mapM (fun rw =>
                      c <- filter_ids (cat_id (snd rw)) ;;
                      Ok (fst rw, set_cat_id (snd rw) c))
                   selected ;;
  Ok (filter (fun rw => Nat.ltb 0 (List.length (cat_id (snd rw)))) selected).

(** [get_anns] *)
Definition get_anns (self : OBBAnns) (img_idx : option nat)
  (img_id : option Z) (ann_set_filter : option ann_set_sel)
  : result (list (Z * annotation)) :=
  _ <- _xor_args img_idx img_id ;;
  match img_idx with
  | Some i =>
      match img_info self with
      | None => Raise TypeError
      | Some imgs =>
          img <- getitem imgs i ;;
          get_ann_ids self (ann_ids img) ann_set_filter
      end
  | None =>
      match img_id with
      | Some k =>
          i <- int_get (img_idx_lookup self) k ;;
          match img_info self with
          | None => Raise TypeError
          | Some imgs =>
              img <- getitem imgs i ;;
              get_ann_ids self (ann_ids img) ann_set_filter
          end
      | None => Raise AssertionError
      end
  end.

(** ** The matcher and the evaluator *)

(** One entry of the list [overlaps] of [calculate_metrics]:
    [[val, overlap, det['cat_id'], float(det['score'])]]. *)
Record ov_row : Type := mkOv {
  ov_bbox_id : Z;
  ov_overlap : Q;
  ov_cat_id : Z;
  ov_score : Q
}.

(** [np.array(overlaps)]: an empty list gives a one-dimensional empty
    array, on which a column index raises. *)
Inductive ndarray : Type :=
| Empty1D
| Array2D (rows : list ov_row).

Definition np_array (l : list ov_row) : ndarray :=
  match l with
  | [] => Empty1D
  | _ => Array2D l
  end.

Definition columns (a : ndarray) : result (list ov_row) :=
  match a with
  | Empty1D => Raise IndexError
  | Array2D rows => Ok rows
  end.

(** The value bound to the parameter [by_class] of [_evaluate_overlaps]:
    [None], a class id, or a sequence of numbers. *)
Inductive by_class_arg : Type :=
| ByNone
| ByClass (c : Z)
| BySeq (l : list Q).

(** The frame [df] of [calculate_tpfp] from its two columns: the index is
    that of the series ['gt']; a list of another length is refused. *)
Definition DataFrame_gt_det (gt_col : list (Z * list Q))
  (det_col : list (list Q)) : result (list (Z * row)) :=
  if Nat.eqb (List.length det_col) (List.length gt_col)
  then Ok (map (fun p => (fst (fst p), mkRow (snd (fst p)) (snd p)))
               (combine gt_col det_col))
  else Raise ValueError.

(** [df.apply(f, 1)] *)
Definition apply_rows (f : row -> result fval) (df : list (Z * row))
  : result (list (Z * fval)) :=
  mapM (fun rw => v <- f (snd rw) ;; Ok (fst rw, v)) df.

(** The dictionary [{'bbox_id': .., 'overlap': ..}] returned by
    [calculate_tpfp]. *)
Record tpfp_dict : Type := mkTpfp { bbox_id : Z; overlap : Q }.

(** The reservation threshold of the matcher. *)
Definition reserve_thr : Q := 2 # 10.

(** An evaluation entry [{'ap': .., 'precision': .., 'recall': ..}]. *)
Definition eval_dict : Type := list (string * Q).

(** A value of the report: per threshold, or averaged over thresholds. *)
Inductive report : Type :=
| PerThreshold (m : list (Q * eval_dict))
| Averaged (d : eval_dict).

(** [_average_precision] on one-dimensional curves (the only shape
    [_evaluate_overlaps] passes): the leading scale axis has length 1. *)
Fixpoint envelope (mpre : list Q) : list Q :=
  match mpre with
  | [] => []
  | x :: r =>
      match envelope r with
      | [] => [x]
      | y :: t => Qmax x y :: y :: t
      end
  end.

Fixpoint area_sum (mrec mpre : list Q) : Q :=
  match mrec, mpre with
  | r0 :: ((r1 :: _) as rt), _ :: ((p1 :: _) as pt) =>
      (if Qeq_bool r1 r0 then 0 else (r1 - r0) * p1) + area_sum rt pt
  | _, _ => 0
  end.

Definition eleven_points (recalls precisions : list Q) : Q :=
  fold_left
    (fun ap k =>
       let thr := inject_Z (Z.of_nat k) / 10 in
       let precs := map snd (filter (fun rp => Qge_bool (fst rp) thr)
                                    (combine recalls precisions)) in
       let prec := match py_max precs with Ok m => m | Raise _ => 0 end in
       ap + prec)
    (seq 0 11) 0 / 11.

Definition _average_precision (recalls precisions : list Q) (mode : string)
  : result Q :=
  if negb (Nat.eqb (List.length recalls) (List.length precisions))
  then Raise AssertionError
  else if String.eqb mode "area" then
    let mrec := [0] ++ recalls ++ [1] in
    let mpre := envelope ([0] ++ precisions ++ [0]) in
    Ok (area_sum mrec mpre)
  else if String.eqb mode "11points" then
    Ok (eleven_points recalls precisions)
  else Raise ValueError.

(** The arithmetic of one pass of the loop of [_evaluate_overlaps], on the
    rows already sorted. *)
Definition tp_sum_of (sorted : list ov_row) (iou_thr : Q) : list Q :=
  cumsum (map (fun r => Qge_bool (ov_overlap r) iou_thr) sorted).

Definition fp_sum_of (sorted : list ov_row) (iou_thr : Q) : list Q :=
  cumsum (map (fun r => Qlt_bool (ov_overlap r) iou_thr) sorted).

Definition recall_of (nr_gt : nat) (tp_sum : list Q) : list Q :=
  if Nat.ltb 0 nr_gt
  then map (fun t => t / inject_Z (Z.of_nat nr_gt)) tp_sum
  else map (fun t => t * 0) tp_sum.

Definition precision_of (tp_sum fp_sum : list Q) : list Q :=
  map (fun tf => fst tf / (snd tf + fst tf + np_spacing_1))
      (combine tp_sum fp_sum).

(** [overlaps[overlaps[:, 3].argsort()[::-1]]] *)
Definition sort_by_score_desc (rows : list ov_row) : list ov_row :=
  rev (sort_by (fun r1 r2 => Qle_bool (ov_score r1) (ov_score r2)) rows).

(** [img_props.sort_values('score')] *)
Definition sort_values_score (ps : list proposal) : list proposal :=
  sort_by (fun p1 p2 => Qle_bool (score p1) (score p2)) ps.

Section Engine.

(** [iou_poly] of the compiled extension module [polyiou]. *)
Variable iou_poly : list Q -> list Q -> Q.

(** [series == seq] of pandas for an integer series and a tuple or list
    of numbers: the boolean mask, or the exception pandas raises (which of
    the two depends on the lengths and on the version of pandas). *)
Variable series_eq_seq : list Z -> list Q -> result (list bool).

Variable self : OBBAnns.

Definition calculate_oriented_overlap (r : row) : result fval :=
  Ok (Fin (iou_poly (gt r) (det r))).

(** The series [overlaps] of [calculate_tpfp]: the frame [df] of the
    oriented or of the aligned branch, and the overlap function applied
    to each of its rows. *)
Definition candidate_overlaps (detection : proposal)
  (same_cat_gt : list (Z * annotation)) : result (list (Z * fval)) :=
  if props_oriented self then
    df <- DataFrame_gt_det
            (map (fun rw => (fst rw, o_bbox (snd rw))) same_cat_gt)
            [map (fun x => x * inject_Z (Z.of_nat (List.length same_cat_gt)))
                 (bbox detection)] ;;
    apply_rows calculate_oriented_overlap df
  else
    df <- DataFrame_gt_det
            (map (fun rw => (fst rw, a_bbox (snd rw))) same_cat_gt)
            (repeat (bbox detection) (List.length same_cat_gt)) ;;
    apply_rows calculate_aligned_overlap df.

(** [calculate_tpfp] (inner function of [calculate_metrics]); the test
    [max_overlap > 0.2] is false of [nan]. *)
Definition calculate_tpfp (detection : proposal)
  (img_gt : list (Z * annotation)) : result tpfp_dict :=
  gt_cat_id <- mapM (fun rw => getitem (cat_id (snd rw)) 0) img_gt ;;
  same_cat_gt <- bool_index img_gt
                   (map (fun c => Z.eqb c (p_cat_id detection)) gt_cat_id) ;;
  if Nat.ltb 0 (List.length same_cat_gt) then
    overlaps <- candidate_overlaps detection same_cat_gt ;;
    match series_max overlaps with
    | Fin max_overlap =>
        if Qgt_bool max_overlap reserve_thr then
          i <- idxmax overlaps ;;
          Ok (mkTpfp i max_overlap)
        else Ok (mkTpfp (-1) 0)
    | NaN => Ok (mkTpfp (-1) 0)
    end
  else Ok (mkTpfp (-1) 0).

(** The loop over the detections of one image, [img_props] already
    sorted: appends to [overlaps], shrinks [img_gt]. *)
Fixpoint match_image (img_props : list proposal)
  (img_gt : list (Z * annotation)) (overlaps : list ov_row)
  : result (list ov_row) :=
  match img_props with
  | [] => Ok overlaps
  | det :: rest =>
      tpfp <- calculate_tpfp det img_gt ;;
      let val := bbox_id tpfp in
      let overlaps :=
        overlaps ++ [mkOv val (overlap tpfp) (p_cat_id det) (score det)] in
      if negb (Z.eqb val (-1)) then
        img_gt <- drop img_gt val ;;
        match_image rest img_gt overlaps
      else match_image rest img_gt overlaps
  end.

(** The loop over [unique_images]. *)
Fixpoint match_images (props : list proposal) (unique_images : list nat)
  (overlaps : list ov_row) : result (list ov_row) :=
  match unique_images with
  | [] => Ok overlaps
  | i :: rest =>
      let img_props := filter (fun p => Nat.eqb (img_idx p) i) props in
      img_gt <- get_anns self (Some i) None None ;;
      let img_props := sort_values_score img_props in
      overlaps <- match_image img_props img_gt overlaps ;;
      match_images props rest overlaps
  end.

(** [nr_gt] of [_evaluate_overlaps]: the size of the set of index labels
    of the annotations in scope. *)
Definition nr_gt_of (by_class : by_class_arg) : result nat :=
  match by_class with
  | ByNone => Ok (List.length (nodup Z.eq_dec (map fst (ann_info self))))
  | ByClass c =>
      firsts <- mapM (fun rw => getitem (cat_id (snd rw)) 0) (ann_info self) ;;
      rows <- bool_index (ann_info self) (map (fun x => Z.eqb x c) firsts) ;;
      Ok (List.length (nodup Z.eq_dec (map fst rows)))
  | BySeq l =>
      firsts <- mapM (fun rw => getitem (cat_id (snd rw)) 0) (ann_info self) ;;
      mask <- series_eq_seq firsts l ;;
      rows <- bool_index (ann_info self) mask ;;
      Ok (List.length (nodup Z.eq_dec (map fst rows)))
  end.

(** The loop of [_evaluate_overlaps] over [iou_thrs]; [overlaps] is
    re-sorted, and rebound, in every pass. *)
Fixpoint evaluate_loop (iou_thrs : list Q) (by_class : by_class_arg)
  (overlaps : ndarray) (metrics : list (Q * eval_dict))
  : result (list (Q * eval_dict)) :=
  match iou_thrs with
  | [] => Ok metrics
  | iou_thr :: rest =>
      rows <- columns overlaps ;;
      let sorted := sort_by_score_desc rows in
      let tp_sum := tp_sum_of sorted iou_thr in
      let fp_sum := fp_sum_of sorted iou_thr in
      nr_gt <- nr_gt_of by_class ;;
      let recall := recall_of nr_gt tp_sum in
      let precision := precision_of tp_sum fp_sum in
      average_precision <- _average_precision recall precision "area" ;;
      evaluate_loop rest by_class (Array2D sorted)
        (num_set metrics iou_thr
           [("ap"%string, average_precision);
            ("precision"%string, np_average precision);
            ("recall"%string, np_average recall)])
  end.

Definition _evaluate_overlaps (overlaps : ndarray) (iou_thrs : list Q)
  (by_class : by_class_arg) : result (list (Q * eval_dict)) :=
  evaluate_loop iou_thrs by_class overlaps [].

(** The averaging over thresholds at the end of [calculate_metrics]. *)
Definition averaged_keys : list string :=
  ["accuracy"%string; "precision"%string; "recall"%string].

Definition average_thresholds (tresh_dict : list (Q * eval_dict))
  : result eval_dict :=
  let averaged_dict := map (fun k => (k, 0)) averaged_keys in
  averaged_dict <-
    foldM (fun acc te =>
             foldM (fun acc key =>
                      cur <- str_get acc key ;;
                      v <- str_get (snd te) key ;;
                      Ok (str_set acc key (cur + v)))
                   averaged_keys acc)
          tresh_dict averaged_dict ;;
  foldM (fun acc key =>
           cur <- str_get acc key ;;
           q <- py_div cur (inject_Z (Z.of_nat (List.length tresh_dict))) ;;
           Ok (str_set acc key q))
        averaged_keys averaged_dict.

(** [calculate_metrics] *)
Definition calculate_metrics (iou_thrs : list Q) (classwise : bool)
  (average_thrs : bool) : result (list (pykey * report)) :=
  match proposals self with
  | None => Raise TypeError
  | Some props =>
      let unique_images := np_unique_nat (map img_idx props) in
      let tot_props := value_counts (map p_cat_id props) in
      overlaps <- match_images props unique_images [] ;;
      let overlaps := np_array overlaps in
      results_dict <-
        (if classwise then
           rows <- columns overlaps ;;
           foldM (fun results_dict class_idx =>
                    m <- _evaluate_overlaps
                           (Array2D (filter (fun r => Z.eqb (ov_cat_id r) class_idx)
                                            rows))
                           iou_thrs (ByClass class_idx) ;;
                    Ok (results_dict ++ [(KInt class_idx, m)]))
                 (np_unique_Z (map ov_cat_id rows)) []
         else
           m <- _evaluate_overlaps overlaps
                  (map (fun kv => inject_Z (Z.of_nat (snd kv))) tot_props)
                  (BySeq iou_thrs) ;;
           Ok [(KStr "average", m)]) ;;
      if average_thrs then
        mapM (fun ct =>
                averaged_dict <- average_thresholds (snd ct) ;;
                Ok (fst ct, Averaged averaged_dict))
             results_dict
      else Ok (map (fun ct => (fst ct, PerThreshold (snd ct))) results_dict)
  end.

End Engine.

(** ** Vocabulary of the statements *)

(** An entry of a proposal file whose bbox has neither 4 nor 8 numbers. *)
Definition bad_arity (p : json_proposal) : Prop :=
  List.length (jp_bbox p) <> 4%nat /\ List.length (jp_bbox p) <> 8%nat.

(** The category an annotation of [img_gt] is matched on: [x[0]]. *)
Definition first_cat (rw : Z * annotation) : Z := hd 0%Z (cat_id (snd rw)).

(** The ground-truth candidates of a detection, in the order of [img_gt]. *)
Definition same_cat_gt_of (detection : proposal)
  (img_gt : list (Z * annotation)) : list (Z * annotation) :=
  filter (fun rw => Z.eqb (first_cat rw) (p_cat_id detection)) img_gt.

(** The ground-truth ids of the matched records (those that are not the
    sentinel -1). *)
Definition matched_ids (recs : list ov_row) : list Z :=
  filter (fun v => negb (Z.eqb v (-1))) (map ov_bbox_id recs).

(** The entry [_evaluate_overlaps] stores for a threshold, from the count
    of ground truth and the rows as sorted in that pass (average precision
    in mode 'area'). *)
Definition entry_of (nr_gt : nat) (sorted : list ov_row) (iou_thr : Q)
  : eval_dict :=
  let tp_sum := tp_sum_of sorted iou_thr in
  let fp_sum := fp_sum_of sorted iou_thr in
  let recall := recall_of nr_gt tp_sum in
  let precision := precision_of tp_sum fp_sum in
  [("ap"%string,
    area_sum ([0] ++ recall ++ [1]) (envelope ([0] ++ precision ++ [0])));
   ("precision"%string, np_average precision);
   ("recall"%string, np_average recall)].

(** The rows as a pass of [_evaluate_overlaps] counts them: rearranged so
    that scores never increase. *)
Definition score_desc (sorted rows : list ov_row) : Prop :=
  Permutation sorted rows
  /\ StronglySorted (fun r1 r2 => ov_score r2 <= ov_score r1) sorted.

(** An entry without the key ['accuracy']. *)
Definition no_accuracy (d : eval_dict) : Prop :=
  str_get d "accuracy" = Raise (KeyError (KStr "accuracy")).

(** An entry whose average precision and mean recall are zero. *)
Definition zero_entry (d : eval_dict) : Prop :=
  exists ap rc,
    str_get d "ap" = Ok ap /\ ap == 0
    /\ str_get d "recall" = Ok rc /\ rc == 0.

(** ** Concrete data used by the examples *)

Module Sample.
Local Open Scope string_scope.

Definition note_a : annotation :=
  mkAnn [0; 0; 10; 10] [0; 0; 10; 0; 10; 10; 0; 10] [1%Z] 100 7%Z "".
Definition note_b : annotation :=
  mkAnn [20; 20; 30; 30] [20; 20; 30; 20; 30; 30; 20; 30] [1%Z] 100 7%Z "".

(** One image (id 7, index 0) with two annotations of category 1. *)
Definition store : OBBAnns :=
  mkOBBAnns None false None
    (Some [mkImage 7 "a.png" [1%Z; 2%Z]])
    [(7%Z, 0%nat)] ["deepscores"]
    [(1%Z, mkCat "note" "deepscores")]
    [(1%Z, note_a); (2%Z, note_b)]
    (ManySets ["deepscores"]) [] [].

(** Two axis-aligned detections of the first annotation. *)
Definition aligned_file : proposal_file_data :=
  mkPropFile "deepscores"
    [mkJsonProp [0; 0; 10; 10] 1 7 (9 # 10);
     mkJsonProp [0; 0; 10; 10] 1 7 (5 # 10)].

Definition aligned_props : list proposal :=
  [mkProp [0; 0; 10; 10] 1 0 (9 # 10); mkProp [0; 0; 10; 10] 1 0 (5 # 10)].

Definition aligned_store : OBBAnns :=
  with_proposals store (Some aligned_props) false (Some 0%nat).

(** An oriented detection of the first annotation. *)
Definition oriented_det : proposal :=
  mkProp [0; 0; 10; 0; 10; 10; 0; 10] 1 0 (9 # 10).

Definition oriented_file : proposal_file_data :=
  mkPropFile "deepscores"
    [mkJsonProp [0; 0; 10; 0; 10; 10; 0; 10] 1 7 (9 # 10)].

Definition oriented_store : OBBAnns :=
  with_proposals store (Some [oriented_det]) true (Some 0%nat).

(** A file whose first entry has 8 coordinates, the second 4, the third 5. *)
Definition mixed_file : proposal_file_data :=
  mkPropFile "deepscores"
    [mkJsonProp [0; 0; 10; 0; 10; 10; 0; 10] 1 7 (9 # 10);
     mkJsonProp [0; 0; 10; 10] 1 7 (5 # 10);
     mkJsonProp [0; 0; 10; 10; 3] 1 7 (4 # 10)].

(** A file whose first entry has 5 coordinates. *)
Definition malformed_file : proposal_file_data :=
  mkPropFile "deepscores" [mkJsonProp [0; 0; 10; 10; 3] 1 7 (4 # 10)].

(** Stand-ins for the two external operations. *)
Definition iou_one (_ _ : list Q) : Q := 1.
Definition eq_all (s : list Z) (_ : list Q) : result (list bool) :=
  Ok (map (fun _ => true) s).
End Sample.

(** ** Comments of an annotation *)

(** [s.split(sep)] for a one-character separator: the pieces between the
    separators, empty pieces included; never an empty list. *)
Fixpoint split_char (sep : Ascii.ascii) (s : string) : list string :=
  match s with
  | EmptyString => [EmptyString]
  | String c r =>
      if Ascii.eqb c sep then EmptyString :: split_char sep r
      else match split_char sep r with
           | [] => [String c EmptyString]
           | h :: t => String c h :: t
           end
  end.

(** [parse_comments] (static method): the unpacking [key, value = co.split(":")]
    raises [ValueError] on more than two pieces. *)
Definition parse_comments (comment : string) : result (list (string * string)) :=
  foldM (fun parsed_dict co =>
           let pieces := split_char ":"%char co in
           if Nat.ltb 1 (List.length pieces) then
             match pieces with
             | [key; value] => Ok (str_set parsed_dict key value)
             | _ => Raise ValueError
             end
           else Ok parsed_dict)
        (split_char ";"%char comment) [].

(** Number of occurrences of a character. *)
Fixpoint count_char (c : Ascii.ascii) (s : string) : nat :=
  match s with
  | EmptyString => 0
  | String d r => (if Ascii.eqb d c then 1 else 0) + count_char c r
  end.

(** [sep.join(l)] for a one-character separator. *)
Fixpoint join_char (sep : Ascii.ascii) (l : list string) : string :=
  match l with
  | [] => EmptyString
  | [x] => x
  | x :: r => String.append x (String sep (join_char sep r))
  end.

(** The comment text [key:value;key:value;...] of a list of pairs. *)
Definition comment_of (kvs : list (string * string)) : string :=
  join_char ";"%char
    (map (fun kv => String.append (fst kv) (String ":"%char (snd kv))) kvs).

(** What [parse_comments] does with one field. *)
Definition parse_field (parsed_dict : list (string * string)) (co : string)
  : result (list (string * string)) :=
  let pieces := split_char ":"%char co in
  if Nat.ltb 1 (List.length pieces) then
    match pieces with
    | [key; value] => Ok (str_set parsed_dict key value)
    | _ => Raise ValueError
    end
  else Ok parsed_dict.

(** A piece of comment text free of both separators. *)
Definition plain_text (s : string) : Prop :=
  count_char ";"%char s = 0%nat /\ count_char ":"%char s = 0%nat.

(** ** Loading annotations and the remaining getters *)

Definition int_set {V : Type} := @dict_set Z V Z.eqb.

(** [needle in hay] between two strings: a substring test. *)
Fixpoint str_contains (needle hay : string) : bool :=
  if String.prefix needle hay then true
  else match hay with
       | EmptyString => false
       | String _ r => str_contains needle r
       end.

(** [x in self.chosen_ann_set]: membership in a list of names, or the
    substring test when the filter is one string. *)
Definition in_ann_set_sel (x : string) (f : ann_set_sel) : bool :=
  match f with
  | OneSet s => str_contains x s
  | ManySets l => existsb (String.eqb x) l
  end.

(** [get_cats] *)
Definition get_cats (self : OBBAnns) : list (Z * category) :=
  filter (fun kv =>
            in_ann_set_sel (annotation_set (snd kv)) (chosen_ann_set self)
            && negb (existsb (String.eqb (name (snd kv)))
                             (classes_blacklist self)))
         (cat_info self).

(** The parsed annotation file: [data['annotation_sets']],
    [data['categories']] and [data['annotations']] with their keys already
    through [int], and [data['images']]. *)
Record annotation_file_data : Type := mkAnnFile {
  af_annotation_sets : list string;
  af_categories : list (Z * category);
  af_annotations : list (Z * annotation);
  af_images : list image
}.

(** [enumerate(l)] *)
Definition enumerate {A : Type} (l : list A) : list (nat * A) :=
  combine (seq 0 (List.length l)) l.

(** [load_annotations]: the object after loading, or the exception raised.
    The lookup table is extended, not rebuilt. *)
Definition load_annotations (self : OBBAnns) (data : annotation_file_data)
  (annotation_set_filter : option string) : result OBBAnns :=
  chosen <- match annotation_set_filter with
            | Some f =>
                if existsb (String.eqb f) (af_annotation_sets data)
                then Ok (OneSet f)
                else Raise AssertionError
            | None => Ok (ManySets (af_annotation_sets data))
            end ;;
  let cats := fold_left (fun d kv => int_set d (fst kv) (snd kv))
                        (af_categories data) [] in
  let lookup := fold_left (fun d iv => int_set d (image_id (snd iv)) (fst iv))
                          (enumerate (af_images data))
                          (img_idx_lookup self) in
  Ok (mkOBBAnns (proposals self) (props_oriented self) (prop_ann_set_idx self)
        (Some (af_images data)) lookup (af_annotation_sets data) cats
        (af_annotations data) chosen (classes_blacklist self)
        (classes_blacklist_id self)).

(** [__len__] *)
Definition OBBAnns_len (self : OBBAnns) : nat :=
  match img_info self with
  | None => 0
  | Some imgs => List.length imgs
  end.

(** [self.img_info[idx]] *)
Definition img_info_at (self : OBBAnns) (idx : nat) : result image :=
  match img_info self with
  | None => Raise TypeError
  | Some imgs => getitem imgs idx
  end.

(** [get_imgs] *)
Definition get_imgs (self : OBBAnns) (idxs : option (list nat))
  (ids : option (list Z)) : result (list image) :=
  _ <- _xor_args idxs ids ;;
  match idxs with
  | Some l => mapM (img_info_at self) l
  | None =>
      match ids with
      | Some l => mapM (fun i => k <- int_get (img_idx_lookup self) i ;;
                                 img_info_at self k) l
      | None => Raise AssertionError
      end
  end.

(** [get_img_ann_pair] *)
Definition get_img_ann_pair (self : OBBAnns) (idxs : option (list nat))
  (ids : option (list Z)) (ann_set_filter : option ann_set_sel)
  : result (list image * list (list (Z * annotation))) :=
  _ <- _xor_args idxs ids ;;
  imgs <- get_imgs self idxs ids ;;
  anns <- mapM (fun img => get_ann_ids self (ann_ids img) ann_set_filter) imgs ;;
  Ok (imgs, anns).

(** The outcome of a method that may also fail with [AttributeError] (an
    attribute read on [None]). *)
Inductive attr_result (A : Type) : Type :=
| AttributeError
| Attr (r : result A).

Arguments AttributeError {A}.
Arguments Attr {A} r.

(** [get_img_props] *)
Definition get_img_props (self : OBBAnns) (idxs : option (list nat))
  (ids : option (list Z)) : attr_result (list proposal) :=
  match _xor_args idxs ids with
  | Raise e => Attr (Raise e)
  | Ok _ =>
      let resolved :=
        match ids with
        | Some l => mapM (int_get (img_idx_lookup self)) l
        | None => Ok (match idxs with Some l => l | None => [] end)
        end in
      match resolved with
      | Raise e => Attr (Raise e)
      | Ok idxs =>
          match proposals self with
          | None => AttributeError
          | Some props =>
              Attr (Ok (filter (fun p => existsb (Nat.eqb (img_idx p)) idxs)
                               props))
          end
      end
  end.

(** The names an annotation-set filter stands for, and the filter an
    optional argument resolves to. *)
Definition sel_names (f : ann_set_sel) : list string :=
  match f with
  | OneSet s => [s]
  | ManySets l => l
  end.

Definition filter_in_force (self : OBBAnns) (f : option ann_set_sel)
  : ann_set_sel :=
  match f with
  | None => chosen_ann_set self
  | Some f => f
  end.

(** The requested labels that the annotation table does not hold. *)
Definition missing_ids (self : OBBAnns) (ids : list Z) : list Z :=
  not_in_index (ann_info self) ids.

(** [__init__]: nothing loaded.  The attributes that are [None] until
    [load_annotations] assigns them ([annotation_sets], [cat_info],
    [ann_info], [chosen_ann_set]) hold an empty placeholder here. *)
Definition OBBAnns_init : OBBAnns :=
  mkOBBAnns None false None None [] [] [] [] (ManySets []) [] [].

(** A second data set: two annotation sets, two images. *)
Module Sample2.
Local Open Scope string_scope.

Definition ann10 : annotation :=
  mkAnn [0; 0; 10; 10] [0; 0; 10; 0; 10; 10; 0; 10] [1%Z; 7%Z] 100 100%Z
    "instance:#0000ff;onset:1/4".
Definition ann11 : annotation :=
  mkAnn [20; 20; 30; 30] [20; 20; 30; 20; 30; 30; 20; 30] [2%Z; 7%Z] 100 100%Z "".
Definition ann12 : annotation :=
  mkAnn [0; 0; 4; 4] [0; 0; 4; 0; 4; 4; 0; 4] [1%Z; 7%Z] 16 200%Z "".

Definition img_a : image := mkImage 100 "a.png" [10%Z; 11%Z].
Definition img_b : image := mkImage 200 "b.png" [12%Z].

Definition file : annotation_file_data :=
  mkAnnFile ["deepscores"; "muscima"]
    [(1%Z, mkCat "note" "deepscores"); (2%Z, mkCat "rest" "deepscores");
     (7%Z, mkCat "notehead" "muscima")]
    [(10%Z, ann10); (11%Z, ann11); (12%Z, ann12)]
    [img_a; img_b].

(** The object [load_annotations] builds from [file] without a filter. *)
Definition store : OBBAnns :=
  mkOBBAnns None false None (Some [img_a; img_b])
    [(100%Z, 0%nat); (200%Z, 1%nat)]
    ["deepscores"; "muscima"]
    [(1%Z, mkCat "note" "deepscores"); (2%Z, mkCat "rest" "deepscores");
     (7%Z, mkCat "notehead" "muscima")]
    [(10%Z, ann10); (11%Z, ann11); (12%Z, ann12)]
    (ManySets ["deepscores"; "muscima"]) [] [].

(** Proposals on both images. *)
Definition props_file : proposal_file_data :=
  mkPropFile "deepscores"
    [mkJsonProp [0; 0; 10; 10] 1 100 (9 # 10);
     mkJsonProp [0; 0; 4; 4] 1 200 (8 # 10);
     mkJsonProp [20; 20; 30; 30] 2 100 (7 # 10);
     mkJsonProp [1; 1; 9; 9] 1 100 (6 # 10)].

Definition props : list proposal :=
  [mkProp [0; 0; 10; 10] 1 0 (9 # 10);
   mkProp [0; 0; 4; 4] 1 1 (8 # 10);
   mkProp [20; 20; 30; 30] 2 0 (7 # 10);
   mkProp [1; 1; 9; 9] 1 0 (6 # 10)].

Definition loaded : OBBAnns :=
  with_proposals store (Some props) false (Some 0%nat).
End Sample2.

(** The index a proposal entry's image id resolves to equals [i]. *)
Definition resolves_to (self : OBBAnns) (i : nat) (e : json_proposal) : bool :=
  match int_get (img_idx_lookup self) (jp_img_id e) with
  | Ok j => Nat.eqb j i
  | Raise _ => false
  end.

(** The stored row of a proposal entry on image index [i]. *)
Definition prop_of_entry (i : nat) (e : json_proposal) : proposal :=
  mkProp (jp_bbox e) (jp_cat_id e) i (jp_score e).

(** The category and score a record or a proposal carries. *)
Definition ov_key (r : ov_row) : Z * Q := (ov_cat_id r, ov_score r).
Definition prop_key (p : proposal) : Z * Q := (p_cat_id p, score p).

(** A record is either unmatched, with overlap 0, or carries an overlap above
    the reservation threshold with a ground-truth row of [img_gt] that has
    the record's id and, first in its list, the record's category. *)
Definition record_shape (img_gt : list (Z * annotation)) (r : ov_row) : Prop :=
  (ov_bbox_id r = (-1)%Z /\ ov_overlap r = 0)
  \/ (reserve_thr < ov_overlap r
      /\ exists rw, In rw img_gt /\ fst rw = ov_bbox_id r
                    /\ first_cat rw = ov_cat_id r).

(** A number within [0, 1]. *)
Definition unit_range (x : Q) : Prop := 0 <= x /\ x <= 1.

(** The number of records that count as true positives at a threshold. *)
Definition tp_count (rows : list ov_row) (iou_thr : Q) : nat :=
  List.length (filter (fun r => Qge_bool (ov_overlap r) iou_thr) rows).

(** Thresholds no two of which are equal as numbers. *)
Definition distinct_thrs (iou_thrs : list Q) : Prop :=
  ForallOrdPairs (fun a b => ~ a == b) iou_thrs.

(** ** The image wall of [tools/images_display.py] *)

Module ImageWall.
Local Open Scope Z_scope.

(** [a // b] and [a % b] on integers (floor division, as [Z.div] and
    [Z.modulo]); a zero divisor raises. *)
Definition floordiv (a b : Z) : result Z :=
  if Z.eqb b 0 then Raise ZeroDivisionError else Ok (a / b).
Definition pymod (a b : Z) : result Z :=
  if Z.eqb b 0 then Raise ZeroDivisionError else Ok (a mod b).

(** The attributes of an [ImageWall] that its geometry rests on.  The
    pillow objects ([__im], [__imdraw], [__fnt]) are not part of it: the
    canvas is the list of calls made on them. *)
Record wall : Type := mkWall {
  width : Z;
  height : Z;
  columns : Z;
  lines : Z;
  canvasmode : string;
  color : Z * Z * Z;
  cx : Z;
  cy : Z
}.

(** A pillow image is its [size]; a call on the canvas is [paste] of an
    image at a position or [text] at a position. *)
Definition img : Type := (Z * Z)%type.



(** [__init__], up to the creation of the pillow objects. *)
Definition init (size dim : Z * Z) (mode : string) (col : Z * Z * Z)
  : result wall :=
  if negb (String.eqb mode "RGB" || String.eqb mode "RGBA")
  then Raise AssertionError
  else
    x <- floordiv (fst size) (fst dim) ;;
    y <- floordiv (snd size) (snd dim) ;;
    Ok (mkWall (fst size) (snd size) (fst dim) (snd dim) mode col x y).

(** [__get_cell]; the empty tuple is [None]. *)
Definition __get_cell (self : wall) (x y : Z) : option (Z * Z * Z * Z) :=
  if negb ((0 <=? x) && (x <=? columns self))
     || negb ((0 <=? y) && (y <=? lines self))
  then None
  else Some (x * cx self, y * cy self, (x + 1) * cx self, (y + 1) * cy self).

(** [get_imagewall_info] *)
Definition get_imagewall_info (self : wall) : (Z * Z) * (Z * Z) * string :=
  ((width self, height self), (columns self, lines self), canvasmode self).







(** A wall of 3 columns and 2 lines on a canvas of 300 by 140. *)
Definition sample : wall := mkWall 300 140 3 2 "RGB" (255, 255, 255) 100 70.
End ImageWall.

(** ** The start of [visualize], and the tools built on it *)

(** [s[i]] on a string: the one-character string at a non-negative index. *)
Definition str_getitem (s : string) (i : nat) : result string :=
  match String.get i s with
  | Some c => Ok (String c EmptyString)
  | None => Raise IndexError
  end.

(** [visualize] up to the point where the image file is opened: the
    annotation set is chosen, which overwrites [chosen_ann_set], and the image
    and its annotations are fetched.  The object is returned as the call
    leaves it, also when the call raises. *)
Definition visualize_select (self : OBBAnns) (img_idx : option nat)
  (img_id : option Z) (annotation_set : option string)
  : OBBAnns * result (image * list (Z * annotation)) :=
  let img_idx := option_map (fun i => [i]) img_idx in
  let img_id := option_map (fun k => [k]) img_id in
  let chosen :=
    match annotation_set with
    | None =>
        s <- getitem (annotation_sets self) 0 ;; Ok (OneSet s)
    | Some a =>
        i <- list_index (annotation_sets self) a ;;
        match chosen_ann_set self with
        | ManySets l => s <- getitem l i ;; Ok (OneSet s)
        | OneSet s => c <- str_getitem s i ;; Ok (OneSet c)
        end
    end in
  match chosen with
  | Raise e => (self, Raise e)
  | Ok f =>
      let self := set_annotation_set_filter self f in
      (self,
       pair <- get_img_ann_pair self img_idx img_id None ;;
       img <- getitem (fst pair) 0 ;;
       anns <- getitem (snd pair) 0 ;;
       Ok (img, anns))
  end.

Module DeepScoresV2.
Local Open Scope Z_scope.

(** One turn of the key loop of [visualize_annotation]: the next view, or
    [None] when the loop is left ([kn] is one of 'up', 'down', 'left',
    'right', 'esc'). *)
Definition next_view (kn : string) (view max_size : nat) : option nat :=
  if String.eqb kn "up" || String.eqb kn "left"
  then Some (if Nat.eqb view 0 then 0 else view - 1)%nat
  else if String.eqb kn "down" || String.eqb kn "right"
  then Some (if Nat.eqb view max_size then max_size else view + 1)%nat
  else None.

(** The wall [visualize_cats] builds in mode 'GRID' for [num] category
    images. *)
Definition visualize_cats_wall (num : Z) : result ImageWall.wall :=
  let columns := 10 in
  x <- ImageWall.pymod num columns ;;
  q <- ImageWall.floordiv num columns ;;
  let lines := if negb (Z.eqb x 0) then q + 1 else q in
  ImageWall.init (200 * columns, 140 * lines) (columns, lines) "RGB"
    (255, 255, 255).
End DeepScoresV2.

(** * Properties *)

(** ** The error monad *)

Lemma bind_ok {A B : Type} (m : result A) (k : A -> result B) (b : B) :
  bind m k = Ok b -> exists a, m = Ok a /\ k a = Ok b.
Proof.
  destruct m as [a | e]; simpl; intro H; [eauto | discriminate].
Qed.

Ltac inv_bind H :=
  let x := fresh "x" in
  let E := fresh "E" in
  apply bind_ok in H; destruct H as (x & E & H).

Lemma mapM_length {A B : Type} (f : A -> result B) (l : list A) (r : list B) :
  mapM f l = Ok r -> List.length r = List.length l.
Proof.
  revert r; induction l as [| x l IH]; simpl; intros r H.
  - now inversion H.
  - inv_bind H. inv_bind H. inversion H; subst. simpl. f_equal. now apply IH.
Qed.

Lemma mapM_total {A B : Type} (f : A -> result B) (g : A -> B) (l : list A) :
  Forall (fun x => f x = Ok (g x)) l -> mapM f l = Ok (map g l).
Proof.
  induction 1 as [| x l Hx _ IH]; simpl; [reflexivity |].
  now rewrite Hx, IH.
Qed.

(** ** Geometry *)

Lemma py_min_pair (x y : Q) : py_min [x; y] = Ok (Qmin x y).
Proof.
  unfold py_min, py_min_from, Qmin, GenericMinMax.gmin.
  destruct (x ?= y) eqn:E; destruct (Qlt_le_dec y x) as [Hlt | Hle];
    try reflexivity; exfalso.
  - apply Qeq_alt in E. rewrite E in Hlt. exact (Qlt_irrefl _ Hlt).
  - apply Qlt_alt in E. exact (Qlt_irrefl _ (Qlt_trans _ _ _ E Hlt)).
  - apply Qgt_alt in E. exact (Qlt_not_le _ _ E Hle).
Qed.

Lemma py_max_pair (x y : Q) : py_max [x; y] = Ok (Qmax x y).
Proof.
  unfold py_max, py_max_from, Qmax, GenericMinMax.gmax.
  destruct (x ?= y) eqn:E; destruct (Qlt_le_dec x y) as [Hlt | Hle];
    try reflexivity; exfalso.
  - apply Qeq_alt in E. rewrite E in Hlt. exact (Qlt_irrefl _ Hlt).
  - apply Qlt_alt in E. exact (Qlt_not_le _ _ E Hle).
  - apply Qgt_alt in E. exact (Qlt_irrefl _ (Qlt_trans _ _ _ E Hlt)).
Qed.

(** The value and the kind of [min([a, b])] and [max([a, b])] for a Python
    number [a] and a numpy scalar [b]. *)
Lemma num_min_pair (a b : Q) :
  exists m, num_min [PyNum a; NpNum b] = Ok m
            /\ num_val m = Qmin a b /\ is_py m = Qle_bool a b.
Proof.
  unfold num_min, num_min_from. cbn [num_val].
  pose proof (py_min_pair a b) as Hv. unfold py_min, py_min_from in Hv.
  destruct (Qlt_le_dec b a) as [Hlt | Hle]; injection Hv as Hv'; eexists;
    (split; [reflexivity |]); cbn [num_val is_py]; (split; [exact Hv' |]).
  - destruct (Qle_bool a b) eqn:E; [| reflexivity].
    apply Qle_bool_iff in E. exfalso. exact (Qlt_not_le _ _ Hlt E).
  - symmetry. now apply Qle_bool_iff.
Qed.

Lemma num_max_pair (a b : Q) :
  exists m, num_max [PyNum a; NpNum b] = Ok m
            /\ num_val m = Qmax a b /\ is_py m = Qle_bool b a.
Proof.
  unfold num_max, num_max_from. cbn [num_val].
  pose proof (py_max_pair a b) as Hv. unfold py_max, py_max_from in Hv.
  destruct (Qlt_le_dec a b) as [Hlt | Hle]; injection Hv as Hv'; eexists;
    (split; [reflexivity |]); cbn [num_val is_py]; (split; [exact Hv' |]).
  - destruct (Qle_bool b a) eqn:E; [| reflexivity].
    apply Qle_bool_iff in E. exfalso. exact (Qlt_not_le _ _ Hlt E).
  - symmetry. now apply Qle_bool_iff.
Qed.

Lemma num_sub_spec x y :
  num_val (num_sub x y) = num_val x - num_val y
  /\ is_py (num_sub x y) = is_py x && is_py y.
Proof. unfold num_sub. destruct (is_py x && is_py y); split; reflexivity. Qed.

Lemma num_mul_spec x y :
  num_val (num_mul x y) = num_val x * num_val y
  /\ is_py (num_mul x y) = is_py x && is_py y.
Proof. unfold num_mul. destruct (is_py x && is_py y); split; reflexivity. Qed.

Lemma Qeq_bool_le x y : Qeq_bool x y = Qle_bool x y && Qle_bool y x.
Proof.
  destruct (Qeq_bool x y) eqn:E.
  - apply Qeq_bool_iff in E. symmetry. apply andb_true_iff.
    split; apply Qle_bool_iff; rewrite E; apply Qle_refl.
  - destruct (Qle_bool x y) eqn:E1; [| reflexivity].
    destruct (Qle_bool y x) eqn:E2; [| reflexivity].
    apply Qle_bool_iff in E1, E2.
    assert (H : x == y) by (now apply Qle_antisym).
    apply Qeq_bool_iff in H. congruence.
Qed.

(** [calculate_aligned_overlap] in closed form. *)
Lemma calculate_aligned_overlap_spec
  (axmin aymin axmax aymax bxmin bymin bxmax bymax : Q) :
  calculate_aligned_overlap
    (mkRow [axmin; aymin; axmax; aymax] [bxmin; bymin; bxmax; bymax])
  = overlap_aligned_spec axmin aymin axmax aymax bxmin bymin bxmax bymax.
Proof.
  unfold calculate_aligned_overlap, overlap_aligned_spec,
    dx_int_spec, dx_ov_spec, same_box, Qge_bool.
  cbn [gt det map getitem nth_error bind].
  destruct (num_min_pair axmax bxmax) as (mn2 & -> & Vmn2 & Kmn2).
  destruct (num_max_pair axmin bxmin) as (mx0 & -> & Vmx0 & Kmx0).
  destruct (num_min_pair aymax bymax) as (mn3 & -> & Vmn3 & Kmn3).
  destruct (num_max_pair aymin bymin) as (mx1 & -> & Vmx1 & Kmx1).
  destruct (num_max_pair axmax bxmax) as (mx2 & -> & Vmx2 & Kmx2).
  destruct (num_min_pair axmin bxmin) as (mn0 & -> & Vmn0 & Kmn0).
  destruct (num_max_pair aymax bymax) as (mx3 & -> & Vmx3 & Kmx3).
  destruct (num_min_pair aymin bymin) as (mn1 & -> & Vmn1 & Kmn1).
  cbn [bind].
  rewrite !(proj1 (num_mul_spec _ _)), !(proj2 (num_mul_spec _ _)).
  rewrite !(proj1 (num_sub_spec _ _)), !(proj2 (num_sub_spec _ _)).
  rewrite Vmn2, Vmx0, Vmn3, Vmx1, Vmx2, Vmn0, Vmx3, Vmn1.
  rewrite Kmn2, Kmx0, Kmn3, Kmx1, Kmx2, Kmn0, Kmx3, Kmn1.
  rewrite !Qeq_bool_le.
  destruct (Qle_bool 0 _ && Qle_bool 0 _); [| reflexivity].
  destruct (Qle_bool _ 0 && Qle_bool 0 _); [| reflexivity].
  destruct (Qle_bool axmax bxmax), (Qle_bool bxmin axmin),
    (Qle_bool aymax bymax), (Qle_bool bymin aymin),
    (Qle_bool bxmax axmax), (Qle_bool axmin bxmin),
    (Qle_bool bymax aymax), (Qle_bool aymin bymin); reflexivity.
Qed.

(** Where both intersection extents are non-negative, a zero product of
    the bounding extents comes with a zero product of the intersection
    extents. *)
Lemma aligned_dividend_zero
  (axmin aymin axmax aymax bxmin bymin bxmax bymax : Q) :
  0 <= dx_int_spec axmin axmax bxmin bxmax ->
  0 <= dx_int_spec aymin aymax bymin bymax ->
  dx_ov_spec axmin axmax bxmin bxmax * dx_ov_spec aymin aymax bymin bymax == 0 ->
  dx_int_spec axmin axmax bxmin bxmax * dx_int_spec aymin aymax bymin bymax == 0.
Proof.
  unfold dx_int_spec, dx_ov_spec. intros Hx Hy H0.
  pose proof (Q.le_min_l axmax bxmax). pose proof (Q.le_max_l axmax bxmax).
  pose proof (Q.le_min_l axmin bxmin). pose proof (Q.le_max_l axmin bxmin).
  pose proof (Q.le_min_l aymax bymax). pose proof (Q.le_max_l aymax bymax).
  pose proof (Q.le_min_l aymin bymin). pose proof (Q.le_max_l aymin bymin).
  apply Qmult_integral in H0. destruct H0 as [H0 | H0].
  - assert (E : Qmin axmax bxmax - Qmax axmin bxmin == 0) by lra.
    rewrite E. ring.
  - assert (E : Qmin aymax bymax - Qmax aymin bymin == 0) by lra.
    rewrite E. ring.
Qed.

(** C3, with the side condition it needs.  On two boxes (xmin, ymin, xmax,
    ymax) whose bounding extents have a non-zero product,
    [calculate_aligned_overlap] returns (dx_int * dy_int) / (dx_ov * dy_ov),
    with dx_int = min(xmax) - max(xmin), dx_ov = max(xmax) - min(xmin) and
    dy_int, dy_ov likewise, whenever dx_int >= 0 and dy_int >= 0; it returns
    0 when dx_int < 0 or dy_int < 0, whatever the bounding extents.  The
    quotient is over the product of the bounding extents, which is not the
    area of the union: on [0,0,2,2] and [1,1,3,3] it is 1/9 where
    intersection over union is 1/7.  With dx_int >= 0, dy_int >= 0 and a
    zero product of the bounding extents the quotient is 0 / 0 and the
    function returns no number: it returns [nan] or raises. *)
Theorem aligned_overlap_formula
  (axmin aymin axmax aymax bxmin bymin bxmax bymax : Q) :
  let r := mkRow [axmin; aymin; axmax; aymax] [bxmin; bymin; bxmax; bymax] in
  let dx_int := Qmin axmax bxmax - Qmax axmin bxmin in
  let dy_int := Qmin aymax bymax - Qmax aymin bymin in
  let dx_ov := Qmax axmax bxmax - Qmin axmin bxmin in
  let dy_ov := Qmax aymax bymax - Qmin aymin bymin in
  (0 <= dx_int -> 0 <= dy_int -> ~ dx_ov * dy_ov == 0 ->
   calculate_aligned_overlap r
   = Ok (Fin ((dx_int * dy_int) / (dx_ov * dy_ov))))
  /\ (~ (0 <= dx_int /\ 0 <= dy_int) ->
      calculate_aligned_overlap r = Ok (Fin 0))
  /\ (0 <= dx_int -> 0 <= dy_int -> dx_ov * dy_ov == 0 ->
      dx_int * dy_int == 0
      /\ (calculate_aligned_overlap r = Ok NaN
          \/ calculate_aligned_overlap r = Raise ZeroDivisionError))
  /\ (calculate_aligned_overlap (mkRow [0; 0; 2; 2] [1; 1; 3; 3])
      = Ok (Fin (1 # 9))
      /\ true_iou 0 0 2 2 1 1 3 3 == 1 # 7).
Proof.
  cbv zeta. rewrite calculate_aligned_overlap_spec.
  unfold overlap_aligned_spec.
  split; [| split; [| split]].
  - intros Hx Hy Hd. unfold dx_int_spec, dx_ov_spec.
    apply Qle_bool_iff in Hx, Hy. rewrite Hx, Hy. cbn [andb].
    destruct (Qeq_bool _ 0) eqn:E; [| reflexivity].
    apply Qeq_bool_iff in E. contradiction.
  - intro Hn. unfold dx_int_spec.
    destruct (Qle_bool 0 (Qmin axmax bxmax - Qmax axmin bxmin)) eqn:Ex;
      [| reflexivity].
    destruct (Qle_bool 0 (Qmin aymax bymax - Qmax aymin bymin)) eqn:Ey;
      [| reflexivity].
    exfalso. apply Hn. split; now apply Qle_bool_iff.
  - intros Hx Hy Hd. split.
    + exact (aligned_dividend_zero _ _ _ _ _ _ _ _ Hx Hy Hd).
    + unfold dx_int_spec, dx_ov_spec.
      apply Qle_bool_iff in Hx, Hy. rewrite Hx, Hy. cbn [andb].
      apply Qeq_bool_iff in Hd. rewrite Hd.
      destruct (same_box _ _ _ _ _ _ _ _); [now right | now left].
  - split; reflexivity.
Qed.

Lemma aligned_overlap_formula_witness :
  calculate_aligned_overlap (mkRow [0; 0; 2; 2] [1; 1; 3; 3])
  = Ok (Fin (((Qmin 2 3 - Qmax 0 1) * (Qmin 2 3 - Qmax 0 1))
             / ((Qmax 2 3 - Qmin 0 1) * (Qmax 2 3 - Qmin 0 1)))).
Proof.
  apply (proj1 (aligned_overlap_formula 0 0 2 2 1 1 3 3)).
  - vm_compute. discriminate.
  - vm_compute. discriminate.
  - vm_compute. discriminate.
Defined.

(** C3, as stated, fails where the bounding extents have a zero product: on
    the ground-truth box [0,0,0,10] and the proposal box [0,0,0,5] both
    intersection extents are non-negative, and the function returns [nan],
    no number. *)
Lemma aligned_overlap_zero_extent_nan :
  0 <= Qmin 0 0 - Qmax 0 0
  /\ 0 <= Qmin 10 5 - Qmax 0 0
  /\ (Qmax 0 0 - Qmin 0 0) * (Qmax 10 5 - Qmin 0 0) == 0
  /\ calculate_aligned_overlap (mkRow [0; 0; 0; 10] [0; 0; 0; 5]) = Ok NaN
  /\ forall q,
      calculate_aligned_overlap (mkRow [0; 0; 0; 10] [0; 0; 0; 5])
      <> Ok (Fin q).
Proof.
  split; [vm_compute; discriminate |].
  split; [vm_compute; discriminate |].
  split; [reflexivity |].
  split; [reflexivity |].
  intros q H. vm_compute in H. discriminate.
Qed.

(** ** Loading proposals *)

Lemma list_index_in (l : list string) (x : string) :
  In x l -> exists i, list_index l x = Ok i.
Proof.
  induction l as [| y l IH]; simpl; [contradiction |].
  intros [-> | Hin].
  - rewrite String.eqb_refl. eauto.
  - destruct (String.eqb y x); [eauto |].
    destruct (IH Hin) as [i ->]. simpl. eauto.
Qed.

Lemma load_proposals_first_bad (self : OBBAnns) (props : proposal_file_data)
  (p0 : json_proposal) :
  nth_error (pf_proposals props) 0 = Some p0 -> bad_arity p0 ->
  forall s, load_proposals self props <> Ok s.
Proof.
  intros H0 [H4 H8] s. unfold load_proposals.
  destruct (img_info self); [| discriminate].
  destruct (list_index _ _); [| discriminate]. cbn [bind].
  unfold getitem. rewrite H0. cbn [bind].
  apply Nat.eqb_neq in H4, H8. rewrite H4, H8. discriminate.
Qed.

(** C9, as amended.  When the first entry of the proposal file has a bbox
    whose length is neither 4 nor 8, [load_proposals] returns no object; on
    loaded annotations and a known annotation set the exception is the
    assertion on the bbox length. *)
Theorem load_proposals_first_entry_arity (self : OBBAnns)
  (props : proposal_file_data) (p0 : json_proposal) :
  nth_error (pf_proposals props) 0 = Some p0 -> bad_arity p0 ->
  is_ok (load_proposals self props) = false
  /\ (img_info self <> None ->
      In (pf_annotation_set props) (annotation_sets self) ->
      load_proposals self props = Raise AssertionError).
Proof.
  intros H0 Hbad. split.
  - destruct (load_proposals self props) as [s | e] eqn:E; [| reflexivity].
    exfalso. exact (load_proposals_first_bad self props p0 H0 Hbad s E).
  - intros Himg Hin. destruct Hbad as [H4 H8]. unfold load_proposals.
    destruct (img_info self); [| congruence].
    destruct (list_index_in _ _ Hin) as [i ->]. cbn [bind].
    unfold getitem. rewrite H0. cbn [bind].
    apply Nat.eqb_neq in H4, H8. now rewrite H4, H8.
Qed.

Lemma load_proposals_first_entry_arity_witness :
  is_ok (load_proposals Sample.store Sample.malformed_file) = false
  /\ load_proposals Sample.store Sample.malformed_file = Raise AssertionError.
Proof.
  destruct (load_proposals_first_entry_arity Sample.store Sample.malformed_file
              (mkJsonProp [0; 0; 10; 10; 3] 1 7 (4 # 10)))
    as [H1 H2].
  - reflexivity.
  - split; simpl; lia.
  - split; [exact H1 |]. apply H2.
    + simpl. discriminate.
    + simpl. left. reflexivity.
Defined.

(** C9, as stated, fails: a file whose first entry has 8 coordinates, whose
    second has 4 and whose third has 5 is loaded, as an oriented set holding
    all three entries. *)
Lemma load_proposals_checks_first_entry_only :
  (exists p, In p (pf_proposals Sample.mixed_file) /\ bad_arity p)
  /\ (exists p, In p (pf_proposals Sample.mixed_file)
                /\ List.length (jp_bbox p) = 4%nat)
  /\ exists s, load_proposals Sample.store Sample.mixed_file = Ok s
               /\ props_oriented s = true
               /\ option_map (map (fun p => List.length (bbox p))) (proposals s)
                  = Some [8%nat; 4%nat; 5%nat].
Proof.
  split; [| split].
  - exists (mkJsonProp [0; 0; 10; 10; 3] 1 7 (4 # 10)). split.
    + simpl. auto.
    + split; simpl; lia.
  - exists (mkJsonProp [0; 0; 10; 10] 1 7 (5 # 10)). split.
    + simpl. auto.
    + reflexivity.
  - eexists. split; [reflexivity |]. split; reflexivity.
Qed.

(** The sample objects are what [load_proposals] builds from the sample
    files. *)
Lemma sample_stores_loaded :
  load_proposals Sample.store Sample.aligned_file = Ok Sample.aligned_store
  /\ load_proposals Sample.store Sample.oriented_file = Ok Sample.oriented_store.
Proof. split; reflexivity. Qed.

(** ** Selecting ground truth *)

(** Every row [get_ann_ids] returns has kept at least one category id. *)
Lemma get_ann_ids_cat_nonempty self ids ann_set_filter selected :
  get_ann_ids self ids ann_set_filter = Ok selected ->
  Forall (fun rw => cat_id (snd rw) <> []) selected.
Proof.
  unfold get_ann_ids. intro H.
  inv_bind H. inv_bind H. inv_bind H. inversion H; subst. clear H.
  apply Forall_forall. intros rw Hin. apply filter_In in Hin.
  destruct Hin as [_ Hlen]. apply Nat.ltb_lt in Hlen.
  intro Hnil. rewrite Hnil in Hlen. simpl in Hlen. lia.
Qed.

Lemma get_anns_cat_nonempty self img_idx img_id ann_set_filter img_gt :
  get_anns self img_idx img_id ann_set_filter = Ok img_gt ->
  Forall (fun rw => cat_id (snd rw) <> []) img_gt.
Proof.
  unfold get_anns. intro H. inv_bind H.
  destruct img_idx as [i |].
  - destruct (img_info self) as [imgs |]; [| discriminate].
    inv_bind H. now apply get_ann_ids_cat_nonempty in H.
  - destruct img_id as [k |]; [| discriminate].
    inv_bind H. destruct (img_info self) as [imgs |]; [| discriminate].
    inv_bind H. now apply get_ann_ids_cat_nonempty in H.
Qed.

(** ** Series and frames *)

Lemma bool_index_map {A : Type} (p : A -> bool) (l : list A) :
  bool_index l (map p l) = Ok (filter p l).
Proof.
  induction l as [| x l IH]; simpl; [reflexivity |].
  rewrite IH. simpl. now destruct (p x).
Qed.

Lemma bool_index_incl {A : Type} (l : list A) (mask : list bool) (r : list A) :
  bool_index l mask = Ok r -> incl r l.
Proof.
  revert mask r; induction l as [| x l IH]; intros [| b mask] r H;
    simpl in H; try discriminate.
  - inversion H. apply incl_refl.
  - inv_bind H. apply IH in E.
    destruct b; inversion H; subst.
    + intros y [-> | Hy]; [now left | right; auto].
    + intros y Hy. right. auto.
Qed.

Lemma first_cats_total (img_gt : list (Z * annotation)) :
  Forall (fun rw => cat_id (snd rw) <> []) img_gt ->
  mapM (fun rw => getitem (cat_id (snd rw)) 0) img_gt = Ok (map first_cat img_gt).
Proof.
  intro H. apply mapM_total.
  eapply Forall_impl; [| exact H].
  intros rw Hne. unfold first_cat, getitem.
  destruct (cat_id (snd rw)) eqn:E; [congruence | reflexivity].
Qed.

Lemma py_max_from_idxmax (best : Z * Q) (s : list (Z * Q)) :
  py_max_from (snd best) (map snd s) = snd (idxmax_from best s).
Proof.
  revert best; induction s as [| [i v] s IH]; intro best; simpl;
    [reflexivity |].
  rewrite <- IH. simpl. now destruct (Qlt_le_dec (snd best) v).
Qed.

Lemma idxmax_from_first (best : Z * Q) (s : list (Z * Q)) :
  let res := idxmax_from best s in
  (res = best /\ Forall (fun q => snd q <= snd best) s)
  \/ (exists pre post,
        s = pre ++ res :: post
        /\ snd best < snd res
        /\ Forall (fun q => snd q < snd res) pre
        /\ Forall (fun q => snd q <= snd res) post).
Proof.
  revert best; induction s as [| [i v] s IH]; intro best; simpl.
  - left. split; [reflexivity | constructor].
  - destruct (Qlt_le_dec (snd best) v) as [Hlt | Hle].
    + destruct (IH (i, v)) as [[Hres Hall] | (pre & post & Hs & Hb & Hpre & Hpost)].
      * right. exists [], s. rewrite Hres. simpl.
        split; [reflexivity |]. split; [exact Hlt |]. split; [constructor | exact Hall].
      * right. exists ((i, v) :: pre), post. simpl in Hb.
        split; [rewrite Hs at 1; reflexivity |].
        split; [eapply Qlt_trans; eauto |].
        split; [constructor; auto | exact Hpost].
    + destruct (IH best) as [[Hres Hall] | (pre & post & Hs & Hb & Hpre & Hpost)].
      * left. split; [exact Hres |]. constructor; auto.
      * right. exists ((i, v) :: pre), post.
        split; [rewrite Hs at 1; reflexivity |].
        split; [exact Hb |].
        split; [| exact Hpost].
        constructor; [| exact Hpre]. simpl. eapply Qle_lt_trans; eauto.
Qed.

Lemma dropna_app s1 s2 : dropna (s1 ++ s2) = dropna s1 ++ dropna s2.
Proof. unfold dropna. apply flat_map_app. Qed.

Lemma dropna_labels s : incl (map fst (dropna s)) (map fst s).
Proof.
  induction s as [| [i [q |]] s IH]; simpl.
  - apply incl_refl.
  - intros x [<- | Hx]; [now left | right; now apply IH].
  - intros x Hx. right. now apply IH.
Qed.

(** A number of the series at [pre' ++ (i, m) :: post'] among its numbers
    stands in the series itself, the numbers before it before it. *)
Lemma dropna_split s : forall pre' i m post',
  dropna s = pre' ++ (i, m) :: post' ->
  exists pre post,
    s = pre ++ (i, Fin m) :: post
    /\ dropna pre = pre' /\ dropna post = post'.
Proof.
  induction s as [| [j [q |]] s IH]; intros pre' i m post' H; simpl in H.
  - destruct pre'; discriminate.
  - destruct pre' as [| p pre'].
    + simpl in H. inversion H; subst.
      exists [], s. repeat split.
    + simpl in H. inversion H; subst.
      destruct (IH _ _ _ _ H2) as (pre & post & -> & Hpre & Hpost).
      exists ((j, Fin q) :: pre), post. simpl. rewrite Hpre.
      repeat split. exact Hpost.
  - destruct (IH _ _ _ _ H) as (pre & post & -> & Hpre & Hpost).
    exists ((j, NaN) :: pre), post. repeat split; assumption.
Qed.

Lemma dropna_Forall (P : Q -> Prop) s :
  Forall (fun q => P (snd q)) (dropna s) ->
  Forall (fun q => forall v, snd q = Fin v -> P v) s.
Proof.
  induction s as [| [j [q |]] s IH]; simpl; intro H.
  - constructor.
  - inversion H; subst. constructor; [| now apply IH].
    simpl. intros v Hv. now inversion Hv; subst.
  - constructor; [| now apply IH]. simpl. discriminate.
Qed.

(** A series without a number has the maximum [nan]. *)
Lemma series_max_nan s : dropna s = [] <-> series_max s = NaN.
Proof.
  unfold series_max. destruct (dropna s) as [| p r]; simpl.
  - split; reflexivity.
  - split; discriminate.
Qed.

(** [idxmax] is the label of the first row that carries [series_max]. *)
Lemma idxmax_series_max (s : list (Z * fval)) :
  dropna s <> [] ->
  exists i m pre post,
    idxmax s = Ok i /\ series_max s = Fin m
    /\ s = pre ++ (i, Fin m) :: post
    /\ Forall (fun q => forall v, snd q = Fin v -> v < m) pre
    /\ Forall (fun q => forall v, snd q = Fin v -> v <= m) post.
Proof.
  unfold idxmax, series_max, py_max.
  destruct (dropna s) as [| p r] eqn:Es; [congruence |]. intros _.
  cbn [map]. rewrite py_max_from_idxmax.
  assert (H : exists pre' post',
             p :: r = pre' ++ idxmax_from p r :: post'
             /\ Forall (fun q => snd q < snd (idxmax_from p r)) pre'
             /\ Forall (fun q => snd q <= snd (idxmax_from p r)) post').
  { destruct (idxmax_from_first p r)
      as [[Hres Hall] | (pre & post & Hs & Hb & Hpre & Hpost)].
    - exists [], r. rewrite Hres. repeat split; [constructor | exact Hall].
    - exists (p :: pre), post.
      split; [rewrite Hs at 1; reflexivity |].
      split; [constructor; auto | exact Hpost]. }
  destruct H as (pre' & post' & Heq & Hpre & Hpost).
  destruct (idxmax_from p r) as [i m] eqn:Ei. cbn [fst snd] in *.
  rewrite <- Es in Heq.
  destruct (dropna_split _ _ _ _ _ Heq) as (pre & post & Hs & Hp1 & Hp2).
  exists i, m, pre, post.
  split; [reflexivity |]. split; [reflexivity |]. split; [exact Hs |].
  subst pre' post'. split; now apply dropna_Forall.
Qed.

Lemma drop_spec {A : Type} (df : list (Z * A)) (label : Z) :
  In label (map fst df) ->
  exists df', drop df label = Ok df'
              /\ ~ In label (map fst df')
              /\ (forall rw, In rw df' <-> In rw df /\ fst rw <> label).
Proof.
  intro Hin. unfold drop.
  assert (E : existsb (fun rw => Z.eqb (fst rw) label) df = true).
  { apply existsb_exists. apply in_map_iff in Hin.
    destruct Hin as (rw & Hl & Hrw). exists rw. split; [exact Hrw |].
    now apply Z.eqb_eq. }
  rewrite E. eexists. split; [reflexivity |]. split.
  - intro H. apply in_map_iff in H. destruct H as (rw & Hl & Hrw).
    apply filter_In in Hrw. destruct Hrw as [_ Hne].
    apply negb_true_iff, Z.eqb_neq in Hne. contradiction.
  - intro rw. rewrite filter_In, negb_true_iff, Z.eqb_neq. tauto.
Qed.

Lemma drop_ok {A : Type} (df df' : list (Z * A)) (label : Z) :
  drop df label = Ok df' ->
  ~ In label (map fst df') /\ incl (map fst df') (map fst df).
Proof.
  unfold drop. destruct (existsb _ df); [| discriminate].
  intro H. inversion H; subst. split.
  - intro Hin. apply in_map_iff in Hin. destruct Hin as (rw & Hl & Hrw).
    apply filter_In in Hrw. destruct Hrw as [_ Hne].
    apply negb_true_iff, Z.eqb_neq in Hne. contradiction.
  - intros x Hin. apply in_map_iff in Hin. destruct Hin as (rw & Hl & Hrw).
    apply filter_In in Hrw. apply in_map_iff. exists rw. tauto.
Qed.

(** ** The per-image matcher *)

Section Matcher.

Variable iou_poly : list Q -> list Q -> Q.
Variable self : OBBAnns.

Lemma DataFrame_gt_det_labels gt_col det_col df :
  DataFrame_gt_det gt_col det_col = Ok df -> map fst df = map fst gt_col.
Proof.
  unfold DataFrame_gt_det.
  destruct (Nat.eqb (List.length det_col) (List.length gt_col)) eqn:E;
    [| discriminate].
  apply Nat.eqb_eq in E. intro H. inversion H; subst. clear H.
  rewrite map_map. cbn [fst].
  revert det_col E; induction gt_col as [| g gt_col IH];
    intros [| d det_col] E; simpl in *; try discriminate; [reflexivity |].
  f_equal. apply IH. now inversion E.
Qed.

Lemma apply_rows_labels f df s :
  apply_rows f df = Ok s -> map fst s = map fst df.
Proof.
  unfold apply_rows. revert s; induction df as [| rw df IH]; simpl; intros s H.
  - now inversion H.
  - inv_bind H. inv_bind H. inversion H; subst.
    inv_bind E. inversion E; subst. simpl. f_equal. now apply IH.
Qed.

Lemma candidate_overlaps_labels det same ovs :
  candidate_overlaps iou_poly self det same = Ok ovs ->
  map fst ovs = map fst same.
Proof.
  unfold candidate_overlaps. intro H.
  destruct (props_oriented self); inv_bind H;
    apply DataFrame_gt_det_labels in E; apply apply_rows_labels in H;
    rewrite H, E, map_map; reflexivity.
Qed.

Lemma calculate_tpfp_unfold det img_gt :
  Forall (fun rw => cat_id (snd rw) <> []) img_gt ->
  calculate_tpfp iou_poly self det img_gt =
  (let same := same_cat_gt_of det img_gt in
   if Nat.ltb 0 (List.length same) then
     overlaps <- candidate_overlaps iou_poly self det same ;;
     match series_max overlaps with
     | Fin max_overlap =>
         if Qgt_bool max_overlap reserve_thr then
           i <- idxmax overlaps ;; Ok (mkTpfp i max_overlap)
         else Ok (mkTpfp (-1) 0)
     | NaN => Ok (mkTpfp (-1) 0)
     end
   else Ok (mkTpfp (-1) 0)).
Proof.
  intro Hne. unfold calculate_tpfp.
  rewrite (first_cats_total _ Hne). cbn [bind].
  rewrite map_map.
  rewrite (bool_index_map (fun rw => Z.eqb (first_cat rw) (p_cat_id det))).
  reflexivity.
Qed.

Lemma idxmax_in s i : idxmax s = Ok i -> In i (map fst s).
Proof.
  intro H.
  assert (Hs : dropna s <> []).
  { unfold idxmax in H. destruct (dropna s); [discriminate | congruence]. }
  destruct (idxmax_series_max s Hs) as (i' & m & pre & post & Hi & _ & Heq & _).
  rewrite Hi in H. inversion H; subst i'.
  rewrite Heq, map_app. apply in_or_app. right. now left.
Qed.

Lemma calculate_tpfp_label det img_gt t :
  calculate_tpfp iou_poly self det img_gt = Ok t ->
  bbox_id t = (-1)%Z \/ In (bbox_id t) (map fst img_gt).
Proof.
  unfold calculate_tpfp. intro H.
  inv_bind H. rename x into cats. inv_bind H. rename x into same.
  apply bool_index_incl in E0.
  destruct (Nat.ltb 0 (List.length same)).
  - inv_bind H. rename x into ovs.
    destruct (series_max ovs) as [m |]; [| inversion H; now left].
    destruct (Qgt_bool m reserve_thr).
    + inv_bind H. inversion H; subst. simpl. right.
      apply idxmax_in in E2.
      rewrite (candidate_overlaps_labels _ _ _ E1) in E2.
      apply in_map_iff in E2. destruct E2 as (rw & Hl & Hrw).
      apply in_map_iff. exists rw. split; [exact Hl | now apply E0].
    + inversion H. now left.
  - inversion H. now left.
Qed.

Lemma matched_ids_cons r recs :
  matched_ids (r :: recs) =
  if negb (Z.eqb (ov_bbox_id r) (-1)) then ov_bbox_id r :: matched_ids recs
  else matched_ids recs.
Proof. reflexivity. Qed.

(** What one image's loop appends: one record per detection, in the
    order of processing; the matched ids are pairwise distinct labels of
    the ground truth the loop started from. *)
Lemma match_image_inv dets : forall img_gt acc out,
  match_image iou_poly self dets img_gt acc = Ok out ->
  exists recs,
    out = acc ++ recs
    /\ map ov_score recs = map score dets
    /\ map ov_cat_id recs = map p_cat_id dets
    /\ NoDup (matched_ids recs)
    /\ incl (matched_ids recs) (map fst img_gt).
Proof.
  induction dets as [| det rest IH]; intros img_gt acc out H; simpl in H.
  - inversion H; subst. exists []. rewrite app_nil_r.
    repeat split; try reflexivity; [constructor | intros x []].
  - inv_bind H. rename x into t. cbv zeta in H.
    pose proof (calculate_tpfp_label _ _ _ E) as Hlab.
    destruct (negb (Z.eqb (bbox_id t) (-1))) eqn:Ev.
    + inv_bind H. rename x into gt'.
      destruct (drop_ok _ _ _ E0) as [Hnot Hincl].
      destruct (IH _ _ _ H) as (recs & Hout & Hs & Hc & Hnd & Hin).
      exists (mkOv (bbox_id t) (overlap t) (p_cat_id det) (score det) :: recs).
      rewrite <- app_assoc in Hout.
      split; [exact Hout |].
      split; [simpl; now f_equal |].
      split; [simpl; now f_equal |].
      rewrite matched_ids_cons. cbn [ov_bbox_id]. rewrite Ev.
      split.
      * constructor; [| exact Hnd]. intro Hx. apply Hnot. now apply Hin.
      * intros x [<- | Hx].
        -- destruct Hlab as [Hm | Hl]; [| exact Hl].
           apply negb_true_iff, Z.eqb_neq in Ev. contradiction.
        -- apply Hincl. now apply Hin.
    + destruct (IH _ _ _ H) as (recs & Hout & Hs & Hc & Hnd & Hin).
      exists (mkOv (bbox_id t) (overlap t) (p_cat_id det) (score det) :: recs).
      rewrite <- app_assoc in Hout.
      split; [exact Hout |].
      split; [simpl; now f_equal |].
      split; [simpl; now f_equal |].
      rewrite matched_ids_cons. cbn [ov_bbox_id]. rewrite Ev.
      split; assumption.
Qed.

End Matcher.

(** ** The aligned branch returns *)

Lemma calculate_aligned_overlap_total
  (axmin aymin axmax aymax bxmin bymin bxmax bymax : Q) :
  axmin < axmax -> aymin < aymax ->
  exists v,
    calculate_aligned_overlap
      (mkRow [axmin; aymin; axmax; aymax] [bxmin; bymin; bxmax; bymax])
    = Ok (Fin v).
Proof.
  intros Hx Hy. rewrite calculate_aligned_overlap_spec.
  unfold overlap_aligned_spec, dx_int_spec, dx_ov_spec.
  destruct (_ && _); [| eauto].
  destruct (Qeq_bool _ 0) eqn:E; [| eauto].
  apply Qeq_bool_iff in E. exfalso.
  pose proof (Q.le_max_l axmax bxmax). pose proof (Q.le_min_l axmin bxmin).
  pose proof (Q.le_max_l aymax bymax). pose proof (Q.le_min_l aymin bymin).
  assert (Hpos : 0 < (Qmax axmax bxmax - Qmin axmin bxmin)
                     * (Qmax aymax bymax - Qmin aymin bymin)).
  { apply Qmult_lt_0_compat; lra. }
  rewrite E in Hpos. exact (Qlt_irrefl _ Hpos).
Qed.

Lemma combine_repeat {A B : Type} (l : list A) (x : B) :
  combine l (repeat x (List.length l)) = map (fun a => (a, x)) l.
Proof. induction l as [| a l IH]; simpl; [reflexivity | now rewrite IH]. Qed.

Lemma candidate_overlaps_aligned iou_poly self detection same_cat_gt :
  props_oriented self = false ->
  candidate_overlaps iou_poly self detection same_cat_gt
  = apply_rows calculate_aligned_overlap
      (map (fun rw => (fst rw, mkRow (a_bbox (snd rw)) (bbox detection)))
           same_cat_gt).
Proof.
  intro Ho. unfold candidate_overlaps, DataFrame_gt_det. rewrite Ho.
  rewrite repeat_length, length_map, Nat.eqb_refl. cbn [bind].
  rewrite <- (length_map (fun rw : Z * annotation => (fst rw, a_bbox (snd rw)))
                same_cat_gt) at 1.
  rewrite combine_repeat, !map_map. reflexivity.
Qed.

Lemma apply_rows_total f df :
  Forall (fun rw => exists v, f (snd rw) = Ok v) df ->
  exists s, apply_rows f df = Ok s.
Proof.
  unfold apply_rows. induction 1 as [| rw df [v Hv] _ [s IH]]; simpl.
  - eauto.
  - rewrite Hv. cbn [bind]. rewrite IH. cbn [bind]. eauto.
Qed.

(** On an axis-aligned proposal set, the loop over an image's detections
    returns as soon as the overlap of every detection with every ground-truth
    row is defined. *)
Lemma match_image_aligned_total iou_poly self dets :
  props_oriented self = false ->
  forall img_gt acc,
    Forall (fun rw => cat_id (snd rw) <> []) img_gt ->
    (forall rw d, In rw img_gt -> In d dets ->
                  exists v, calculate_aligned_overlap
                              (mkRow (a_bbox (snd rw)) (bbox d)) = Ok v) ->
    exists out, match_image iou_poly self dets img_gt acc = Ok out.
Proof.
  intro Ho. induction dets as [| det rest IH]; intros img_gt acc Hcat Hov.
  - simpl. eauto.
  - assert (Ht : exists t, calculate_tpfp iou_poly self det img_gt = Ok t).
    { rewrite (calculate_tpfp_unfold _ _ _ _ Hcat). cbv zeta.
      destruct (Nat.ltb 0 _) eqn:Hlen; [| eauto].
      rewrite (candidate_overlaps_aligned _ _ _ _ Ho).
      destruct (apply_rows_total calculate_aligned_overlap
                  (map (fun rw => (fst rw, mkRow (a_bbox (snd rw)) (bbox det)))
                       (same_cat_gt_of det img_gt))) as [ovs Hovs].
      { apply Forall_forall. intros rw Hin. apply in_map_iff in Hin.
        destruct Hin as (rw0 & <- & Hin0). cbn [snd].
        apply filter_In in Hin0. apply Hov; [tauto | now left]. }
      rewrite Hovs. cbn [bind].
      destruct (series_max ovs) as [m |] eqn:Hm; [| eauto].
      destruct (Qgt_bool m reserve_thr); [| eauto].
      assert (Hne : dropna ovs <> []).
      { intro Hnil. apply series_max_nan in Hnil. congruence. }
      destruct (idxmax_series_max ovs Hne) as (i & _ & _ & _ & Hi & _).
      rewrite Hi. cbn [bind]. eauto. }
    destruct Ht as [t Ht]. cbn [match_image]. rewrite Ht. cbn [bind].
    destruct (negb (Z.eqb (bbox_id t) (-1))) eqn:Ev.
    + destruct (calculate_tpfp_label _ _ _ _ _ Ht) as [Hm | Hin].
      { apply negb_true_iff, Z.eqb_neq in Ev. contradiction. }
      destruct (drop_spec img_gt (bbox_id t) Hin) as (gt' & Hdrop & _ & Hiff).
      rewrite Hdrop. cbn [bind]. apply IH.
      * apply Forall_forall. intros rw Hrw. apply Hiff in Hrw.
        rewrite Forall_forall in Hcat. now apply Hcat.
      * intros rw d Hrw Hd. apply Hov; [now apply Hiff in Hrw | now right].
    + apply IH; [exact Hcat |].
      intros rw d Hrw Hd. apply Hov; [exact Hrw | now right].
Qed.

(** ** Sorting *)

Section SortFacts.
Context {A : Type} (le : A -> A -> bool) (R : A -> A -> Prop).
Hypothesis le_sound : forall x y, le x y = true -> R x y.
Hypothesis le_total : forall x y, le x y = false -> R y x.

Lemma insert_by_perm (x : A) (l : list A) :
  Permutation (x :: l) (insert_by le x l).
Proof.
  induction l as [| y l IH]; simpl; [reflexivity |].
  destruct (le x y); [reflexivity |].
  rewrite perm_swap. now constructor.
Qed.

Lemma sort_by_perm (l : list A) : Permutation l (sort_by le l).
Proof.
  induction l as [| x l IH]; simpl; [constructor |].
  rewrite <- insert_by_perm. now constructor.
Qed.

Lemma insert_by_sorted (x : A) (l : list A) :
  Sorted R l -> Sorted R (insert_by le x l).
Proof.
  induction 1 as [| y l Hs IH Hhd]; simpl.
  - repeat constructor.
  - destruct (le x y) eqn:E.
    + constructor; [constructor; assumption |].
      constructor. now apply le_sound.
    + constructor; [exact IH |].
      destruct l as [| z l]; simpl.
      * constructor. now apply le_total.
      * destruct (le x z) eqn:E'; constructor.
        -- now apply le_total.
        -- now inversion Hhd.
Qed.

Lemma sort_by_sorted (l : list A) : Sorted R (sort_by le l).
Proof.
  induction l as [| x l IH]; simpl; [constructor |].
  now apply insert_by_sorted.
Qed.
End SortFacts.

Lemma sort_values_score_sorted (ps : list proposal) :
  StronglySorted Qle (map score (sort_values_score ps)).
Proof.
  assert (H : Sorted (fun p q => score p <= score q) (sort_values_score ps)).
  { unfold sort_values_score. apply sort_by_sorted.
    - intros x y E. now apply Qle_bool_iff.
    - intros x y E. apply Qlt_le_weak, Qnot_le_lt. intro Hle.
      apply Qle_bool_iff in Hle. congruence. }
  apply Sorted_StronglySorted; [intros x y z; apply Qle_trans |].
  induction H as [| p l Hs IH Hhd]; simpl; constructor; [exact IH |].
  destruct Hhd; simpl; constructor; assumption.
Qed.

Lemma sort_values_score_perm (ps : list proposal) :
  Permutation ps (sort_values_score ps).
Proof. apply sort_by_perm. Qed.

Lemma count_occ_filter (p : Z -> bool) (l : list Z) (g : Z) :
  p g = true ->
  count_occ Z.eq_dec (filter p l) g = count_occ Z.eq_dec l g.
Proof.
  intro Hp. induction l as [| x l IH]; simpl; [reflexivity |].
  destruct (Z.eq_dec x g) as [-> | Hne].
  - rewrite Hp. simpl. destruct (Z.eq_dec g g); [now f_equal | congruence].
  - destruct (p x); simpl; [| exact IH].
    destruct (Z.eq_dec x g); [congruence | exact IH].
Qed.

Lemma StronglySorted_app {A : Type} (R : A -> A -> Prop) l1 l2 :
  StronglySorted R l1 -> StronglySorted R l2 ->
  (forall x y, In x l1 -> In y l2 -> R x y) ->
  StronglySorted R (l1 ++ l2).
Proof.
  induction 1 as [| a l1 Hs IH Ha]; intros H2 Hc; simpl; [exact H2 |].
  constructor.
  - apply IH; [exact H2 |]. intros x y Hx Hy. apply Hc; [now right | exact Hy].
  - apply Forall_app. split; [exact Ha |].
    apply Forall_forall. intros y Hy. apply Hc; [now left | exact Hy].
Qed.

Lemma StronglySorted_rev {A : Type} (R : A -> A -> Prop) l :
  StronglySorted R l -> StronglySorted (fun x y => R y x) (rev l).
Proof.
  induction 1 as [| a l Hs IH Ha]; simpl; [constructor |].
  apply StronglySorted_app; [exact IH | repeat constructor |].
  intros x y Hx [<- | []]. apply in_rev in Hx.
  rewrite Forall_forall in Ha. now apply Ha.
Qed.

(** The order [sort_by_score_desc] leaves the rows in. *)
Lemma sort_by_score_desc_order rows :
  StronglySorted (fun r1 r2 => ov_score r2 <= ov_score r1)
    (sort_by_score_desc rows).
Proof.
  unfold sort_by_score_desc.
  apply (StronglySorted_rev (fun r1 r2 => ov_score r1 <= ov_score r2)).
  apply Sorted_StronglySorted.
  - intros x y z. apply Qle_trans.
  - apply sort_by_sorted.
    + intros x y E. now apply Qle_bool_iff.
    + intros x y E. apply Qlt_le_weak, Qnot_le_lt. intro Hle.
      apply Qle_bool_iff in Hle. congruence.
Qed.

(** ** The claims on the matcher *)

(** C4. The detections of an image are matched in ascending order of
    score: the records the image's loop appends are a rearrangement of the
    image's detections whose scores never decrease.  So a detection of lower
    confidence claims ground truth first: with two identical detections of one
    annotation, the one of score 0.5 is matched to it and the one of score 0.9
    is left unmatched. *)
Theorem match_image_ascending_score :
  (forall iou_poly self img_props img_gt acc out,
      match_image iou_poly self (sort_values_score img_props) img_gt acc = Ok out ->
      exists recs,
        out = acc ++ recs
        /\ Permutation (map ov_score recs) (map score img_props)
        /\ StronglySorted Qle (map ov_score recs))
  /\ (forall iou_poly,
         exists ov,
           match_images iou_poly Sample.aligned_store Sample.aligned_props
             [0%nat] []
           = Ok [mkOv 1 ov 1 (5 # 10); mkOv (-1) 0 1 (9 # 10)]
           /\ ov == 1).
Proof.
  split.
  - intros iou_poly self img_props img_gt acc out H.
    destruct (match_image_inv _ _ _ _ _ _ H) as (recs & Hout & Hs & _).
    exists recs. split; [exact Hout |]. rewrite Hs. split.
    + symmetry. apply Permutation_map, sort_values_score_perm.
    + apply sort_values_score_sorted.
  - intro iou_poly. eexists. split; [vm_compute; reflexivity | reflexivity].
Qed.

Lemma match_image_ascending_score_witness :
  exists recs,
    [mkOv 1 (100 # 100) 1 (5 # 10); mkOv (-1) 0 1 (9 # 10)] = [] ++ recs
    /\ Permutation (map ov_score recs) (map score Sample.aligned_props)
    /\ StronglySorted Qle (map ov_score recs).
Proof.
  apply (proj1 match_image_ascending_score Sample.iou_one Sample.aligned_store
           Sample.aligned_props
           [(1%Z, Sample.note_a); (2%Z, Sample.note_b)] []).
  vm_compute. reflexivity.
Defined.

(** C6. In the records of one image no ground-truth id is matched twice: every
    id other than the sentinel -1 is the [bbox_id] of at most one record, and
    the matched ids are ids of the image's ground truth. *)
Theorem match_image_unique_ground_truth iou_poly self img_props img_gt acc out :
  match_image iou_poly self img_props img_gt acc = Ok out ->
  exists recs,
    out = acc ++ recs
    /\ List.length recs = List.length img_props
    /\ NoDup (matched_ids recs)
    /\ incl (matched_ids recs) (map fst img_gt)
    /\ forall g, g <> (-1)%Z ->
                 (count_occ Z.eq_dec (map ov_bbox_id recs) g <= 1)%nat.
Proof.
  intro H.
  destruct (match_image_inv _ _ _ _ _ _ H) as (recs & Hout & Hs & _ & Hnd & Hin).
  exists recs. split; [exact Hout |]. split.
  - rewrite <- (length_map ov_score recs), Hs. apply length_map.
  - split; [exact Hnd |]. split; [exact Hin |].
    intros g Hg.
    rewrite <- (count_occ_filter (fun v => negb (Z.eqb v (-1)))).
    + apply (proj1 (NoDup_count_occ Z.eq_dec _) Hnd).
    + apply negb_true_iff. now apply Z.eqb_neq.
Qed.

Lemma match_image_unique_ground_truth_witness :
  exists recs,
    [mkOv 1 (100 # 100) 1 (5 # 10); mkOv (-1) 0 1 (9 # 10)] = [] ++ recs
    /\ List.length recs = 2%nat
    /\ NoDup (matched_ids recs)
    /\ incl (matched_ids recs) [1%Z; 2%Z]
    /\ forall g, g <> (-1)%Z ->
                 (count_occ Z.eq_dec (map ov_bbox_id recs) g <= 1)%nat.
Proof.
  apply (match_image_unique_ground_truth Sample.iou_one Sample.aligned_store
           (sort_values_score Sample.aligned_props)
           [(1%Z, Sample.note_a); (2%Z, Sample.note_b)] []).
  vm_compute. reflexivity.
Defined.

(** C5. For a detection and the ground truth [img_gt] of its image (every
    row with a category, no row labelled with the sentinel -1):
    without a candidate of the detection's category the result is
    (-1, 0); with candidates whose overlaps [ovs] were computed, [m] being
    their maximum: if [m <= 0.2] the result is (-1, 0) (and so it is when no
    overlap is a number); if [m > 0.2] the result is (i, m) where i labels
    the first candidate, in candidate order, whose overlap is [m], and the
    candidate is removed from the pool: the loop appends the record (i, m)
    and goes on with the ground truth from which every row labelled i has
    been dropped, so that the next detection is matched against that
    remainder and no later record of the image carries i. *)
Theorem calculate_tpfp_reservation iou_poly self detection img_gt :
  Forall (fun rw => cat_id (snd rw) <> []) img_gt ->
  ~ In (-1)%Z (map fst img_gt) ->
  let same_cat_gt := same_cat_gt_of detection img_gt in
  (same_cat_gt = [] ->
   calculate_tpfp iou_poly self detection img_gt = Ok (mkTpfp (-1) 0))
  /\ forall ovs,
      same_cat_gt <> [] ->
      candidate_overlaps iou_poly self detection same_cat_gt = Ok ovs ->
      map fst ovs = map fst same_cat_gt
      /\ (series_max ovs = NaN ->
          calculate_tpfp iou_poly self detection img_gt = Ok (mkTpfp (-1) 0))
      /\ forall m,
          series_max ovs = Fin m ->
          Forall (fun q => forall v, snd q = Fin v -> v <= m) ovs
          /\ (m <= reserve_thr ->
              calculate_tpfp iou_poly self detection img_gt
              = Ok (mkTpfp (-1) 0))
          /\ (reserve_thr < m ->
              exists i pre post,
                ovs = pre ++ (i, Fin m) :: post
                /\ Forall (fun q => forall v, snd q = Fin v -> v < m) pre
                /\ calculate_tpfp iou_poly self detection img_gt
                   = Ok (mkTpfp i m)
                /\ exists img_gt',
                    drop img_gt i = Ok img_gt'
                    /\ ~ In i (map fst img_gt')
                    /\ (forall rw, In rw img_gt' <-> In rw img_gt /\ fst rw <> i)
                    /\ (forall acc,
                          match_image iou_poly self [detection] img_gt acc
                          = Ok (acc ++ [mkOv i m (p_cat_id detection)
                                             (score detection)]))
                    /\ (forall d2 t2 acc,
                          calculate_tpfp iou_poly self d2 img_gt' = Ok t2 ->
                          match_image iou_poly self [detection; d2] img_gt acc
                          = Ok (acc ++ [mkOv i m (p_cat_id detection)
                                             (score detection);
                                        mkOv (bbox_id t2) (overlap t2)
                                             (p_cat_id d2) (score d2)]))
                    /\ (forall rest acc,
                          match_image iou_poly self (detection :: rest) img_gt acc
                          = match_image iou_poly self rest img_gt'
                              (acc ++ [mkOv i m (p_cat_id detection)
                                            (score detection)]))
                    /\ (forall rest acc out,
                          match_image iou_poly self (detection :: rest) img_gt acc
                          = Ok out ->
                          exists recs,
                            out = acc ++ mkOv i m (p_cat_id detection)
                                              (score detection) :: recs
                            /\ List.length recs = List.length rest
                            /\ ~ In i (map ov_bbox_id recs)
                            /\ incl (matched_ids recs) (map fst img_gt'))).
Proof.
  intros Hcat Hsent same_cat_gt.
  pose proof (calculate_tpfp_unfold iou_poly self detection img_gt Hcat) as Hun.
  cbv zeta in Hun. fold same_cat_gt in Hun.
  split.
  - intro Hnil. rewrite Hun, Hnil. reflexivity.
  - intros ovs Hne Hovs.
    pose proof (candidate_overlaps_labels _ _ _ _ _ Hovs) as Hlab.
    split; [exact Hlab |].
    assert (Hlen : Nat.ltb 0 (List.length same_cat_gt) = true).
    { apply Nat.ltb_lt. destruct same_cat_gt; [congruence | simpl; lia]. }
    rewrite Hun, Hlen, Hovs. cbn [bind].
    split; [intros ->; reflexivity |].
    intros m Hm.
    assert (Hovne : dropna ovs <> []).
    { intro Hnil. apply series_max_nan in Hnil. congruence. }
    destruct (idxmax_series_max ovs Hovne)
      as (i & m' & pre & post & Hi & Hm' & Heq & Hpre & Hpost).
    rewrite Hm in Hm'. inversion Hm'; subst m'. clear Hm'.
    rewrite Hm. split.
    { rewrite Heq. apply Forall_app. split.
      - eapply Forall_impl; [| exact Hpre]. cbv beta.
        intros q Hq v Hv. apply Qlt_le_weak. now apply Hq.
      - constructor; [| exact Hpost]. cbn [snd]. intros v Hv.
        inversion Hv; subst. apply Qle_refl. }
    unfold Qgt_bool. split.
    + intro Hle. apply Qle_bool_iff in Hle. now rewrite Hle.
    + intro Hlt.
      assert (Hb : Qle_bool m reserve_thr = false).
      { destruct (Qle_bool m reserve_thr) eqn:E; [| reflexivity].
        apply Qle_bool_iff in E. exfalso. exact (Qlt_not_le _ _ Hlt E). }
      rewrite Hb. cbn [negb]. rewrite Hi. cbn [bind].
      exists i, pre, post.
      split; [exact Heq |]. split; [exact Hpre |]. split; [reflexivity |].
      assert (Hin : In i (map fst img_gt)).
      { assert (Hio : In i (map fst ovs)).
        { rewrite Heq, map_app. apply in_or_app. right. now left. }
        rewrite Hlab in Hio. apply in_map_iff in Hio.
        destruct Hio as (rw & Hl & Hrw). apply in_map_iff. exists rw.
        split; [exact Hl |]. unfold same_cat_gt, same_cat_gt_of in Hrw.
        now apply filter_In in Hrw. }
      destruct (drop_spec img_gt i Hin) as (gt' & Hdrop & Hnot & Hiff).
      exists gt'. split; [exact Hdrop |]. split; [exact Hnot |].
      split; [exact Hiff |].
      assert (Hi1 : Z.eqb i (-1) = false).
      { apply Z.eqb_neq. intro Heq1. apply Hsent. now rewrite <- Heq1. }
      assert (Hstep : forall rest acc,
                 match_image iou_poly self (detection :: rest) img_gt acc
                 = match_image iou_poly self rest gt'
                     (acc ++ [mkOv i m (p_cat_id detection) (score detection)])).
      { intros rest acc. cbn [match_image].
        rewrite Hun, Hlen, Hovs. cbn [bind]. rewrite Hm.
        unfold Qgt_bool. rewrite Hb. cbn [negb]. rewrite Hi.
        cbn [bind bbox_id overlap]. rewrite Hi1. cbn [negb].
        rewrite Hdrop. reflexivity. }
      split; [| split; [| split]].
      * intro acc. rewrite Hstep. reflexivity.
      * intros d2 t2 acc Ht2. rewrite Hstep. cbn [match_image].
        rewrite Ht2. cbn [bind].
        destruct (negb (Z.eqb (bbox_id t2) (-1))) eqn:Ev.
        -- destruct (calculate_tpfp_label _ _ _ _ _ Ht2) as [Hm1 | Hin2].
           { apply negb_true_iff, Z.eqb_neq in Ev. contradiction. }
           destruct (drop_spec gt' (bbox_id t2) Hin2) as (gt'' & -> & _).
           cbn [bind]. now rewrite <- app_assoc.
        -- now rewrite <- app_assoc.
      * exact Hstep.
      * intros rest acc out Hout. rewrite Hstep in Hout.
        destruct (match_image_inv _ _ _ _ _ _ Hout)
          as (recs & Ho & Hs & _ & _ & Hincl).
        exists recs. rewrite <- app_assoc in Ho.
        split; [exact Ho |]. split.
        { rewrite <- (length_map ov_score recs), Hs. apply length_map. }
        split; [| exact Hincl].
        intro Hx. apply Hnot, Hincl. unfold matched_ids.
        apply filter_In. split; [exact Hx |]. now rewrite Hi1.
Qed.

Lemma calculate_tpfp_reservation_witness :
  exists i m,
    calculate_tpfp Sample.iou_one Sample.aligned_store
      (mkProp [0; 0; 10; 10] 1 0 (5 # 10))
      [(1%Z, Sample.note_a); (2%Z, Sample.note_b)]
    = Ok (mkTpfp i m)
    /\ reserve_thr < m
    /\ match_image Sample.iou_one Sample.aligned_store
         [mkProp [0; 0; 10; 10] 1 0 (5 # 10)]
         [(1%Z, Sample.note_a); (2%Z, Sample.note_b)] []
       = Ok ([] ++ [mkOv i m 1 (5 # 10)]).
Proof.
  destruct (calculate_tpfp_reservation Sample.iou_one Sample.aligned_store
              (mkProp [0; 0; 10; 10] 1 0 (5 # 10))
              [(1%Z, Sample.note_a); (2%Z, Sample.note_b)]) as [_ H].
  - repeat constructor; discriminate.
  - simpl. intros [H | [H | []]]; discriminate.
  - destruct (H [(1%Z, Fin (100 # 100)); (2%Z, Fin 0)]) as (_ & _ & Hm).
    + discriminate.
    + reflexivity.
    + destruct (Hm (100 # 100) eq_refl) as (_ & _ & Hhigh).
      destruct Hhigh as (i & pre & post & _ & _ & Hres & gt' & _ & _ & _ & H1 & _);
        [reflexivity |].
      exists i, (100 # 100). split; [exact Hres |].
      split; [reflexivity | exact (H1 [])].
Defined.

(** The oriented branch of [calculate_tpfp] builds its frame from a
    one-element ['det'] column: with two or more candidates the frame is
    refused. *)
Lemma candidate_overlaps_oriented_many iou_poly self detection same_cat_gt :
  props_oriented self = true ->
  (2 <= List.length same_cat_gt)%nat ->
  candidate_overlaps iou_poly self detection same_cat_gt = Raise ValueError.
Proof.
  intros Ho Hn. unfold candidate_overlaps, DataFrame_gt_det. rewrite Ho.
  rewrite length_map. cbn [List.length].
  destruct (List.length same_cat_gt) as [| [| n]]; try lia. reflexivity.
Qed.

Lemma calculate_tpfp_oriented_many iou_poly self detection img_gt :
  Forall (fun rw => cat_id (snd rw) <> []) img_gt ->
  props_oriented self = true ->
  (2 <= List.length (same_cat_gt_of detection img_gt))%nat ->
  calculate_tpfp iou_poly self detection img_gt = Raise ValueError.
Proof.
  intros Hcat Ho Hn. rewrite (calculate_tpfp_unfold _ _ _ _ Hcat). cbv zeta.
  rewrite (candidate_overlaps_oriented_many _ _ _ _ Ho Hn).
  destruct (Nat.ltb_spec 0 (List.length (same_cat_gt_of detection img_gt)));
    [reflexivity | lia].
Qed.

(** With exactly one candidate the oriented branch pairs the candidate's
    oriented box with the detection box times 1. *)
Lemma candidate_overlaps_oriented_one iou_poly self detection rw :
  props_oriented self = true ->
  candidate_overlaps iou_poly self detection [rw]
  = Ok [(fst rw, Fin (iou_poly (o_bbox (snd rw))
                        (map (fun x => x * 1) (bbox detection))))].
Proof. intros Ho. unfold candidate_overlaps. rewrite Ho. reflexivity. Qed.

(** C7 at an oriented detection with two ground-truth candidates of its
    category: [calculate_tpfp] raises [ValueError], whatever [iou_poly]
    computes, and so does [calculate_metrics]; the aligned branch, given the
    same image, returns. *)
Theorem oriented_two_candidates_raises :
  forall iou_poly series_eq_seq,
    List.length (same_cat_gt_of Sample.oriented_det
                   [(1%Z, Sample.note_a); (2%Z, Sample.note_b)]) = 2%nat
    /\ calculate_tpfp iou_poly Sample.oriented_store Sample.oriented_det
         [(1%Z, Sample.note_a); (2%Z, Sample.note_b)]
       = Raise ValueError
    /\ calculate_metrics iou_poly series_eq_seq Sample.oriented_store
         [1 # 2] true false
       = Raise ValueError
    /\ is_ok (calculate_metrics iou_poly series_eq_seq Sample.aligned_store
                [1 # 2] true false) = true.
Proof.
  intros iou_poly series_eq_seq.
  split; [reflexivity |]. split; [reflexivity |]. split; reflexivity.
Qed.

(** ** The evaluator *)

Lemma cumsum_from_length (acc : Z) (l : list bool) :
  List.length (cumsum_from acc l) = List.length l.
Proof.
  revert acc; induction l as [| b l IH]; intro acc; simpl;
    [reflexivity | now rewrite IH].
Qed.

Lemma tp_sum_of_length sorted thr :
  List.length (tp_sum_of sorted thr) = List.length sorted.
Proof.
  unfold tp_sum_of, cumsum. now rewrite cumsum_from_length, length_map.
Qed.

Lemma fp_sum_of_length sorted thr :
  List.length (fp_sum_of sorted thr) = List.length sorted.
Proof.
  unfold fp_sum_of, cumsum. now rewrite cumsum_from_length, length_map.
Qed.

Lemma recall_of_length n tp_sum :
  List.length (recall_of n tp_sum) = List.length tp_sum.
Proof. unfold recall_of. destruct (Nat.ltb 0 n); apply length_map. Qed.

Lemma precision_of_length tp_sum fp_sum :
  List.length tp_sum = List.length fp_sum ->
  List.length (precision_of tp_sum fp_sum) = List.length tp_sum.
Proof.
  intro H. unfold precision_of. rewrite length_map, length_combine, <- H.
  apply Nat.min_id.
Qed.

Lemma average_precision_area recalls precisions :
  List.length recalls = List.length precisions ->
  _average_precision recalls precisions "area"
  = Ok (area_sum ([0] ++ recalls ++ [1]) (envelope ([0] ++ precisions ++ [0]))).
Proof.
  intro H. unfold _average_precision. rewrite H, Nat.eqb_refl. reflexivity.
Qed.

(** One pass of the loop, on a two-dimensional array. *)
Lemma evaluate_loop_cons series_eq_seq self t rest bc rows metrics :
  evaluate_loop series_eq_seq self (t :: rest) bc (Array2D rows) metrics =
  (n <- nr_gt_of series_eq_seq self bc ;;
   evaluate_loop series_eq_seq self rest bc
     (Array2D (sort_by_score_desc rows))
     (num_set metrics t (entry_of n (sort_by_score_desc rows) t))).
Proof.
  cbn [evaluate_loop columns bind].
  destruct (nr_gt_of series_eq_seq self bc) as [n | e]; [| reflexivity].
  cbn [bind]. rewrite average_precision_area.
  - reflexivity.
  - rewrite recall_of_length, precision_of_length;
      rewrite tp_sum_of_length; [reflexivity |].
    now rewrite fp_sum_of_length.
Qed.

Lemma num_set_keys {V : Type} (d : list (Q * V)) (k : Q) (v : V) :
  incl (map fst (num_set d k v)) (map fst d ++ [k]).
Proof.
  unfold num_set. induction d as [| [k' v'] d IH]; simpl.
  - apply incl_refl.
  - destruct (Qeq_bool k' k); simpl.
    + intros x [<- | Hx]; [now left |]. right. apply in_or_app. now left.
    + intros x [<- | Hx]; [now left |]. right. now apply IH.
Qed.

Lemma num_set_Forall {V : Type} (P : V -> Prop) (d : list (Q * V)) (k : Q) (v : V) :
  Forall (fun te => P (snd te)) d -> P v ->
  Forall (fun te => P (snd te)) (num_set d k v).
Proof.
  unfold num_set. intros Hd Hv. induction Hd as [| [k' v'] d Hx Hd IH]; simpl.
  - repeat constructor. exact Hv.
  - destruct (Qeq_bool k' k); constructor; auto.
Qed.

Lemma sort_by_score_desc_perm rows : Permutation (sort_by_score_desc rows) rows.
Proof.
  unfold sort_by_score_desc. rewrite <- Permutation_rev.
  symmetry. apply sort_by_perm.
Qed.

(** Keys of the result: keys already there, or thresholds of the loop. *)
Lemma evaluate_loop_keys series_eq_seq self thrs : forall bc ov metrics m,
  evaluate_loop series_eq_seq self thrs bc ov metrics = Ok m ->
  incl (map fst m) (map fst metrics ++ thrs).
Proof.
  induction thrs as [| t rest IH]; intros bc ov metrics m H.
  - simpl in H. inversion H; subst. rewrite app_nil_r. apply incl_refl.
  - destruct ov as [| rows]; [discriminate |].
    rewrite evaluate_loop_cons in H. inv_bind H.
    apply IH in H. intros k Hk. apply H in Hk.
    apply in_app_or in Hk. destruct Hk as [Hk | Hk].
    + apply num_set_keys in Hk. apply in_app_or in Hk.
      apply in_or_app. destruct Hk as [Hk | [<- | []]]; [now left |].
      right. now left.
    + apply in_or_app. right. now right.
Qed.

(** Every entry of the result satisfies what the initial entries and the
    entries of all passes satisfy. *)
Lemma evaluate_loop_entries series_eq_seq self (P : eval_dict -> Prop) thrs :
  forall bc rows metrics m,
    (forall n sorted t,
        nr_gt_of series_eq_seq self bc = Ok n ->
        Permutation sorted rows -> In t thrs -> P (entry_of n sorted t)) ->
    Forall (fun te => P (snd te)) metrics ->
    evaluate_loop series_eq_seq self thrs bc (Array2D rows) metrics = Ok m ->
    Forall (fun te => P (snd te)) m.
Proof.
  induction thrs as [| t rest IH]; intros bc rows metrics m HP Hm H.
  - simpl in H. now inversion H; subst.
  - rewrite evaluate_loop_cons in H. inv_bind H. rename x into n.
    eapply IH; [| | exact H].
    + intros n' sorted t' Hn Hperm Hin. apply HP; [exact Hn | | now right].
      rewrite Hperm. apply sort_by_score_desc_perm.
    + apply num_set_Forall; [exact Hm |].
      apply HP; [exact E | apply sort_by_score_desc_perm | now left].
Qed.

(** The loop returns as soon as the ground-truth count can be taken. *)
Lemma evaluate_loop_total series_eq_seq self bc n thrs : forall rows metrics,
  nr_gt_of series_eq_seq self bc = Ok n ->
  exists m, evaluate_loop series_eq_seq self thrs bc (Array2D rows) metrics = Ok m.
Proof.
  induction thrs as [| t rest IH]; intros rows metrics Hn.
  - simpl. eauto.
  - rewrite evaluate_loop_cons, Hn. cbn [bind]. now apply IH.
Qed.

Lemma num_set_fresh {V : Type} (d : list (Q * V)) k v :
  Forall (fun te => ~ fst te == k) d -> num_set d k v = d ++ [(k, v)].
Proof.
  unfold num_set. induction 1 as [| [k' v'] d Hk _ IH]; simpl; [reflexivity |].
  destruct (Qeq_bool k' k) eqn:E.
  - apply Qeq_bool_iff in E. contradiction.
  - now rewrite IH.
Qed.

Lemma evaluate_loop_keys_distinct series_eq_seq self thrs :
  forall bc rows metrics m,
    distinct_thrs thrs ->
    Forall (fun te => Forall (fun t => ~ fst te == t) thrs) metrics ->
    evaluate_loop series_eq_seq self thrs bc (Array2D rows) metrics = Ok m ->
    map fst m = map fst metrics ++ thrs.
Proof.
  induction thrs as [| t rest IH]; intros bc rows metrics m Hd Hm H.
  - simpl in H. inversion H. now rewrite app_nil_r.
  - rewrite evaluate_loop_cons in H. inv_bind H.
    inversion Hd as [| ? ? Ht Hd']; subst.
    rewrite num_set_fresh in H.
    + apply IH in H; [| exact Hd' |].
      * rewrite H, map_app. cbn [map fst]. now rewrite <- app_assoc.
      * apply Forall_app. split.
        -- eapply Forall_impl; [| exact Hm]. intros te Hte.
           now inversion Hte.
        -- repeat constructor. cbn [fst]. exact Ht.
    + eapply Forall_impl; [| exact Hm]. intros te Hte. now inversion Hte.
Qed.

(** *** The entries of the report *)

Lemma Qle_bool_ext_l x x' y : x == x' -> Qle_bool x y = Qle_bool x' y.
Proof.
  intro E. destruct (Qle_bool x y) eqn:E1, (Qle_bool x' y) eqn:E2;
    try reflexivity; exfalso.
  - apply Qle_bool_iff in E1. rewrite E in E1. apply Qle_bool_iff in E1.
    congruence.
  - apply Qle_bool_iff in E2. rewrite <- E in E2. apply Qle_bool_iff in E2.
    congruence.
Qed.

(** Thresholds equal as numbers give the same entry. *)
Lemma entry_of_ext n sorted t t' :
  t == t' -> entry_of n sorted t = entry_of n sorted t'.
Proof.
  intro E.
  assert (Htp : tp_sum_of sorted t = tp_sum_of sorted t').
  { unfold tp_sum_of, Qge_bool. f_equal. apply map_ext.
    intro r. now apply Qle_bool_ext_l. }
  assert (Hfp : fp_sum_of sorted t = fp_sum_of sorted t').
  { unfold fp_sum_of, Qlt_bool. f_equal. apply map_ext.
    intro r. f_equal. now apply Qle_bool_ext_l. }
  unfold entry_of. cbv zeta. now rewrite Htp, Hfp.
Qed.

Lemma num_set_has {V : Type} (d : list (Q * V)) (k : Q) (v : V) :
  exists k', In (k', v) (num_set d k v) /\ k' == k.
Proof.
  unfold num_set. induction d as [| [k0 v0] d IH]; simpl.
  - exists k. split; [now left | reflexivity].
  - destruct (Qeq_bool k0 k) eqn:E.
    + exists k0. split; [now left | now apply Qeq_bool_iff].
    + destruct IH as (k' & Hin & Hk). exists k'. split; [now right | exact Hk].
Qed.

Lemma num_set_other {V : Type} (d : list (Q * V)) (k : Q) (v : V) k0 v0 :
  In (k0, v0) d -> ~ k0 == k -> In (k0, v0) (num_set d k v).
Proof.
  unfold num_set. intros Hin Hne. induction d as [| [k1 v1] d IH]; simpl.
  - destruct Hin.
  - destruct Hin as [Heq | Hin].
    + inversion Heq; subst. destruct (Qeq_bool k0 k) eqn:E.
      * apply Qeq_bool_iff in E. contradiction.
      * now left.
    + destruct (Qeq_bool k1 k); right; [exact Hin | now apply IH].
Qed.

Lemma score_desc_sorted rows sorted :
  score_desc sorted rows -> score_desc (sort_by_score_desc sorted) rows.
Proof.
  intros [Hp _]. split; [| apply sort_by_score_desc_order].
  rewrite <- Hp. apply sort_by_score_desc_perm.
Qed.

(** Every threshold of the loop has its entry in the result, computed from
    the ground-truth count and the rows as sorted for a pass; an entry that
    was there before under a key no threshold equals is left alone. *)
Lemma evaluate_loop_report series_eq_seq self bc n rows thrs :
  nr_gt_of series_eq_seq self bc = Ok n ->
  forall cur metrics m,
    Permutation cur rows ->
    evaluate_loop series_eq_seq self thrs bc (Array2D cur) metrics = Ok m ->
    (forall t, In t thrs ->
               exists k d sorted,
                 In (k, d) m /\ k == t /\ score_desc sorted rows
                 /\ d = entry_of n sorted t)
    /\ (forall k d, In (k, d) metrics ->
                    (forall t, In t thrs -> ~ k == t) -> In (k, d) m).
Proof.
  intro Hn. induction thrs as [| t0 rest IH]; intros cur metrics m Hp H.
  - simpl in H. inversion H; subst. split; [intros t [] | auto].
  - rewrite evaluate_loop_cons, Hn in H. cbn [bind] in H.
    assert (Hp' : Permutation (sort_by_score_desc cur) rows).
    { rewrite <- Hp. apply sort_by_score_desc_perm. }
    destruct (IH _ _ _ Hp' H) as [IH1 IH2]. split.
    + assert (Hrest : forall t, t == t0 \/ In t rest ->
                 (exists t', In t' rest /\ t' == t)
                 \/ ((forall t', In t' rest -> ~ t' == t) /\ t == t0)).
      { intros t Ht.
        destruct (existsb (fun t' => Qeq_bool t' t) rest) eqn:E.
        - left. apply existsb_exists in E. destruct E as (t' & Hin & Heq).
          exists t'. split; [exact Hin | now apply Qeq_bool_iff].
        - right.
          assert (Hno : forall t', In t' rest -> ~ t' == t).
          { intros t' Hin Heq.
            assert (Ht' : existsb (fun t' => Qeq_bool t' t) rest = true).
            { apply existsb_exists. exists t'.
              split; [exact Hin | now apply Qeq_bool_iff]. }
            congruence. }
          split; [exact Hno |].
          destruct Ht as [Ht | Ht]; [exact Ht |].
          exfalso. exact (Hno t Ht (Qeq_refl t)). }
      intros t Ht.
      assert (Ht' : t == t0 \/ In t rest).
      { destruct Ht as [<- | Ht]; [left; reflexivity | now right]. }
      destruct (Hrest t Ht') as [(t' & Hin & Heq) | [Hno Heq]].
      * destruct (IH1 t' Hin) as (k & d & sorted & Hm & Hk & Hs & Hd).
        exists k, d, sorted. split; [exact Hm |].
        split; [now rewrite Hk |]. split; [exact Hs |].
        rewrite Hd. now apply entry_of_ext.
      * destruct (num_set_has metrics t0
                    (entry_of n (sort_by_score_desc cur) t0))
          as (k & Hin & Hk).
        exists k, (entry_of n (sort_by_score_desc cur) t0),
          (sort_by_score_desc cur).
        split.
        { apply IH2; [exact Hin |]. intros t' Ht'' Hkt. apply (Hno t' Ht'').
          now rewrite <- Hkt, Hk, Heq. }
        split; [now rewrite Hk, Heq |].
        split; [split; [exact Hp' | apply sort_by_score_desc_order] |].
        apply entry_of_ext. now symmetry.
    + intros k d Hin Hno. apply IH2.
      * apply num_set_other; [exact Hin |]. apply Hno. now left.
      * intros t Ht. apply Hno. now right.
Qed.

(** [_evaluate_overlaps] on a two-dimensional array, once the ground-truth
    count can be taken: it returns; the keys of the report are requested
    thresholds, all of them in order when no two are equal; and every
    requested threshold has its entry. *)
Lemma evaluate_overlaps_report series_eq_seq self bc n rows iou_thrs :
  nr_gt_of series_eq_seq self bc = Ok n ->
  exists m,
    _evaluate_overlaps series_eq_seq self (Array2D rows) iou_thrs bc = Ok m
    /\ incl (map fst m) iou_thrs
    /\ (distinct_thrs iou_thrs -> map fst m = iou_thrs)
    /\ (forall t, In t iou_thrs ->
                  exists k d sorted,
                    In (k, d) m /\ k == t /\ score_desc sorted rows
                    /\ d = entry_of n sorted t)
    /\ Forall (fun te =>
                 exists sorted t,
                   In t iou_thrs /\ Permutation sorted rows
                   /\ snd te = entry_of n sorted t) m.
Proof.
  intro Hn. unfold _evaluate_overlaps.
  destruct (evaluate_loop_total series_eq_seq self bc n iou_thrs rows [] Hn)
    as [m Hm].
  exists m. split; [exact Hm |]. split.
  { exact (evaluate_loop_keys _ _ _ _ _ _ _ Hm). }
  split.
  { intro Hd.
    exact (evaluate_loop_keys_distinct _ _ _ _ _ _ _ Hd (Forall_nil _) Hm). }
  split.
  { exact (proj1 (evaluate_loop_report _ _ _ _ _ _ Hn _ _ _
                    (Permutation_refl rows) Hm)). }
  eapply (evaluate_loop_entries series_eq_seq self
            (fun d => exists sorted t,
                 In t iou_thrs /\ Permutation sorted rows
                 /\ d = entry_of n sorted t));
    [| constructor | exact Hm].
  intros n' sorted t Hn' Hperm Hin. rewrite Hn in Hn'. inversion Hn'; subst n'.
  exists sorted, t. auto.
Qed.

(** With one threshold the rows are sorted once. *)
Lemma evaluate_overlaps_single series_eq_seq self bc n rows t :
  nr_gt_of series_eq_seq self bc = Ok n ->
  _evaluate_overlaps series_eq_seq self (Array2D rows) [t] bc
  = Ok [(t, entry_of n (sort_by_score_desc rows) t)].
Proof.
  intro Hn. unfold _evaluate_overlaps.
  rewrite evaluate_loop_cons, Hn. reflexivity.
Qed.

(** *** Zero ground truth *)

Lemma recall_of_zero tp_sum : Forall (fun r => r == 0) (recall_of 0 tp_sum).
Proof.
  unfold recall_of. cbn [Nat.ltb Nat.leb].
  induction tp_sum as [| t l IH]; simpl; constructor; [ring | exact IH].
Qed.

Lemma recall_of_pos n tp_sum i :
  (0 < n)%nat ->
  nth_error (recall_of n tp_sum) i
  = option_map (fun t => t / inject_Z (Z.of_nat n)) (nth_error tp_sum i).
Proof.
  intro Hn. unfold recall_of.
  apply Nat.ltb_lt in Hn. rewrite Hn. apply nth_error_map.
Qed.

Lemma envelope_nil l : envelope l = [] -> l = [].
Proof.
  destruct l as [| x r]; [reflexivity |]. simpl.
  destruct (envelope r); discriminate.
Qed.

Lemma envelope_cons x r :
  r <> [] -> exists q, envelope (x :: r) = q :: envelope r.
Proof.
  intro Hr. simpl. destruct (envelope r) as [| y t] eqn:E.
  - apply envelope_nil in E. contradiction.
  - eauto.
Qed.

Lemma area_sum_zero_recall : forall rs ps r0 q,
  r0 == 0 -> Forall (fun r => r == 0) rs ->
  List.length ps = List.length rs ->
  area_sum (r0 :: rs ++ [1]) (q :: envelope (ps ++ [0])) == 0.
Proof.
  induction rs as [| r1 rs IH]; intros ps r0 q H0 Hrs Hlen.
  - destruct ps; [| discriminate]. simpl.
    destruct (Qeq_bool 1 r0); ring.
  - destruct ps as [| p1 ps]; [discriminate |].
    inversion Hrs as [| ? ? H1 Hrs']; subst.
    destruct (envelope_cons p1 (ps ++ [0])) as [q1 Hq].
    { destruct ps; discriminate. }
    change ((p1 :: ps) ++ [0]) with (p1 :: ps ++ [0]). rewrite Hq.
    change ((r1 :: rs) ++ [1]) with (r1 :: rs ++ [1]).
    cbn [area_sum].
    assert (E : Qeq_bool r1 r0 = true).
    { apply Qeq_bool_iff. now rewrite H0, H1. }
    rewrite E. rewrite (IH ps r1 q1 H1 Hrs'); [ring |].
    now inversion Hlen.
Qed.

Lemma area_zero_recall recalls precisions :
  Forall (fun r => r == 0) recalls ->
  List.length precisions = List.length recalls ->
  area_sum ([0] ++ recalls ++ [1]) (envelope ([0] ++ precisions ++ [0])) == 0.
Proof.
  intros Hr Hlen.
  destruct (envelope_cons 0 (precisions ++ [0])) as [q Hq].
  { destruct precisions; discriminate. }
  change ([0] ++ precisions ++ [0]) with (0 :: precisions ++ [0]).
  rewrite Hq. apply area_sum_zero_recall; [reflexivity | exact Hr | exact Hlen].
Qed.

Lemma fold_left_Qplus_zero l a :
  Forall (fun r => r == 0) l -> fold_left Qplus l a == a.
Proof.
  intro H. revert a; induction H as [| x l Hx _ IH]; intro a; simpl;
    [reflexivity |].
  rewrite IH, Hx. ring.
Qed.

Lemma np_average_zero l : Forall (fun r => r == 0) l -> np_average l == 0.
Proof.
  intro H. unfold np_average, Qsum.
  rewrite (fold_left_Qplus_zero l 0 H). unfold Qdiv. ring.
Qed.

Lemma entry_of_zero sorted thr : zero_entry (entry_of 0 sorted thr).
Proof.
  unfold zero_entry, entry_of. cbv zeta.
  eexists. eexists.
  split; [reflexivity |]. split; [| split; [reflexivity |]].
  - apply area_zero_recall; [apply recall_of_zero |].
    rewrite recall_of_length, precision_of_length;
      rewrite tp_sum_of_length; [reflexivity |].
    now rewrite fp_sum_of_length.
  - apply np_average_zero, recall_of_zero.
Qed.

Lemma recall_of_pos_map n tp_sum :
  (0 < n)%nat ->
  recall_of n tp_sum = map (fun t => t / inject_Z (Z.of_nat n)) tp_sum.
Proof. intro Hn. unfold recall_of. apply Nat.ltb_lt in Hn. now rewrite Hn. Qed.

(** C8. With a ground-truth count of zero the recall sequence is zero
    throughout, [_average_precision] returns an average precision equal to
    zero, and [_evaluate_overlaps] returns, on every two-dimensional array
    of records, a report that holds an entry for every requested threshold
    and in which every entry has average precision and mean recall zero; on
    no array at all does it raise a division by zero.  With a positive count
    [n], [recall[i] = tp_sum[i] / n]: the entry [_evaluate_overlaps] reports
    for a threshold holds the mean of that sequence as its recall and the
    area under it as its average precision. *)
Theorem zero_ground_truth_recall series_eq_seq self by_class :
  (forall tp_sum, Forall (fun r => r == 0) (recall_of 0 tp_sum))
  /\ (forall tp_sum precisions,
         List.length precisions = List.length tp_sum ->
         exists ap,
           _average_precision (recall_of 0 tp_sum) precisions "area" = Ok ap
           /\ ap == 0)
  /\ (nr_gt_of series_eq_seq self by_class = Ok 0%nat ->
      forall rows iou_thrs,
      exists m,
        _evaluate_overlaps series_eq_seq self (Array2D rows) iou_thrs by_class
        = Ok m
        /\ Forall (fun te => zero_entry (snd te)) m
        /\ incl (map fst m) iou_thrs
        /\ (distinct_thrs iou_thrs -> map fst m = iou_thrs)
        /\ forall t, In t iou_thrs ->
                     exists k d, In (k, d) m /\ k == t /\ zero_entry d)
  /\ (nr_gt_of series_eq_seq self by_class = Ok 0%nat ->
      forall ov iou_thrs,
        _evaluate_overlaps series_eq_seq self ov iou_thrs by_class
        <> Raise ZeroDivisionError)
  /\ (forall n,
         (0 < n)%nat ->
         nr_gt_of series_eq_seq self by_class = Ok n ->
         forall rows iou_thrs,
         exists m,
           _evaluate_overlaps series_eq_seq self (Array2D rows) iou_thrs by_class
           = Ok m
           /\ forall t, In t iou_thrs ->
                exists k d sorted,
                  In (k, d) m /\ k == t /\ score_desc sorted rows
                  /\ let recall := map (fun tp => tp / inject_Z (Z.of_nat n))
                                       (tp_sum_of sorted t) in
                     let precision := precision_of (tp_sum_of sorted t)
                                                   (fp_sum_of sorted t) in
                     d = [("ap"%string,
                           area_sum ([0] ++ recall ++ [1])
                                    (envelope ([0] ++ precision ++ [0])));
                          ("precision"%string, np_average precision);
                          ("recall"%string, np_average recall)])
  /\ (forall n tp_sum i,
         (0 < n)%nat ->
         nth_error (recall_of n tp_sum) i
         = option_map (fun t => t / inject_Z (Z.of_nat n)) (nth_error tp_sum i)).
Proof.
  split; [exact recall_of_zero |]. split; [| split; [| split; [| split]]].
  - intros tp_sum precisions Hlen.
    rewrite average_precision_area by (now rewrite recall_of_length).
    eexists. split; [reflexivity |].
    apply area_zero_recall; [apply recall_of_zero |].
    now rewrite recall_of_length.
  - intros Hn rows iou_thrs.
    destruct (evaluate_overlaps_report series_eq_seq self by_class 0 rows
                iou_thrs Hn) as (m & Hm & Hk & Hd & Hall & _).
    exists m. split; [exact Hm |].
    assert (Hz : Forall (fun te => zero_entry (snd te)) m).
    { unfold _evaluate_overlaps in Hm.
      eapply evaluate_loop_entries; [| constructor | exact Hm].
      intros n sorted t Hn' _ _. rewrite Hn in Hn'. inversion Hn'; subst.
      apply entry_of_zero. }
    split; [exact Hz |]. split; [exact Hk |]. split; [exact Hd |].
    intros t Ht. destruct (Hall t Ht) as (k & d & sorted & Hin & Hkt & _ & ->).
    exists k, (entry_of 0 sorted t).
    split; [exact Hin |]. split; [exact Hkt | apply entry_of_zero].
  - intros Hn ov iou_thrs. unfold _evaluate_overlaps.
    destruct ov as [| rows].
    + destruct iou_thrs; simpl; discriminate.
    + destruct (evaluate_loop_total series_eq_seq self by_class 0 iou_thrs
                  rows [] Hn) as [m Hm].
      rewrite Hm. discriminate.
  - intros n Hpos Hn rows iou_thrs.
    destruct (evaluate_overlaps_report series_eq_seq self by_class n rows
                iou_thrs Hn) as (m & Hm & _ & _ & Hall & _).
    exists m. split; [exact Hm |].
    intros t Ht. destruct (Hall t Ht) as (k & d & sorted & Hin & Hkt & Hs & ->).
    exists k, (entry_of n sorted t), sorted.
    split; [exact Hin |]. split; [exact Hkt |]. split; [exact Hs |].
    cbv zeta. unfold entry_of. cbv zeta.
    now rewrite (recall_of_pos_map n _ Hpos).
  - intros n tp_sum i Hn. now apply recall_of_pos.
Qed.

Lemma zero_ground_truth_recall_witness :
  exists m,
    _evaluate_overlaps Sample.eq_all Sample.aligned_store
      (Array2D [mkOv 1 1 5 (5 # 10); mkOv (-1) 0 5 (9 # 10)])
      [1 # 2; 11 # 20] (ByClass 5)
    = Ok m
    /\ Forall (fun te => zero_entry (snd te)) m
    /\ incl (map fst m) [1 # 2; 11 # 20]
    /\ (distinct_thrs [1 # 2; 11 # 20] -> map fst m = [1 # 2; 11 # 20])
    /\ forall t, In t [1 # 2; 11 # 20] ->
                 exists k d, In (k, d) m /\ k == t /\ zero_entry d.
Proof.
  apply (proj1 (proj2 (proj2
           (zero_ground_truth_recall Sample.eq_all Sample.aligned_store
              (ByClass 5))))).
  reflexivity.
Defined.

(** *** The ground-truth count of a class *)

Lemma NoDup_labels_filter {A : Type} (p : Z * A -> bool) (df : list (Z * A)) :
  NoDup (map fst df) -> NoDup (map fst (filter p df)).
Proof.
  induction df as [| rw df IH]; simpl; intro H; [constructor |].
  inversion H as [| ? ? Hnot Hnd]; subst.
  destruct (p rw); simpl; [| now apply IH].
  constructor; [| now apply IH].
  intro Hin. apply Hnot. apply in_map_iff in Hin.
  destruct Hin as (rw' & Hl & Hrw'). apply filter_In in Hrw'.
  apply in_map_iff. exists rw'. tauto.
Qed.

Lemma nr_gt_of_class series_eq_seq self c :
  Forall (fun rw => cat_id (snd rw) <> []) (ann_info self) ->
  NoDup (map fst (ann_info self)) ->
  nr_gt_of series_eq_seq self (ByClass c)
  = Ok (List.length
          (filter (fun rw => Z.eqb (first_cat rw) c) (ann_info self))).
Proof.
  intros Hcat Hnd. unfold nr_gt_of.
  rewrite (first_cats_total _ Hcat). cbn [bind]. rewrite map_map.
  rewrite (bool_index_map (fun rw => Z.eqb (first_cat rw) c)). cbn [bind].
  rewrite nodup_fixed_point by (now apply NoDup_labels_filter).
  now rewrite length_map.
Qed.

(** C10. In a classwise evaluation the recall denominator of class [c] is
    the number of rows of the whole annotation table whose first category id
    is [c]; it is the same whatever annotation-set filter, class blacklist or
    proposal set the object holds, and the report holds, for every requested
    threshold, an entry computed with that one count. *)
Theorem classwise_ground_truth_count series_eq_seq self c :
  Forall (fun rw => cat_id (snd rw) <> []) (ann_info self) ->
  NoDup (map fst (ann_info self)) ->
  let n := List.length
             (filter (fun rw => Z.eqb (first_cat rw) c) (ann_info self)) in
  nr_gt_of series_eq_seq self (ByClass c) = Ok n
  /\ (forall f,
         nr_gt_of series_eq_seq (set_annotation_set_filter self f) (ByClass c)
         = Ok n)
  /\ (forall blacklist,
         nr_gt_of series_eq_seq (set_class_blacklist self blacklist) (ByClass c)
         = Ok n)
  /\ (forall ps oriented idx,
         nr_gt_of series_eq_seq (with_proposals self ps oriented idx) (ByClass c)
         = Ok n)
  /\ forall rows iou_thrs,
      exists m,
        _evaluate_overlaps series_eq_seq self (Array2D rows) iou_thrs (ByClass c)
        = Ok m
        /\ incl (map fst m) iou_thrs
        /\ (distinct_thrs iou_thrs -> map fst m = iou_thrs)
        /\ (forall t, In t iou_thrs ->
                      exists k d sorted,
                        In (k, d) m /\ k == t /\ score_desc sorted rows
                        /\ d = entry_of n sorted t)
        /\ Forall (fun te =>
                     exists sorted t,
                       In t iou_thrs /\ Permutation sorted rows
                       /\ snd te = entry_of n sorted t) m.
Proof.
  intros Hcat Hnd n.
  pose proof (nr_gt_of_class series_eq_seq self c Hcat Hnd) as Hn. fold n in Hn.
  split; [exact Hn |].
  split; [intro f; exact (nr_gt_of_class series_eq_seq _ c Hcat Hnd) |].
  split; [intro bl; exact (nr_gt_of_class series_eq_seq _ c Hcat Hnd) |].
  split; [intros ps o i; exact (nr_gt_of_class series_eq_seq _ c Hcat Hnd) |].
  intros rows iou_thrs.
  exact (evaluate_overlaps_report series_eq_seq self (ByClass c) n rows
           iou_thrs Hn).
Qed.

Lemma classwise_ground_truth_count_witness :
  nr_gt_of Sample.eq_all Sample.aligned_store (ByClass 1) = Ok 2%nat
  /\ nr_gt_of Sample.eq_all
       (set_class_blacklist
          (set_annotation_set_filter Sample.aligned_store (OneSet "other"))
          ["note"%string])
       (ByClass 1)
     = Ok 2%nat
  /\ exists m,
      _evaluate_overlaps Sample.eq_all Sample.aligned_store
        (Array2D [mkOv 1 1 1 (5 # 10); mkOv (-1) 0 1 (9 # 10)])
        [1 # 2; 11 # 20] (ByClass 1)
      = Ok m
      /\ map fst m = [1 # 2; 11 # 20].
Proof.
  assert (Hcat : Forall (fun rw : Z * annotation => cat_id (snd rw) <> [])
                   (ann_info Sample.aligned_store)).
  { repeat constructor; discriminate. }
  assert (Hnd : NoDup (map fst (ann_info Sample.aligned_store))).
  { simpl. repeat constructor; simpl; intuition discriminate. }
  split; [| split].
  - exact (proj1 (classwise_ground_truth_count Sample.eq_all
                    Sample.aligned_store 1 Hcat Hnd)).
  - exact (proj1 (classwise_ground_truth_count Sample.eq_all _ 1 Hcat Hnd)).
  - destruct (proj2 (proj2 (proj2 (proj2
                (classwise_ground_truth_count Sample.eq_all
                   Sample.aligned_store 1 Hcat Hnd))))
                [mkOv 1 1 1 (5 # 10); mkOv (-1) 0 1 (9 # 10)]
                [1 # 2; 11 # 20])
      as (m & Hm & _ & Hd & _).
    exists m. split; [exact Hm |]. apply Hd.
    repeat constructor. discriminate.
Defined.

(** ** The report of [calculate_metrics] *)

Section Report.

Variable iou_poly : list Q -> list Q -> Q.
Variable series_eq_seq : list Z -> list Q -> result (list bool).
Variable self : OBBAnns.

Lemma entry_of_no_accuracy n sorted t : no_accuracy (entry_of n sorted t).
Proof. reflexivity. Qed.

Lemma evaluate_overlaps_no_accuracy ov iou_thrs bc m :
  _evaluate_overlaps series_eq_seq self ov iou_thrs bc = Ok m ->
  Forall (fun te => no_accuracy (snd te)) m.
Proof.
  unfold _evaluate_overlaps. intro H. destruct ov as [| rows].
  - destruct iou_thrs; simpl in H; [| discriminate].
    inversion H. constructor.
  - eapply evaluate_loop_entries; [| constructor | exact H].
    intros. apply entry_of_no_accuracy.
Qed.

(** The averaging never returns: no entry has the key ['accuracy'], and
    without entries the sums are divided by zero. *)
Lemma average_thresholds_raises tresh_dict :
  Forall (fun te => no_accuracy (snd te)) tresh_dict ->
  average_thresholds tresh_dict
  = Raise (match tresh_dict with
           | [] => ZeroDivisionError
           | _ => KeyError (KStr "accuracy")
           end).
Proof.
  intro H. destruct H as [| te rest Hte _]; [reflexivity |].
  unfold average_thresholds.
  cbn [foldM averaged_keys map bind].
  change (str_get [("accuracy"%string, 0); ("precision"%string, 0);
                   ("recall"%string, 0)] "accuracy")
    with (@Ok Q 0).
  cbn [bind]. unfold no_accuracy in Hte. unfold eval_dict in *.
  rewrite Hte. reflexivity.
Qed.

Lemma mapM_head_raises {A B : Type} (f : A -> result B) (x : A) (l : list A) e :
  f x = Raise e -> mapM f (x :: l) = Raise e.
Proof. intro H. simpl. now rewrite H. Qed.

Lemma classwise_results rows iou_thrs classes : forall acc r,
  foldM (fun results_dict class_idx =>
           m <- _evaluate_overlaps series_eq_seq self
                  (Array2D (filter (fun r => Z.eqb (ov_cat_id r) class_idx) rows))
                  iou_thrs (ByClass class_idx) ;;
           Ok (results_dict ++ [(KInt class_idx, m)]))
        classes acc = Ok r ->
  exists new,
    r = acc ++ new
    /\ map fst new = map KInt classes
    /\ Forall (fun ct => Forall (fun te => no_accuracy (snd te)) (snd ct)) new
    /\ Forall (fun ct => incl (map fst (snd ct)) iou_thrs) new.
Proof.
  induction classes as [| c classes IH]; intros acc r H; simpl in H.
  - inversion H; subst. exists []. rewrite app_nil_r.
    repeat split; constructor.
  - inv_bind H. inv_bind E. rename x0 into m. inversion E; subst x. clear E.
    destruct (IH _ _ H) as (new & Hr & Hk & Hna & Hkeys).
    exists ((KInt c, m) :: new). rewrite <- app_assoc in Hr.
    split; [exact Hr |]. split; [simpl; now f_equal |]. split.
    + constructor; [| exact Hna]. simpl.
      now apply evaluate_overlaps_no_accuracy in E0.
    + constructor; [| exact Hkeys]. simpl.
      unfold _evaluate_overlaps in E0. now apply evaluate_loop_keys in E0.
Qed.

Lemma np_unique_Z_nonempty x l : np_unique_Z (x :: l) <> [].
Proof.
  unfold np_unique_Z. intro H.
  assert (Hin : In x (nodup Z.eq_dec (sort_by Z.leb (x :: l)))).
  { apply nodup_In. eapply Permutation_in; [apply sort_by_perm | now left]. }
  rewrite H in Hin. exact Hin.
Qed.

(** With [average_thrs] set, [calculate_metrics] raises on every input. *)
Lemma calculate_metrics_average_raises iou_thrs classwise :
  is_ok (calculate_metrics iou_poly series_eq_seq self iou_thrs classwise true)
  = false.
Proof.
  unfold calculate_metrics.
  destruct (proposals self) as [props |]; [| reflexivity].
  destruct (match_images iou_poly self props _ []) as [ovs | e];
    [| reflexivity].
  cbn [bind]. destruct classwise.
  - destruct ovs as [| o ovs]; [reflexivity |].
    cbn [np_array columns bind].
    destruct (foldM _ _ _) as [r | e] eqn:E; [| reflexivity].
    apply classwise_results in E.
    destruct E as (new & -> & Hk & Hna & _). cbn [app bind].
    destruct new as [| ct new].
    + symmetry in Hk. apply map_eq_nil in Hk.
      now apply np_unique_Z_nonempty in Hk.
    + inversion Hna as [| ? ? Hct _]; subst.
      erewrite mapM_head_raises; [reflexivity |].
      rewrite (average_thresholds_raises _ Hct). reflexivity.
  - destruct (_evaluate_overlaps _ _ _ _ _) as [m | e] eqn:E; [| reflexivity].
    apply evaluate_overlaps_no_accuracy in E. cbn [bind].
    erewrite mapM_head_raises; [reflexivity |].
    cbn [snd]. rewrite (average_thresholds_raises _ E). reflexivity.
Qed.

(** Without [classwise], the keys of the report under ["average"] are
    among the per-category proposal counts. *)
Lemma calculate_metrics_aggregate_keys props iou_thrs r :
  proposals self = Some props ->
  calculate_metrics iou_poly series_eq_seq self iou_thrs false false = Ok r ->
  exists m,
    r = [(KStr "average", PerThreshold m)]
    /\ incl (map fst m)
            (map (fun kv => inject_Z (Z.of_nat (snd kv)))
                 (value_counts (map p_cat_id props))).
Proof.
  intros Hp H. unfold calculate_metrics in H. rewrite Hp in H.
  inv_bind H. inv_bind H. inv_bind E0. inversion E0; subst. clear E0.
  inversion H; subst. clear H.
  exists x1. split; [reflexivity |].
  unfold _evaluate_overlaps in E1. now apply evaluate_loop_keys in E1.
Qed.

End Report.

(** C1 at two detections of one category and the thresholds 0.5 and 0.55,
    aggregate mode, no averaging: whenever [calculate_metrics] returns, the
    mapping under ["average"] has no key but 2, the number of proposals of
    that category (and it does return, with that key, for one behaviour of
    pandas' comparison); the classwise call on the same data is keyed by the
    two thresholds. *)
Theorem aggregate_report_keyed_by_proposal_counts :
  forall iou_poly series_eq_seq,
    match calculate_metrics iou_poly series_eq_seq Sample.aligned_store
            [1 # 2; 11 # 20] false false with
    | Ok r =>
        exists m,
          r = [(KStr "average", PerThreshold m)]
          /\ incl (map fst m) [inject_Z 2]
          /\ ~ In (1 # 2) (map fst m) /\ ~ In (11 # 20) (map fst m)
    | Raise _ => True
    end
    /\ (exists d,
           calculate_metrics iou_poly Sample.eq_all Sample.aligned_store
             [1 # 2; 11 # 20] false false
           = Ok [(KStr "average", PerThreshold [(inject_Z 2, d)])])
    /\ (exists d1 d2,
           calculate_metrics iou_poly series_eq_seq Sample.aligned_store
             [1 # 2; 11 # 20] true false
           = Ok [(KInt 1, PerThreshold [(1 # 2, d1); (11 # 20, d2)])]).
Proof.
  intros iou_poly series_eq_seq. split; [| split].
  - destruct (calculate_metrics iou_poly series_eq_seq Sample.aligned_store
                [1 # 2; 11 # 20] false false) as [r | e] eqn:E; [| exact I].
    destruct (calculate_metrics_aggregate_keys iou_poly series_eq_seq
                Sample.aligned_store Sample.aligned_props _ r eq_refl E)
      as (m & Hr & Hk).
    exists m. split; [exact Hr |].
    change (map (fun kv : Z * nat => inject_Z (Z.of_nat (snd kv)))
              (value_counts (map p_cat_id Sample.aligned_props)))
      with [inject_Z 2] in Hk.
    split; [exact Hk |].
    split; intro Hin; apply Hk in Hin; destruct Hin as [Hin | []];
      discriminate.
  - eexists. vm_compute. reflexivity.
  - eexists. eexists. vm_compute. reflexivity.
Qed.

(** C2. With [average_thrs] set (the default), [calculate_metrics] returns
    on no input: the averaging reads the key ['accuracy'], which no entry
    has.  On two detections and the thresholds 0.5 and 0.55 it raises
    [KeyError('accuracy')], classwise or not. *)
Theorem average_thrs_raises :
  forall iou_poly series_eq_seq,
    (forall self iou_thrs classwise,
        is_ok (calculate_metrics iou_poly series_eq_seq self iou_thrs
                 classwise true) = false)
    /\ calculate_metrics iou_poly series_eq_seq Sample.aligned_store
         [1 # 2; 11 # 20] true true
       = Raise (KeyError (KStr "accuracy"))
    /\ calculate_metrics iou_poly Sample.eq_all Sample.aligned_store
         [1 # 2; 11 # 20] false true
       = Raise (KeyError (KStr "accuracy")).
Proof.
  intros iou_poly series_eq_seq. split; [| split].
  - intros self iou_thrs classwise. apply calculate_metrics_average_raises.
  - vm_compute. reflexivity.
  - vm_compute. reflexivity.
Qed.

(** * Further properties of the code *)

(** ** Comments of an annotation *)

Lemma split_char_length sep s :
  List.length (split_char sep s) = S (count_char sep s).
Proof.
  induction s as [| c r IH]; simpl; [reflexivity |].
  destruct (Ascii.eqb c sep); simpl; [now rewrite IH |].
  destruct (split_char sep r); simpl in *; [discriminate | exact IH].
Qed.

Lemma split_char_no_sep sep s :
  count_char sep s = 0%nat -> split_char sep s = [s].
Proof.
  induction s as [| c r IH]; simpl; [reflexivity |].
  destruct (Ascii.eqb c sep); simpl; [discriminate |].
  intro H. now rewrite (IH H).
Qed.

Lemma split_char_app sep a b :
  count_char sep a = 0%nat ->
  split_char sep (String.append a (String sep b)) = a :: split_char sep b.
Proof.
  induction a as [| c r IH]; simpl.
  - intros _. now rewrite Ascii.eqb_refl.
  - destruct (Ascii.eqb c sep); simpl; [discriminate |].
    intro H. now rewrite (IH H).
Qed.

Lemma count_char_app c a b :
  count_char c (String.append a b) = (count_char c a + count_char c b)%nat.
Proof.
  induction a as [| d r IH]; simpl; [reflexivity |]. rewrite IH. lia.
Qed.

Lemma split_char_count x sep s :
  Forall (fun co => (count_char x co <= count_char x s)%nat) (split_char sep s).
Proof.
  induction s as [| c r IH]; simpl.
  - repeat constructor.
  - destruct (Ascii.eqb c sep).
    + constructor; [simpl; lia |].
      eapply Forall_impl; [| exact IH]. intros co H. simpl in H. lia.
    + pose proof (split_char_length sep r) as Hl.
      destruct (split_char sep r) as [| h t]; [discriminate |].
      inversion IH as [| ? ? Hh Ht]; subst. constructor.
      * simpl. lia.
      * eapply Forall_impl; [| exact Ht]. intros co H. simpl in H. lia.
Qed.

Lemma parse_field_plain d co :
  count_char ":"%char co = 0%nat -> parse_field d co = Ok d.
Proof.
  intro H. unfold parse_field. cbv zeta.
  now rewrite split_char_length, H.
Qed.

Lemma parse_field_pair d k v :
  count_char ":"%char k = 0%nat -> count_char ":"%char v = 0%nat ->
  parse_field d (String.append k (String ":"%char v)) = Ok (str_set d k v).
Proof.
  intros Hk Hv. unfold parse_field. cbv zeta.
  rewrite (split_char_app _ _ _ Hk), (split_char_no_sep _ _ Hv). reflexivity.
Qed.

Lemma parse_field_many d co :
  (2 <= count_char ":"%char co)%nat -> parse_field d co = Raise ValueError.
Proof.
  intro H. unfold parse_field. cbv zeta.
  pose proof (split_char_length ":"%char co) as Hl.
  destruct (split_char ":"%char co) as [| a [| b [| c t]]]; simpl in *;
    try lia; reflexivity.
Qed.

Lemma parse_field_ok d co :
  (count_char ":"%char co <= 1)%nat -> exists d', parse_field d co = Ok d'.
Proof.
  intro H. unfold parse_field. cbv zeta.
  pose proof (split_char_length ":"%char co) as Hl.
  destruct (split_char ":"%char co) as [| a [| b [| c t]]]; simpl in *;
    try lia; eauto.
Qed.

Lemma parse_comments_fold comment :
  parse_comments comment = foldM parse_field (split_char ";"%char comment) [].
Proof. reflexivity. Qed.

Lemma foldM_parse_field_ok fields : forall d,
  is_ok (foldM parse_field fields d) = true
  <-> Forall (fun co => (count_char ":"%char co <= 1)%nat) fields.
Proof.
  induction fields as [| co fields IH]; intro d; simpl.
  - split; [constructor | reflexivity].
  - destruct (Nat.le_gt_cases (count_char ":"%char co) 1) as [Hle | Hgt].
    + destruct (parse_field_ok d co Hle) as [d' ->]. cbn [bind].
      rewrite IH. split; [now constructor | now inversion 1].
    + rewrite (parse_field_many d co Hgt). cbn [bind is_ok].
      split; [discriminate |]. inversion 1; subst. lia.
Qed.

Lemma foldM_parse_field_error fields : forall d e,
  foldM parse_field fields d = Raise e -> e = ValueError.
Proof.
  induction fields as [| co fields IH]; intros d e; simpl; [discriminate |].
  destruct (Nat.le_gt_cases (count_char ":"%char co) 1) as [Hle | Hgt].
  - destruct (parse_field_ok d co Hle) as [d' ->]. cbn [bind]. apply IH.
  - rewrite (parse_field_many d co Hgt). cbn [bind]. congruence.
Qed.

Lemma foldM_parse_field_plain fields : forall d,
  Forall (fun co => count_char ":"%char co = 0%nat) fields ->
  foldM parse_field fields d = Ok d.
Proof.
  induction fields as [| co fields IH]; intros d H; simpl; [reflexivity |].
  inversion H; subst. rewrite parse_field_plain by assumption. cbn [bind].
  now apply IH.
Qed.

(** X1. [parse_comments] returns exactly when no [;]-separated field of the
    comment holds two or more colons; the only exception it raises is the
    [ValueError] of the failed unpacking; and a comment without any colon
    parses to the empty dictionary. *)
Theorem parse_comments_errors comment :
  (is_ok (parse_comments comment) = true
   <-> Forall (fun co => (count_char ":"%char co <= 1)%nat)
              (split_char ";"%char comment))
  /\ (forall e, parse_comments comment = Raise e -> e = ValueError)
  /\ (count_char ":"%char comment = 0%nat -> parse_comments comment = Ok []).
Proof.
  rewrite parse_comments_fold. split; [apply foldM_parse_field_ok |].
  split; [apply foldM_parse_field_error |].
  intro H. apply foldM_parse_field_plain.
  eapply Forall_impl; [| apply (split_char_count ":"%char ";"%char comment)].
  intros co Hco. simpl in Hco. lia.
Qed.

Lemma comment_of_fields kv kvs :
  Forall (fun kv => plain_text (fst kv) /\ plain_text (snd kv)) (kv :: kvs) ->
  split_char ";"%char (comment_of (kv :: kvs))
  = map (fun kv => String.append (fst kv) (String ":"%char (snd kv))) (kv :: kvs).
Proof.
  revert kv; induction kvs as [| kv' kvs IH]; intros kv H.
  - inversion H as [| ? ? [[Hk _] [Hv _]] _]; subst.
    unfold comment_of. simpl. apply split_char_no_sep.
    rewrite count_char_app. simpl. lia.
  - inversion H as [| ? ? [[Hk _] [Hv _]] Hrest]; subst.
    specialize (IH kv' Hrest).
    unfold comment_of in *. cbn [map join_char] in *.
    rewrite split_char_app.
    + now rewrite IH.
    + rewrite count_char_app. simpl. lia.
Qed.

Lemma foldM_parse_field_pairs kvs : forall d,
  Forall (fun kv => plain_text (fst kv) /\ plain_text (snd kv)) kvs ->
  foldM parse_field
    (map (fun kv => String.append (fst kv) (String ":"%char (snd kv))) kvs) d
  = Ok (fold_left (fun d kv => str_set d (fst kv) (snd kv)) kvs d).
Proof.
  induction kvs as [| kv kvs IH]; intros d H; simpl; [reflexivity |].
  inversion H as [| ? ? [[_ Hk] [_ Hv]] Hrest]; subst.
  rewrite (parse_field_pair d _ _ Hk Hv). cbn [bind]. now apply IH.
Qed.

Lemma str_set_fresh {V : Type} (d : list (string * V)) k v :
  ~ In k (map fst d) -> str_set d k v = d ++ [(k, v)].
Proof.
  unfold str_set. induction d as [| [k' v'] d IH]; simpl; intro H;
    [reflexivity |].
  destruct (String.eqb_spec k' k) as [-> | Hne]; [tauto |].
  f_equal. apply IH. tauto.
Qed.

Lemma fold_str_set_fresh (kvs : list (string * string)) : forall d,
  NoDup (map fst d ++ map fst kvs) ->
  fold_left (fun d kv => str_set d (fst kv) (snd kv)) kvs d = d ++ kvs.
Proof.
  induction kvs as [| [k v] kvs IH]; intros d H; simpl.
  - now rewrite app_nil_r.
  - rewrite str_set_fresh.
    + rewrite IH; [now rewrite <- app_assoc |].
      rewrite map_app. simpl. rewrite <- app_assoc. exact H.
    + simpl in H. apply NoDup_remove_2 in H. intro Hin. apply H.
      apply in_or_app. now left.
Qed.

(** X2. On the text [k1:v1;k2:v2;...] of pairs whose keys and values hold
    neither [;] nor [:], [parse_comments] returns the dictionary built by
    assigning the pairs in order (a repeated key keeps its first position and
    its last value); with pairwise distinct keys that is the list of pairs
    itself. *)
Theorem parse_comments_comment_of kvs :
  Forall (fun kv => plain_text (fst kv) /\ plain_text (snd kv)) kvs ->
  parse_comments (comment_of kvs)
  = Ok (fold_left (fun d kv => str_set d (fst kv) (snd kv)) kvs [])
  /\ (NoDup (map fst kvs) -> parse_comments (comment_of kvs) = Ok kvs).
Proof.
  intro H.
  assert (E : parse_comments (comment_of kvs)
              = Ok (fold_left (fun d kv => str_set d (fst kv) (snd kv)) kvs [])).
  { rewrite parse_comments_fold. destruct kvs as [| kv kvs]; [reflexivity |].
    rewrite (comment_of_fields kv kvs H).
    now apply foldM_parse_field_pairs. }
  split; [exact E |].
  intro Hnd. rewrite E. f_equal. now apply (fold_str_set_fresh kvs []).
Qed.

Lemma parse_comments_comment_of_witness :
  parse_comments "onset:1/4;rel_position:-2;onset:3/8;instance:#00ff"
  = Ok [("onset", "3/8"); ("rel_position", "-2"); ("instance", "#00ff")]%string.
Proof.
  refine (proj1 (parse_comments_comment_of
                   [("onset", "1/4"); ("rel_position", "-2");
                    ("onset", "3/8"); ("instance", "#00ff")]%string _)).
  repeat constructor.
Defined.

(** ** Ground truth by annotation id *)

Lemma mapM_Forall2 {A B : Type} (f : A -> result B) (l : list A) (r : list B) :
  mapM f l = Ok r -> Forall2 (fun x y => f x = Ok y) l r.
Proof.
  revert r; induction l as [| x l IH]; simpl; intros r H.
  - inversion H. constructor.
  - inv_bind H. inv_bind H. inversion H; subst. constructor; auto.
Qed.

Lemma Forall2_mapM {A B : Type} (f : A -> result B) (l : list A) (r : list B) :
  Forall2 (fun x y => f x = Ok y) l r -> mapM f l = Ok r.
Proof.
  induction 1 as [| x y l r Hxy _ IH]; simpl; [reflexivity |].
  now rewrite Hxy, IH.
Qed.

Lemma Forall2_in_r {A B : Type} (R : A -> B -> Prop) l r :
  Forall2 R l r -> forall y, In y r -> exists x, In x l /\ R x y.
Proof.
  induction 1 as [| x y l r Hxy _ IH]; intros z Hz; [destruct Hz |].
  destruct Hz as [<- | Hz].
  - exists x. split; [now left | exact Hxy].
  - destruct (IH z Hz) as (x' & Hx' & HR). exists x'. split; [now right | exact HR].
Qed.

Lemma Forall2_in_l {A B : Type} (R : A -> B -> Prop) l r :
  Forall2 R l r -> forall x, In x l -> exists y, In y r /\ R x y.
Proof.
  induction 1 as [| x y l r Hxy _ IH]; intros z Hz; [destruct Hz |].
  destruct Hz as [<- | Hz].
  - exists y. split; [now left | exact Hxy].
  - destruct (IH z Hz) as (y' & Hy' & HR). exists y'. split; [now right | exact HR].
Qed.

Lemma loc_rows {A : Type} (df : list (Z * A)) labels : forall rows,
  loc df labels = Ok rows ->
  Forall (fun rw => In (fst rw) labels /\ In rw df) rows.
Proof.
  intros rows H. unfold loc in H.
  destruct (not_in_index df labels); [| discriminate].
  inversion H; subst. apply Forall_forall. intros rw Hin.
  apply in_flat_map in Hin. destruct Hin as (l & Hl & Hrw).
  apply filter_In in Hrw. destruct Hrw as [Hrw Heq].
  apply Z.eqb_eq in Heq. subst l. split; assumption.
Qed.

Lemma not_in_index_spec {A : Type} (df : list (Z * A)) labels x :
  In x (not_in_index df labels) <-> In x labels /\ ~ In x (map fst df).
Proof.
  unfold not_in_index. rewrite filter_In, negb_true_iff.
  split; intros [Hx Hn]; (split; [exact Hx |]).
  - intro Hin.
    assert (Ht : existsb (Z.eqb x) (map fst df) = true).
    { apply existsb_exists. exists x. split; [exact Hin | apply Z.eqb_refl]. }
    congruence.
  - destruct (existsb (Z.eqb x) (map fst df)) eqn:E; [| reflexivity].
    exfalso. apply Hn. apply existsb_exists in E.
    destruct E as (k & Hk & Heq). apply Z.eqb_eq in Heq. now subst k.
Qed.

Lemma Index_unique_In l x : In x (Index_unique l) <-> In x l.
Proof. unfold Index_unique. now rewrite <- in_rev, nodup_In, <- in_rev. Qed.

Lemma filter_all {A : Type} (p : A -> bool) (l : list A) :
  List.length (filter p l) = List.length l -> filter p l = l.
Proof.
  induction l as [| x l IH]; simpl; [reflexivity |].
  destruct (p x); simpl; intro H.
  - f_equal. apply IH. now inversion H.
  - pose proof (filter_length_le p l). lia.
Qed.

(** With labels missing, [loc] raises one [KeyError] that names exactly the
    missing labels. *)
Lemma loc_missing {A : Type} (df : list (Z * A)) labels :
  not_in_index df labels <> [] ->
  exists l,
    loc df labels = Raise (KeyError (KLabels l))
    /\ forall x, In x l <-> In x (not_in_index df labels).
Proof.
  intro H. unfold loc.
  destruct (not_in_index df labels) as [| m0 ms] eqn:E; [congruence |].
  eexists. split; [reflexivity |]. intro x.
  destruct (Nat.eqb (List.length (m0 :: ms)) (List.length labels)) eqn:El.
  - apply Nat.eqb_eq in El. rewrite <- E in El |- *.
    unfold not_in_index in *. now rewrite (filter_all _ _ El).
  - apply Index_unique_In.
Qed.

Lemma loc_total {A : Type} (df : list (Z * A)) labels :
  not_in_index df labels = [] ->
  exists rows, loc df labels = Ok rows.
Proof. intro H. unfold loc. rewrite H. eauto. Qed.

(** The names of an annotation-set filter, and the filter in force. *)
Lemma get_ann_ids_rows self ids ann_set_filter selected :
  get_ann_ids self ids ann_set_filter = Ok selected ->
  let names := match match ann_set_filter with
                     | None => chosen_ann_set self
                     | Some f => f
                     end with
               | OneSet s => [s]
               | ManySets l => l
               end in
  Forall (fun rw =>
            In (fst rw) ids
            /\ cat_id (snd rw) <> []
            /\ (List.length (cat_id (snd rw)) <= List.length names)%nat
            /\ Forall (fun c => ~ In c (classes_blacklist_id self))
                      (cat_id (snd rw))
            /\ exists a0,
                In (fst rw, a0) (ann_info self)
                /\ a_bbox (snd rw) = a_bbox a0
                /\ o_bbox (snd rw) = o_bbox a0
                /\ img_id (snd rw) = img_id a0
                /\ incl (cat_id (snd rw)) (cat_id a0))
         selected.
Proof.
  intros H names. unfold get_ann_ids in H. inv_bind H. rename x into rows.
  inv_bind H. rename x into ann_set_idx. inv_bind H. rename x into mapped.
  inversion H; subst selected. clear H.
  apply loc_rows in E. apply mapM_Forall2 in E1.
  pose proof (mapM_length _ _ _ E0) as Hlen. fold names in E0, Hlen.
  apply Forall_forall. intros rw Hin. apply filter_In in Hin.
  destruct Hin as [Hin Hne].
  destruct (Forall2_in_r _ _ _ E1 _ Hin) as (rw0 & Hin0 & Hf).
  rewrite Forall_forall in E. destruct (E rw0 Hin0) as [Hid Hdf].
  inv_bind Hf. inv_bind E2. rename x0 into cs.
  inversion E2; subst x. inversion Hf; subst rw. clear E2 Hf.
  cbn [fst snd set_cat_id cat_id a_bbox o_bbox img_id] in *.
  split; [exact Hid |]. split.
  { intro Hnil. rewrite Hnil in Hne. discriminate. }
  split.
  { etransitivity; [apply filter_length_le |].
    rewrite (mapM_length _ _ _ E3). lia. }
  split.
  { apply Forall_forall. intros c Hc. apply filter_In in Hc.
    destruct Hc as [_ Hc]. apply negb_true_iff in Hc. intro Hbl.
    assert (Ht : existsb (Z.eqb c) (classes_blacklist_id self) = true).
    { apply existsb_exists. exists c. split; [exact Hbl | apply Z.eqb_refl]. }
    congruence. }
  exists (snd rw0). split; [now destruct rw0 |].
  repeat split.
  intros c Hc. apply filter_In in Hc. destruct Hc as [Hc _].
  apply mapM_Forall2 in E3.
  destruct (Forall2_in_r _ _ _ E3 _ Hc) as (idx & _ & Hget).
  unfold getitem in Hget.
  destruct (nth_error (cat_id (snd rw0)) idx) eqn:En; [| discriminate].
  inversion Hget; subst. eapply nth_error_In; eauto.
Qed.

(** X3. Every row [get_ann_ids] returns carries a requested id and the boxes
    and image of a row of the annotation table with that id; its category
    list is non-empty, no longer than the list of names of the filter in
    force, drawn from the annotation's own list, and free of blacklisted
    ids. *)
Theorem get_ann_ids_selection self ids ann_set_filter selected :
  get_ann_ids self ids ann_set_filter = Ok selected ->
  Forall (fun rw =>
            In (fst rw) ids
            /\ cat_id (snd rw) <> []
            /\ (List.length (cat_id (snd rw))
                <= List.length (sel_names (filter_in_force self ann_set_filter)))%nat
            /\ Forall (fun c => ~ In c (classes_blacklist_id self))
                      (cat_id (snd rw))
            /\ exists a0,
                In (fst rw, a0) (ann_info self)
                /\ a_bbox (snd rw) = a_bbox a0
                /\ o_bbox (snd rw) = o_bbox a0
                /\ img_id (snd rw) = img_id a0
                /\ incl (cat_id (snd rw)) (cat_id a0))
         selected.
Proof. intro H. exact (get_ann_ids_rows _ _ _ _ H). Qed.

Lemma get_ann_ids_selection_witness :
  Forall (fun rw =>
            In (fst rw) [2%Z; 1%Z]
            /\ cat_id (snd rw) <> []
            /\ (List.length (cat_id (snd rw)) <= 1)%nat
            /\ Forall (fun c => ~ In c []) (cat_id (snd rw))
            /\ exists a0,
                In (fst rw, a0) (ann_info Sample.store)
                /\ a_bbox (snd rw) = a_bbox a0
                /\ o_bbox (snd rw) = o_bbox a0
                /\ img_id (snd rw) = img_id a0
                /\ incl (cat_id (snd rw)) (cat_id a0))
         [(2%Z, Sample.note_b); (1%Z, Sample.note_a)].
Proof.
  apply (get_ann_ids_selection Sample.store [2%Z; 1%Z]
           (Some (OneSet "deepscores"))).
  reflexivity.
Defined.

Lemma list_index_bound l x i : list_index l x = Ok i -> nth_error l i = Some x.
Proof.
  revert i; induction l as [| y l IH]; simpl; intros i H; [discriminate |].
  destruct (String.eqb_spec y x) as [-> | Hne].
  - inversion H. reflexivity.
  - inv_bind H. inversion H; subst. simpl. now apply IH.
Qed.

Lemma list_index_error l x e : list_index l x = Raise e -> e = ValueError /\ ~ In x l.
Proof.
  induction l as [| y l IH]; simpl; intro H.
  - inversion H. split; [reflexivity | tauto].
  - destruct (String.eqb_spec y x) as [-> | Hne]; [discriminate |].
    destruct (list_index l x) as [i | e'] eqn:E; [discriminate |].
    simpl in H. inversion H; subst e'. destruct (IH eq_refl) as [He Hn].
    split; [exact He |]. intros [Hy | Hin]; [now apply Hne | now apply Hn].
Qed.

Lemma mapM_list_index sets names :
  (incl names sets -> exists idxs,
       mapM (list_index sets) names = Ok idxs
       /\ Forall (fun i => (i < List.length sets)%nat) idxs)
  /\ (~ incl names sets -> mapM (list_index sets) names = Raise ValueError).
Proof.
  induction names as [| n names [IHok IHerr]]; simpl.
  - split; [intros _; exists []; split; [reflexivity | constructor] |].
    intro H. exfalso. apply H. intros x [].
  - destruct (list_index sets n) as [i | e] eqn:E; cbn [bind].
    + pose proof (list_index_bound _ _ _ E) as Hn.
      assert (Hin : In n sets) by (eapply nth_error_In; eauto).
      split.
      * intro Hincl.
        destruct IHok as (idxs & -> & Hall).
        { intros x Hx. apply Hincl. now right. }
        cbn [bind]. exists (i :: idxs). split; [reflexivity |].
        constructor; [| exact Hall]. apply nth_error_Some. congruence.
      * intro Hn'. rewrite IHerr; [reflexivity |].
        intro Hincl. apply Hn'. intros x [<- | Hx]; [exact Hin | now apply Hincl].
    + destruct (list_index_error _ _ _ E) as [-> Hnot]. split.
      * intro Hincl. exfalso. apply Hnot, Hincl. now left.
      * reflexivity.
Qed.

(** X4. The failures of [get_ann_ids] (and so of [get_anns]), in the order the
    code checks: with requested ids missing from the annotation table it
    raises one [KeyError] that names exactly the missing ids, whatever the
    filter; with all ids present, a filter naming an unknown annotation set
    raises [ValueError]; with all ids present and all names known, it returns
    as soon as every annotation has a category entry for each annotation
    set. *)
Theorem get_ann_ids_errors self ids ann_set_filter :
  (missing_ids self ids <> [] ->
   exists l,
     get_ann_ids self ids ann_set_filter = Raise (KeyError (KLabels l))
     /\ forall x, In x l <-> In x ids /\ ~ In x (map fst (ann_info self)))
  /\ (missing_ids self ids = [] ->
      ~ incl (sel_names (filter_in_force self ann_set_filter))
             (annotation_sets self) ->
      get_ann_ids self ids ann_set_filter = Raise ValueError)
  /\ (missing_ids self ids = [] ->
      incl (sel_names (filter_in_force self ann_set_filter))
           (annotation_sets self) ->
      Forall (fun rw => (List.length (annotation_sets self)
                         <= List.length (cat_id (snd rw)))%nat)
             (ann_info self) ->
      exists selected, get_ann_ids self ids ann_set_filter = Ok selected).
Proof.
  unfold missing_ids, get_ann_ids, sel_names, filter_in_force.
  split; [| split].
  - intro H. destruct (loc_missing _ _ H) as (l & -> & Hl).
    exists l. split; [reflexivity |].
    intro x. rewrite Hl. apply not_in_index_spec.
  - intros H Hn. destruct (loc_total _ _ H) as [rows ->]. cbn [bind].
    now rewrite (proj2 (mapM_list_index _ _) Hn).
  - intros H Hincl Hcats. destruct (loc_total _ _ H) as [rows Hrows].
    rewrite Hrows. cbn [bind].
    destruct (proj1 (mapM_list_index _ _) Hincl) as (idxs & -> & Hidx).
    cbn [bind].
    match goal with
    | |- context [mapM ?f rows] =>
        assert (Hm : exists mapped, mapM f rows = Ok mapped)
    end.
    { apply loc_rows in Hrows. clear H.
      induction Hrows as [| rw rows [_ Hin] _ IH]; simpl; [eauto |].
      rewrite Forall_forall in Hcats. specialize (Hcats rw Hin).
      assert (Hc : exists cs, mapM (getitem (cat_id (snd rw))) idxs = Ok cs).
      { clear -Hidx Hcats. induction Hidx as [| i idxs Hi _ IH]; simpl; [eauto |].
        unfold getitem at 1.
        destruct (nth_error (cat_id (snd rw)) i) eqn:En.
        - cbn [bind]. destruct IH as [cs ->]. cbn [bind]. eauto.
        - apply nth_error_None in En. lia. }
      destruct Hc as [cs ->]. cbn [bind]. destruct IH as [mapped ->].
      cbn [bind]. eauto. }
    destruct Hm as [mapped ->]. cbn [bind]. eauto.
Qed.

Lemma get_ann_ids_errors_witness :
  (exists l,
      get_ann_ids Sample.store [1%Z; 5%Z; 9%Z; 5%Z] (Some (OneSet "nowhere"))
      = Raise (KeyError (KLabels l))
      /\ forall x, In x l
                   <-> In x [1%Z; 5%Z; 9%Z; 5%Z]
                       /\ ~ In x (map fst (ann_info Sample.store)))
  /\ get_ann_ids Sample.store [1%Z; 2%Z] (Some (OneSet "nowhere"))
     = Raise ValueError.
Proof.
  split.
  - apply (proj1 (get_ann_ids_errors Sample.store [1%Z; 5%Z; 9%Z; 5%Z]
                    (Some (OneSet "nowhere")))).
    discriminate.
  - apply (proj1 (proj2 (get_ann_ids_errors Sample.store [1%Z; 2%Z]
                           (Some (OneSet "nowhere"))))).
    + reflexivity.
    + intro H. destruct (H "nowhere"%string) as [E | []]; [now left |].
      discriminate.
Defined.

(** ** The class blacklist *)

Lemma get_anns_rows self img_idx img_id ann_set_filter img_gt :
  get_anns self img_idx img_id ann_set_filter = Ok img_gt ->
  Forall (fun rw => cat_id (snd rw) <> []
                    /\ Forall (fun c => ~ In c (classes_blacklist_id self))
                              (cat_id (snd rw)))
         img_gt.
Proof.
  unfold get_anns. intro H. inv_bind H.
  assert (Hg : forall l, get_ann_ids self l ann_set_filter = Ok img_gt ->
                         Forall (fun rw => cat_id (snd rw) <> []
                                           /\ Forall (fun c => ~ In c (classes_blacklist_id self))
                                                     (cat_id (snd rw)))
                                img_gt).
  { intros l Hl. eapply Forall_impl; [| exact (get_ann_ids_rows _ _ _ _ Hl)].
    cbv beta. intros rw (_ & Hne & _ & Hbl & _). split; assumption. }
  destruct img_idx as [i |].
  - destruct (img_info self) as [imgs |]; [| discriminate].
    inv_bind H. eauto.
  - destruct img_id as [k |]; [| discriminate].
    inv_bind H. destruct (img_info self) as [imgs |]; [| discriminate].
    inv_bind H. eauto.
Qed.

Lemma blacklist_ids self blacklist k :
  In k (classes_blacklist_id (set_class_blacklist self blacklist))
  <-> exists cat, In (k, cat) (cat_info self) /\ In (name cat) blacklist.
Proof.
  unfold set_class_blacklist. cbn [classes_blacklist_id].
  rewrite in_map_iff. split.
  - intros ([k' cat] & Hk & Hin). simpl in Hk. subst k'.
    apply filter_In in Hin. destruct Hin as [Hin Hex].
    apply existsb_exists in Hex. destruct Hex as (n & Hn & Heq).
    apply String.eqb_eq in Heq. simpl in Heq. subst n. eauto.
  - intros (cat & Hin & Hn). exists (k, cat). split; [reflexivity |].
    apply filter_In. split; [exact Hin |].
    apply existsb_exists. exists (name cat). split; [exact Hn |].
    apply String.eqb_refl.
Qed.

(** X5. Once a class is blacklisted, a detection of that class is never
    matched: on the ground truth [get_anns] returns for any image, and on
    whatever is left of it while the image is processed, [calculate_tpfp]
    answers (-1, 0). *)
Theorem blacklisted_detection_unmatched iou_poly self blacklist
  img_idx img_id ann_set_filter img_gt k cat detection :
  In (k, cat) (cat_info self) -> In (name cat) blacklist ->
  get_anns (set_class_blacklist self blacklist) img_idx img_id ann_set_filter
  = Ok img_gt ->
  p_cat_id detection = k ->
  forall remaining, incl remaining img_gt ->
    calculate_tpfp iou_poly (set_class_blacklist self blacklist) detection
      remaining
    = Ok (mkTpfp (-1) 0).
Proof.
  intros Hin Hname Hget Hk remaining Hincl.
  apply get_anns_rows in Hget.
  assert (Hbl : In k (classes_blacklist_id (set_class_blacklist self blacklist))).
  { apply blacklist_ids. eauto. }
  assert (Hrem : Forall (fun rw => cat_id (snd rw) <> []
                                   /\ first_cat rw <> k) remaining).
  { apply Forall_forall. intros rw Hrw. apply Hincl in Hrw.
    rewrite Forall_forall in Hget. destruct (Hget rw Hrw) as [Hne Hno].
    split; [exact Hne |]. unfold first_cat.
    destruct (cat_id (snd rw)) as [| c cs]; [congruence |].
    inversion Hno; subst. simpl. intro Hc. subst c. contradiction. }
  rewrite calculate_tpfp_unfold.
  - cbv zeta.
    assert (Hs : same_cat_gt_of detection remaining = []).
    { unfold same_cat_gt_of. rewrite Hk. clear - Hrem.
      induction Hrem as [| rw rem [_ Hne] _ IH]; simpl; [reflexivity |].
      destruct (Z.eqb_spec (first_cat rw) k); [contradiction | exact IH]. }
    now rewrite Hs.
  - eapply Forall_impl; [| exact Hrem]. now intros rw [Hne _].
Qed.

Lemma blacklisted_detection_unmatched_witness :
  calculate_tpfp Sample.iou_one
    (set_class_blacklist Sample2.store ["note"%string])
    (mkProp [0; 0; 10; 10] 1 0 (9 # 10))
    [(10%Z, set_cat_id Sample2.ann10 [7%Z]);
     (11%Z, set_cat_id Sample2.ann11 [2%Z; 7%Z])]
  = Ok (mkTpfp (-1) 0).
Proof.
  apply (blacklisted_detection_unmatched Sample.iou_one Sample2.store
           ["note"%string] (Some 0%nat) None None
           [(10%Z, set_cat_id Sample2.ann10 [7%Z]);
            (11%Z, set_cat_id Sample2.ann11 [2%Z; 7%Z])]
           1%Z (mkCat "note" "deepscores")).
  - simpl. now left.
  - simpl. now left.
  - reflexivity.
  - reflexivity.
  - apply incl_refl.
Defined.

(** ** Categories *)

Lemma prefix_append x b : String.prefix x (String.append x b) = true.
Proof.
  induction x as [| c x IH]; simpl; [now destruct b |].
  destruct (Ascii.ascii_dec c c); [exact IH | congruence].
Qed.

Lemma str_contains_prefix x h : String.prefix x h = true -> str_contains x h = true.
Proof. intro H. destruct h; cbn [str_contains]; now rewrite H. Qed.

Lemma str_contains_middle a x b :
  str_contains x (String.append a (String.append x b)) = true.
Proof.
  induction a as [| c a IH].
  - change (String.append "" (String.append x b)) with (String.append x b).
    apply str_contains_prefix, prefix_append.
  - change (String.append (String c a) (String.append x b))
      with (String c (String.append a (String.append x b))).
    cbn [str_contains]. rewrite IH.
    now destruct (String.prefix x _).
Qed.

(** X6. [get_cats] after [set_class_blacklist]: no returned category has a
    blacklisted name; under a filter that is a list of names the result is
    exactly the non-blacklisted categories of the listed annotation sets;
    under a filter that is one string (as [load_annotations] stores it) the
    test is a substring test, so a non-blacklisted category passes whenever
    the name of its annotation set occurs anywhere inside the filter
    string. *)
Theorem get_cats_filter_and_blacklist self blacklist :
  let s := set_class_blacklist self blacklist in
  (forall kv, In kv (get_cats s) ->
              In kv (cat_info self) /\ ~ In (name (snd kv)) blacklist)
  /\ (forall l kv,
         chosen_ann_set self = ManySets l ->
         (In kv (get_cats s) <->
          In kv (cat_info self) /\ In (annotation_set (snd kv)) l
          /\ ~ In (name (snd kv)) blacklist))
  /\ (forall a b kv,
         chosen_ann_set self
         = OneSet (String.append a (String.append (annotation_set (snd kv)) b)) ->
         In kv (cat_info self) -> ~ In (name (snd kv)) blacklist ->
         In kv (get_cats s)).
Proof.
  cbv zeta. unfold get_cats, set_class_blacklist.
  cbn [cat_info chosen_ann_set classes_blacklist].
  assert (Hbl : forall n, negb (existsb (String.eqb n) blacklist) = true
                          <-> ~ In n blacklist).
  { intro n. rewrite negb_true_iff. split.
    - intros Hf Hin.
      assert (Ht : existsb (String.eqb n) blacklist = true).
      { apply existsb_exists. exists n. split; [exact Hin | apply String.eqb_refl]. }
      congruence.
    - intro Hn. destruct (existsb (String.eqb n) blacklist) eqn:E; [| reflexivity].
      apply existsb_exists in E. destruct E as (m & Hm & Heq).
      apply String.eqb_eq in Heq. subst m. contradiction. }
  split; [| split].
  - intros kv Hin. apply filter_In in Hin. destruct Hin as [Hin Hc].
    apply andb_true_iff in Hc. destruct Hc as [_ Hc]. split; [exact Hin |].
    now apply Hbl.
  - intros l kv Hl. rewrite Hl, filter_In, andb_true_iff, Hbl. cbn [in_ann_set_sel].
    assert (Hex : existsb (String.eqb (annotation_set (snd kv))) l = true
                  <-> In (annotation_set (snd kv)) l).
    { rewrite existsb_exists. split.
      - intros (m & Hm & Heq). apply String.eqb_eq in Heq. now subst m.
      - intro Hin. eexists. split; [exact Hin | apply String.eqb_refl]. }
    rewrite Hex. tauto.
  - intros a b kv Hs Hin Hn. apply filter_In. split; [exact Hin |].
    rewrite Hs. cbn [in_ann_set_sel]. rewrite str_contains_middle.
    now apply Hbl.
Qed.

Lemma get_cats_filter_and_blacklist_witness :
  In (7%Z, mkCat "notehead" "muscima")
     (get_cats (set_class_blacklist
                  (set_annotation_set_filter Sample2.store
                     (OneSet "deepscores+muscima_pp"))
                  ["rest"%string])).
Proof.
  apply (proj2 (proj2 (get_cats_filter_and_blacklist
                         (set_annotation_set_filter Sample2.store
                            (OneSet "deepscores+muscima_pp"))
                         ["rest"%string]))
           "deepscores+"%string "_pp"%string
           (7%Z, mkCat "notehead" "muscima")).
  - reflexivity.
  - simpl. auto.
  - simpl. intros [H | []]. discriminate.
Defined.

(** ** Loading annotations, images by index and by id *)

Lemma int_get_set_same {V : Type} (d : list (Z * V)) k v :
  int_get (int_set d k v) k = Ok v.
Proof.
  unfold int_get, int_set. induction d as [| [k' v'] d IH]; simpl.
  - now rewrite Z.eqb_refl.
  - destruct (Z.eqb k' k) eqn:E; simpl; rewrite E; [reflexivity | exact IH].
Qed.

Lemma int_get_set_other {V : Type} (d : list (Z * V)) k v k' :
  k' <> k -> int_get (int_set d k v) k' = int_get d k'.
Proof.
  intro Hne. unfold int_get, int_set. induction d as [| [k0 v0] d IH]; simpl.
  - destruct (Z.eqb_spec k k'); [congruence | reflexivity].
  - destruct (Z.eqb_spec k0 k) as [-> | Hk]; simpl.
    + destruct (Z.eqb_spec k k'); [congruence | reflexivity].
    + destruct (Z.eqb k0 k'); [reflexivity | exact IH].
Qed.

Section FoldSet.
Context {A V : Type} (key : A -> Z) (val : A -> V).

Lemma fold_int_set_other l : forall d k,
  ~ In k (map key l) ->
  int_get (fold_left (fun d a => int_set d (key a) (val a)) l d) k = int_get d k.
Proof.
  induction l as [| a l IH]; intros d k Hn; simpl; [reflexivity |].
  rewrite IH by (intro H; apply Hn; now right).
  apply int_get_set_other. intro H. apply Hn. left. now symmetry.
Qed.

Lemma fold_int_set_lookup l : forall d x,
  NoDup (map key l) -> In x l ->
  int_get (fold_left (fun d a => int_set d (key a) (val a)) l d) (key x)
  = Ok (val x).
Proof.
  induction l as [| a l IH]; intros d x Hnd Hin; [destruct Hin |].
  simpl in Hnd. inversion Hnd as [| ? ? Hnot Hnd']; subst. simpl.
  destruct Hin as [-> | Hin].
  - rewrite fold_int_set_other by exact Hnot. apply int_get_set_same.
  - now apply IH.
Qed.
End FoldSet.

Lemma enumerate_from_spec {A : Type} (l : list A) : forall s i x,
  In (i, x) (combine (seq s (List.length l)) l)
  <-> (s <= i)%nat /\ nth_error l (i - s) = Some x.
Proof.
  induction l as [| a l IH]; intros s i x; simpl.
  - split; [tauto |]. intros [_ H]. now destruct (i - s)%nat.
  - rewrite IH. split.
    + intros [H | [Hle Hn]].
      * inversion H; subst. split; [lia |]. now rewrite Nat.sub_diag.
      * split; [lia |]. replace (i - s)%nat with (S (i - S s)) by lia. exact Hn.
    + intros [Hle Hn]. destruct (i - s)%nat as [| m] eqn:E.
      * left. simpl in Hn. inversion Hn. f_equal. lia.
      * right. split; [lia |]. simpl in Hn.
        replace (i - S s)%nat with m by lia. exact Hn.
Qed.

Lemma enumerate_spec {A : Type} (l : list A) i x :
  In (i, x) (enumerate l) <-> nth_error l i = Some x.
Proof.
  unfold enumerate. rewrite enumerate_from_spec, Nat.sub_0_r.
  split; [tauto | split; [lia | assumption]].
Qed.

Lemma enumerate_snd {A : Type} (l : list A) : map snd (enumerate l) = l.
Proof.
  unfold enumerate. generalize 0%nat.
  induction l as [| a l IH]; intro s; simpl; [reflexivity |]. now rewrite IH.
Qed.

Lemma load_annotations_lookup self data f s i img :
  load_annotations self data f = Ok s ->
  NoDup (map image_id (af_images data)) ->
  nth_error (af_images data) i = Some img ->
  int_get (img_idx_lookup s) (image_id img) = Ok i
  /\ img_info_at s i = Ok img.
Proof.
  unfold load_annotations. intros H Hnd Hn. inv_bind H.
  inversion H; subst s. clear H. unfold img_info_at.
  cbn [img_idx_lookup img_info]. split.
  - apply (fold_int_set_lookup (fun iv : nat * image => image_id (snd iv)) fst
             (enumerate (af_images data)) _ (i, img)).
    + rewrite <- (map_map snd image_id), enumerate_snd. exact Hnd.
    + now apply enumerate_spec.
  - unfold getitem. now rewrite Hn.
Qed.

(** X7. After [load_annotations] on a file whose image ids are pairwise
    distinct, [get_imgs] by index and [get_imgs] by id agree: for indices
    [idxs] holding the images [imgs], both [get_imgs(idxs=idxs)] and
    [get_imgs(ids=[img['id'] for img in imgs])] return [imgs]; and [len] of
    the object is the number of images of the file. *)
Theorem load_annotations_get_imgs self data annotation_set_filter s idxs imgs :
  load_annotations self data annotation_set_filter = Ok s ->
  NoDup (map image_id (af_images data)) ->
  Forall2 (fun i img => nth_error (af_images data) i = Some img) idxs imgs ->
  get_imgs s (Some idxs) None = Ok imgs
  /\ get_imgs s None (Some (map image_id imgs)) = Ok imgs
  /\ OBBAnns_len s = List.length (af_images data).
Proof.
  intros Hload Hnd Hall. split; [| split].
  - unfold get_imgs. cbn [_xor_args bind]. apply Forall2_mapM.
    eapply Forall2_impl; [| exact Hall].
    intros i img Hn. exact (proj2 (load_annotations_lookup _ _ _ _ _ _ Hload Hnd Hn)).
  - unfold get_imgs. cbn [_xor_args bind]. apply Forall2_mapM.
    clear -Hload Hnd Hall.
    induction Hall as [| i img idxs imgs Hn _ IH]; simpl; constructor;
      [| exact IH].
    destruct (load_annotations_lookup _ _ _ _ _ _ Hload Hnd Hn) as [-> Hat].
    exact Hat.
  - unfold load_annotations in Hload. inv_bind Hload. inversion Hload.
    reflexivity.
Qed.

Lemma load_annotations_get_imgs_witness :
  get_imgs Sample2.store (Some [1%nat; 0%nat]) None
  = Ok [Sample2.img_b; Sample2.img_a]
  /\ get_imgs Sample2.store None (Some [200%Z; 100%Z])
     = Ok [Sample2.img_b; Sample2.img_a]
  /\ OBBAnns_len Sample2.store = 2%nat.
Proof.
  apply (load_annotations_get_imgs OBBAnns_init Sample2.file None Sample2.store
           [1%nat; 0%nat] [Sample2.img_b; Sample2.img_a]).
  - reflexivity.
  - simpl. repeat constructor; simpl; intuition discriminate.
  - repeat constructor.
Defined.

Lemma get_anns_by_idx self i f :
  get_anns self (Some i) None f
  = (img <- img_info_at self i ;; get_ann_ids self (ann_ids img) f).
Proof.
  unfold get_anns, img_info_at. cbn [_xor_args bind].
  now destruct (img_info self).
Qed.

Lemma get_anns_by_id self k f :
  get_anns self None (Some k) f
  = (i <- int_get (img_idx_lookup self) k ;;
     img <- img_info_at self i ;; get_ann_ids self (ann_ids img) f).
Proof.
  unfold get_anns, img_info_at. cbn [_xor_args bind].
  destruct (int_get (img_idx_lookup self) k); [| reflexivity]. cbn [bind].
  now destruct (img_info self).
Qed.

Lemma Forall2_compose {A B C : Type} (R : A -> B -> Prop) (S : B -> C -> Prop)
  (T : A -> C -> Prop) l m r :
  (forall a b c, R a b -> S b c -> T a c) ->
  Forall2 R l m -> Forall2 S m r -> Forall2 T l r.
Proof.
  intros HT H1. revert r. induction H1 as [| a b l m Hab _ IH]; intros r H2.
  - inversion H2. constructor.
  - inversion H2; subst. constructor; eauto.
Qed.

(** X8. [get_img_ann_pair] returns, image by image, what [get_imgs] and
    [get_anns] return: requested by indices (or by ids), its first component
    is the result of [get_imgs] and the i-th frame of its second component
    is [get_anns] of the i-th index (or id), under the same filter. *)
Theorem get_img_ann_pair_is_get_anns self ann_set_filter imgs anns :
  (forall idxs,
      get_img_ann_pair self (Some idxs) None ann_set_filter = Ok (imgs, anns) ->
      get_imgs self (Some idxs) None = Ok imgs
      /\ Forall2 (fun i a => get_anns self (Some i) None ann_set_filter = Ok a)
                 idxs anns)
  /\ (forall ids,
         get_img_ann_pair self None (Some ids) ann_set_filter = Ok (imgs, anns) ->
         get_imgs self None (Some ids) = Ok imgs
         /\ Forall2 (fun k a => get_anns self None (Some k) ann_set_filter = Ok a)
                    ids anns).
Proof.
  split.
  - intros idxs H. unfold get_img_ann_pair in H. cbn [_xor_args bind] in H.
    inv_bind H. inv_bind H. inversion H; subst. split; [exact E |].
    unfold get_imgs in E. cbn [_xor_args bind] in E.
    apply mapM_Forall2 in E, E0.
    eapply Forall2_compose; [| exact E | exact E0].
    intros i img a Hi Ha. cbv beta in *. rewrite get_anns_by_idx, Hi. exact Ha.
  - intros ids H. unfold get_img_ann_pair in H. cbn [_xor_args bind] in H.
    inv_bind H. inv_bind H. inversion H; subst. split; [exact E |].
    unfold get_imgs in E. cbn [_xor_args bind] in E.
    apply mapM_Forall2 in E, E0.
    eapply Forall2_compose; [| exact E | exact E0].
    intros k img a Hk Ha. cbv beta in *. rewrite get_anns_by_id.
    inv_bind Hk. rewrite E1. cbn [bind]. rewrite Hk. exact Ha.
Qed.

Lemma get_img_ann_pair_is_get_anns_witness :
  get_imgs Sample2.store (Some [1%nat]) None = Ok [Sample2.img_b]
  /\ Forall2 (fun i a => get_anns Sample2.store (Some i) None
                           (Some (OneSet "muscima")) = Ok a)
             [1%nat] [[(12%Z, set_cat_id Sample2.ann12 [7%Z])]].
Proof.
  apply (proj1 (get_img_ann_pair_is_get_anns Sample2.store
                  (Some (OneSet "muscima")) [Sample2.img_b]
                  [[(12%Z, set_cat_id Sample2.ann12 [7%Z])]])).
  reflexivity.
Defined.

(** ** Loading proposals, proposals by image *)

Lemma load_proposals_inv self props s :
  load_proposals self props = Ok s ->
  exists imgs idx p0 rows,
    img_info self = Some imgs
    /\ list_index (annotation_sets self) (pf_annotation_set props) = Ok idx
    /\ nth_error (pf_proposals props) 0 = Some p0
    /\ (List.length (jp_bbox p0) = 4%nat \/ List.length (jp_bbox p0) = 8%nat)
    /\ Forall2 (fun e p =>
                  int_get (img_idx_lookup self) (jp_img_id e) = Ok (img_idx p)
                  /\ p = prop_of_entry (img_idx p) e)
               (pf_proposals props) rows
    /\ s = with_proposals self (Some rows)
             (Nat.eqb (List.length (jp_bbox p0)) 8 || props_oriented self)
             (Some idx).
Proof.
  unfold load_proposals. intro H.
  destruct (img_info self) as [imgs |]; [| discriminate].
  inv_bind H. rename x into idx. inv_bind H. rename x into p0.
  unfold getitem in E0.
  destruct (nth_error (pf_proposals props) 0) as [p |] eqn:En; [| discriminate].
  inversion E0; subst p. clear E0.
  assert (Hrows : forall rows,
             mapM (fun prop =>
                     prop_img_idx <- int_get (img_idx_lookup self)
                                             (jp_img_id prop) ;;
                     Ok (mkProp (jp_bbox prop) (jp_cat_id prop) prop_img_idx
                                (jp_score prop)))
                  (pf_proposals props) = Ok rows ->
             Forall2 (fun e p =>
                        int_get (img_idx_lookup self) (jp_img_id e)
                        = Ok (img_idx p)
                        /\ p = prop_of_entry (img_idx p) e)
                     (pf_proposals props) rows).
  { intros rows Hm. apply mapM_Forall2 in Hm.
    eapply Forall2_impl; [| exact Hm].
    intros e p Hp. cbv beta in Hp. inv_bind Hp. inversion Hp; subst.
    split; [exact E0 | reflexivity]. }
  destruct (Nat.eqb (List.length (jp_bbox p0)) 4) eqn:E4;
    destruct (Nat.eqb (List.length (jp_bbox p0)) 8) eqn:E8;
    cbn [orb negb] in H; try discriminate;
    inv_bind H; inversion H; subst s; clear H;
    exists imgs, idx, p0, x; rewrite ?E8;
    (split; [reflexivity |]); (split; [exact E |]);
    (split; [reflexivity |]);
    (split; [first [left; now apply Nat.eqb_eq | right; now apply Nat.eqb_eq] |]);
    (split; [now apply Hrows | reflexivity]).
Qed.

(** X9. [load_proposals] returns exactly when annotations are loaded, the
    file's annotation set is one of the object's, the file has a first entry
    and that entry's bbox has 4 or 8 numbers, and the image id of every
    entry is in the lookup table. *)
Theorem load_proposals_ok_iff self props :
  is_ok (load_proposals self props) = true <->
  (img_info self <> None
   /\ In (pf_annotation_set props) (annotation_sets self)
   /\ (exists p0, nth_error (pf_proposals props) 0 = Some p0
                  /\ (List.length (jp_bbox p0) = 4%nat
                      \/ List.length (jp_bbox p0) = 8%nat))
   /\ Forall (fun e => is_ok (int_get (img_idx_lookup self) (jp_img_id e)) = true)
             (pf_proposals props)).
Proof.
  split.
  - destruct (load_proposals self props) as [s |] eqn:E; [| discriminate].
    intros _. destruct (load_proposals_inv _ _ _ E)
      as (imgs & idx & p0 & rows & Hi & Hidx & Hn & Hlen & Hrows & _).
    split; [congruence |]. split.
    { apply list_index_bound in Hidx. eapply nth_error_In; eauto. }
    split; [eauto |].
    apply Forall_forall. intros e He.
    destruct (Forall2_in_l _ _ _ Hrows e He) as (p & _ & Hp & _).
    now rewrite Hp.
  - intros (Himg & Hin & (p0 & Hn & Hlen) & Hall).
    unfold load_proposals.
    destruct (img_info self); [| congruence].
    destruct (list_index_in _ _ Hin) as [idx ->]. cbn [bind].
    unfold getitem. rewrite Hn. cbn [bind].
    assert (Hm : exists rows,
               mapM (fun prop =>
                       prop_img_idx <- int_get (img_idx_lookup self)
                                               (jp_img_id prop) ;;
                       Ok (mkProp (jp_bbox prop) (jp_cat_id prop) prop_img_idx
                                  (jp_score prop)))
                    (pf_proposals props) = Ok rows).
    { clear -Hall. induction Hall as [| e l He _ [rows IH]]; simpl; [eauto |].
      destruct (int_get (img_idx_lookup self) (jp_img_id e));
        [| discriminate].
      cbn [bind]. rewrite IH. cbn [bind]. eauto. }
    destruct Hm as [rows Hm].
    destruct Hlen as [H4 | H8].
    + rewrite H4. cbn [Nat.eqb orb negb]. rewrite Hm. reflexivity.
    + rewrite H8. cbn [Nat.eqb orb negb]. rewrite Hm. reflexivity.
Qed.

(** X10. What [load_proposals] stores: one row per entry of the file, in
    file order, with the entry's bbox, category and score and the index its
    image id resolves to; the position of the file's annotation set among
    the object's; and the annotation side of the object untouched. *)
Theorem load_proposals_contents self props s :
  load_proposals self props = Ok s ->
  (exists rows,
      proposals s = Some rows
      /\ Forall2 (fun e p =>
                    bbox p = jp_bbox e /\ p_cat_id p = jp_cat_id e
                    /\ score p = jp_score e
                    /\ int_get (img_idx_lookup self) (jp_img_id e)
                       = Ok (img_idx p))
                 (pf_proposals props) rows)
  /\ (exists idx,
         prop_ann_set_idx s = Some idx
         /\ nth_error (annotation_sets self) idx = Some (pf_annotation_set props))
  /\ img_info s = img_info self /\ img_idx_lookup s = img_idx_lookup self
  /\ ann_info s = ann_info self /\ cat_info s = cat_info self
  /\ chosen_ann_set s = chosen_ann_set self
  /\ classes_blacklist_id s = classes_blacklist_id self.
Proof.
  intro H. destruct (load_proposals_inv _ _ _ H)
    as (imgs & idx & p0 & rows & Hi & Hidx & Hn & Hlen & Hrows & ->).
  split.
  - exists rows. split; [reflexivity |].
    eapply Forall2_impl; [| exact Hrows].
    intros e p [Hl Hp]. rewrite Hp at 1 2 3. cbn. auto.
  - split; [| repeat split].
    exists idx. split; [reflexivity | now apply list_index_bound].
Qed.

Lemma load_proposals_contents_witness :
  (exists rows,
      proposals Sample2.loaded = Some rows
      /\ Forall2 (fun e p =>
                    bbox p = jp_bbox e /\ p_cat_id p = jp_cat_id e
                    /\ score p = jp_score e
                    /\ int_get (img_idx_lookup Sample2.store) (jp_img_id e)
                       = Ok (img_idx p))
                 (pf_proposals Sample2.props_file) rows)
  /\ (exists idx,
         prop_ann_set_idx Sample2.loaded = Some idx
         /\ nth_error (annotation_sets Sample2.store) idx
            = Some (pf_annotation_set Sample2.props_file))
  /\ img_info Sample2.loaded = img_info Sample2.store
  /\ img_idx_lookup Sample2.loaded = img_idx_lookup Sample2.store
  /\ ann_info Sample2.loaded = ann_info Sample2.store
  /\ cat_info Sample2.loaded = cat_info Sample2.store
  /\ chosen_ann_set Sample2.loaded = chosen_ann_set Sample2.store
  /\ classes_blacklist_id Sample2.loaded = classes_blacklist_id Sample2.store.
Proof.
  apply (load_proposals_contents Sample2.store Sample2.props_file Sample2.loaded).
  reflexivity.
Defined.

(** X11. The oriented flag is never cleared: after a file whose first entry
    has 8 coordinates has been loaded, loading any further file, also one of
    4-coordinate boxes only, leaves [props_oriented] set, and
    [calculate_tpfp] then scores a detection against its single candidate
    with [iou_poly] on the candidate's oriented box. *)
Theorem props_oriented_sticky iou_poly self pf1 s1 pf2 s2 p0 :
  load_proposals self pf1 = Ok s1 ->
  nth_error (pf_proposals pf1) 0 = Some p0 ->
  List.length (jp_bbox p0) = 8%nat ->
  load_proposals s1 pf2 = Ok s2 ->
  props_oriented s2 = true
  /\ forall detection rw,
      candidate_overlaps iou_poly s2 detection [rw]
      = Ok [(fst rw, Fin (iou_poly (o_bbox (snd rw))
                            (map (fun x => x * 1) (bbox detection))))].
Proof.
  intros H1 Hn H8 H2.
  destruct (load_proposals_inv _ _ _ H1)
    as (_ & idx1 & p0' & rows1 & _ & _ & Hn' & _ & _ & Hs1).
  rewrite Hn in Hn'. inversion Hn'; subst p0'.
  destruct (load_proposals_inv _ _ _ H2)
    as (_ & idx2 & q0 & rows & _ & _ & _ & _ & _ & Hs2).
  assert (Ho : props_oriented s2 = true).
  { rewrite Hs2, Hs1. cbn [props_oriented with_proposals].
    rewrite H8. cbn [Nat.eqb orb]. apply orb_true_r. }
  split; [exact Ho |].
  intros detection rw. now apply candidate_overlaps_oriented_one.
Qed.

Lemma props_oriented_sticky_witness :
  exists s2,
    load_proposals Sample.oriented_store Sample.aligned_file = Ok s2
    /\ props_oriented s2 = true.
Proof.
  eexists. split; [reflexivity |].
  apply (proj1 (props_oriented_sticky Sample.iou_one Sample.store
                  Sample.oriented_file Sample.oriented_store
                  Sample.aligned_file _
                  (mkJsonProp [0; 0; 10; 0; 10; 10; 0; 10] 1 7 (9 # 10))
                  eq_refl eq_refl eq_refl eq_refl)).
Defined.

Lemma filter_rows_of_entries self i : forall entries rows,
  Forall2 (fun e p =>
             int_get (img_idx_lookup self) (jp_img_id e) = Ok (img_idx p)
             /\ p = prop_of_entry (img_idx p) e)
          entries rows ->
  filter (fun p => existsb (Nat.eqb (img_idx p)) [i]) rows
  = map (prop_of_entry i) (filter (resolves_to self i) entries).
Proof.
  induction 1 as [| e p entries rows [Hl Hp] _ IH]; [reflexivity |].
  cbn [filter]. rewrite IH.
  replace (resolves_to self i e) with (Nat.eqb (img_idx p) i)
    by (unfold resolves_to; now rewrite Hl).
  cbn [existsb]. rewrite orb_false_r.
  destruct (Nat.eqb_spec (img_idx p) i) as [Hi | Hi]; [| reflexivity].
  cbn [map]. f_equal. rewrite Hp. now rewrite Hi.
Qed.

(** X12. After [load_proposals], [get_img_props] for an image id [k] known
    to the lookup table returns, in file order, the stored rows of exactly
    those entries of the file whose image id resolves to the same index as
    [k]; asked by that index it returns the same rows; for an id unknown to
    the table it raises [KeyError]; and on an object without proposals it
    fails with [AttributeError]. *)
Theorem get_img_props_after_load self props s k i :
  load_proposals self props = Ok s ->
  int_get (img_idx_lookup self) k = Ok i ->
  get_img_props s None (Some [k])
  = Attr (Ok (map (prop_of_entry i)
                  (filter (resolves_to self i) (pf_proposals props))))
  /\ get_img_props s (Some [i]) None = get_img_props s None (Some [k])
  /\ (forall k', int_get (img_idx_lookup self) k' = Raise (KeyError (KInt k')) ->
                 get_img_props s None (Some [k'])
                 = Attr (Raise (KeyError (KInt k'))))
  /\ (proposals self = None ->
      get_img_props self None (Some [k]) = AttributeError).
Proof.
  intros H Hk. destruct (load_proposals_inv _ _ _ H)
    as (imgs & idx & p0 & rows & _ & _ & _ & _ & Hrows & ->).
  unfold get_img_props.
  cbn [_xor_args mapM bind img_idx_lookup with_proposals proposals].
  rewrite Hk. cbn [bind].
  rewrite (filter_rows_of_entries self i _ _ Hrows).
  split; [reflexivity |]. split; [reflexivity |]. split.
  - intros k' Hk'. now rewrite Hk'.
  - intro Hnone. now rewrite Hnone.
Qed.

Lemma get_img_props_after_load_witness :
  get_img_props Sample2.loaded None (Some [100%Z])
  = Attr (Ok [mkProp [0; 0; 10; 10] 1 0 (9 # 10);
              mkProp [20; 20; 30; 30] 2 0 (7 # 10);
              mkProp [1; 1; 9; 9] 1 0 (6 # 10)]).
Proof.
  apply (proj1 (get_img_props_after_load Sample2.store Sample2.props_file
                  Sample2.loaded 100%Z 0%nat eq_refl eq_refl)).
Defined.

(** ** The corpus loop *)

Lemma np_unique_nat_spec l :
  NoDup (np_unique_nat l) /\ forall x, In x (np_unique_nat l) <-> In x l.
Proof.
  unfold np_unique_nat. split; [apply NoDup_nodup |].
  intro x. rewrite nodup_In. split; intro H.
  - eapply Permutation_in; [symmetry; apply sort_by_perm | exact H].
  - eapply Permutation_in; [apply sort_by_perm | exact H].
Qed.

Lemma partition_by_index (props : list proposal) : forall idxs,
  NoDup idxs -> (forall p, In p props -> In (img_idx p) idxs) ->
  Permutation
    (flat_map (fun i => filter (fun p => Nat.eqb (img_idx p) i) props) idxs)
    props.
Proof.
  induction props as [| p props IH]; intros idxs Hnd Hcov.
  - induction idxs; simpl; [constructor | auto].
    apply IHidxs; [now inversion Hnd | intros ? []].
  - specialize (IH idxs Hnd (fun q Hq => Hcov q (or_intror Hq))).
    assert (Hp : In (img_idx p) idxs) by (apply Hcov; now left).
    transitivity
      (p :: flat_map (fun i => filter (fun q => Nat.eqb (img_idx q) i) props)
              idxs);
      [| now constructor].
    clear IH Hcov.
    induction idxs as [| i idxs IHi]; [destruct Hp |].
    inversion Hnd as [| ? ? Hnot Hnd']; subst. simpl.
    destruct (Nat.eqb_spec (img_idx p) i) as [Heq | Hne].
    + simpl. constructor. apply Permutation_app_head.
      assert (Hni : ~ In (img_idx p) idxs) by (rewrite Heq; exact Hnot).
      clear -Hni. induction idxs as [| j idxs IHj]; simpl; [constructor |].
      destruct (Nat.eqb_spec (img_idx p) j) as [Hj | Hj].
      * exfalso. apply Hni. now left.
      * apply Permutation_app_head. apply IHj. intro H. apply Hni. now right.
    + destruct Hp as [Hp | Hp]; [congruence |].
      rewrite (IHi Hnd' Hp). apply Permutation_sym, Permutation_middle.
Qed.

Lemma map_keys_of_records recs dets :
  map ov_score recs = map score dets ->
  map ov_cat_id recs = map p_cat_id dets ->
  map ov_key recs = map prop_key dets.
Proof.
  revert dets; induction recs as [| r recs IH]; intros [| d dets] Hs Hc;
    simpl in *; try discriminate; [reflexivity |].
  inversion Hs. inversion Hc. unfold ov_key at 1, prop_key at 1.
  f_equal; [congruence | now apply IH].
Qed.

Lemma match_images_inv iou_poly self props imgs : forall acc out,
  match_images iou_poly self props imgs acc = Ok out ->
  exists recs,
    out = acc ++ recs
    /\ map ov_key recs
       = flat_map (fun i => map prop_key
                              (sort_values_score
                                 (filter (fun p => Nat.eqb (img_idx p) i) props)))
                  imgs.
Proof.
  induction imgs as [| i imgs IH]; intros acc out H; simpl in H.
  - inversion H. exists []. now rewrite app_nil_r.
  - inv_bind H. inv_bind H.
    destruct (match_image_inv _ _ _ _ _ _ E0) as (r1 & -> & Hs & Hc & _).
    destruct (IH _ _ H) as (r2 & -> & Hk).
    exists (r1 ++ r2). split; [now rewrite app_assoc |].
    rewrite map_app. cbn [flat_map]. f_equal; [| exact Hk].
    now apply map_keys_of_records.
Qed.

Lemma match_images_keys_perm iou_poly self props out :
  match_images iou_poly self props (np_unique_nat (map img_idx props)) [] = Ok out ->
  Permutation (map ov_key out) (map prop_key props).
Proof.
  intro H. destruct (match_images_inv _ _ _ _ _ _ H) as (recs & -> & Hk).
  cbn [app]. rewrite Hk.
  destruct (np_unique_nat_spec (map img_idx props)) as [Hnd Hin].
  transitivity
    (map prop_key
       (flat_map (fun i => filter (fun p => Nat.eqb (img_idx p) i) props)
                 (np_unique_nat (map img_idx props)))).
  - clear. induction (np_unique_nat (map img_idx props)) as [| i l IH];
      simpl; [constructor |].
    rewrite map_app. apply Permutation_app; [| exact IH].
    apply Permutation_map, Permutation_sym, sort_values_score_perm.
  - apply Permutation_map, partition_by_index; [exact Hnd |].
    intros p Hp. apply Hin. now apply in_map.
Qed.

(** X13. The corpus loop of [calculate_metrics] yields exactly one record
    per loaded proposal: the records' (category, score) pairs are a
    rearrangement of the proposals', whatever images the proposals lie on. *)
Theorem match_images_one_record_per_proposal iou_poly self props out :
  match_images iou_poly self props (np_unique_nat (map img_idx props)) [] = Ok out ->
  Permutation (map ov_key out) (map prop_key props)
  /\ List.length out = List.length props.
Proof.
  intro H. pose proof (match_images_keys_perm _ _ _ _ H) as Hperm.
  split; [exact Hperm |].
  apply Permutation_length in Hperm. now rewrite !length_map in Hperm.
Qed.

Lemma match_images_one_record_per_proposal_witness :
  exists out,
    match_images Sample.iou_one Sample2.loaded Sample2.props
      (np_unique_nat (map img_idx Sample2.props)) [] = Ok out
    /\ Permutation (map ov_key out) (map prop_key Sample2.props)
    /\ List.length out = 4%nat.
Proof.
  eexists. split; [vm_compute; reflexivity |].
  apply (match_images_one_record_per_proposal Sample.iou_one Sample2.loaded
           Sample2.props).
  vm_compute. reflexivity.
Defined.

Lemma bool_index_rows {A : Type} (l : list A) : forall mask r,
  bool_index l mask = Ok r ->
  forall x, In x r ->
    exists n, nth_error l n = Some x /\ nth_error mask n = Some true.
Proof.
  induction l as [| a l IH]; intros [| b mask] r H x Hx; simpl in H;
    try discriminate.
  - inversion H; subst. destruct Hx.
  - inv_bind H. destruct b; inversion H; subst.
    + destruct Hx as [<- | Hx]; [now exists 0%nat |].
      destruct (IH _ _ E x Hx) as (n & H1 & H2). now exists (S n).
    + destruct (IH _ _ E x Hx) as (n & H1 & H2). now exists (S n).
Qed.

Lemma mapM_nth {A B : Type} (f : A -> result B) (l : list A) : forall r n x,
  mapM f l = Ok r -> nth_error l n = Some x ->
  exists y, nth_error r n = Some y /\ f x = Ok y.
Proof.
  induction l as [| a l IH]; intros r n x H Hn; [now destruct n |].
  simpl in H. inv_bind H. inv_bind H. inversion H; subst.
  destruct n as [| n]; simpl in *.
  - inversion Hn; subst. eauto.
  - eauto.
Qed.

Lemma calculate_tpfp_shape iou_poly self detection img_gt t :
  calculate_tpfp iou_poly self detection img_gt = Ok t ->
  (bbox_id t = (-1)%Z /\ overlap t = 0)
  \/ (reserve_thr < overlap t
      /\ exists rw, In rw img_gt /\ fst rw = bbox_id t
                    /\ first_cat rw = p_cat_id detection).
Proof.
  unfold calculate_tpfp. intro H.
  inv_bind H. rename x into cats. inv_bind H. rename x into same.
  destruct (Nat.ltb 0 (List.length same)); [| inversion H; now left].
  inv_bind H. rename x into ovs.
  destruct (series_max ovs) as [m |]; [| inversion H; now left].
  unfold Qgt_bool in H.
  destruct (Qle_bool m reserve_thr) eqn:Em; cbn [negb] in H;
    [inversion H; now left |].
  inv_bind H. rename E2 into E3.
  inversion H; subst t. clear H. cbn [bbox_id overlap]. right.
  split.
  { apply Qnot_le_lt. intro Hle. apply Qle_bool_iff in Hle. congruence. }
  apply idxmax_in in E3.
  rewrite (candidate_overlaps_labels _ _ _ _ _ E1) in E3.
  apply in_map_iff in E3. destruct E3 as (rw & Hl & Hrw).
  destruct (bool_index_rows _ _ _ E0 rw Hrw) as (n & Hn & Hmask).
  exists rw. split; [eapply nth_error_In; eauto |]. split; [exact Hl |].
  destruct (mapM_nth _ _ _ _ _ E Hn) as (c & Hc & Hget).
  rewrite nth_error_map, Hc in Hmask. simpl in Hmask.
  inversion Hmask as [Heq]. apply Z.eqb_eq in Heq. subst c.
  unfold first_cat. unfold getitem in Hget.
  destruct (cat_id (snd rw)); [discriminate |]. simpl in *. now inversion Hget.
Qed.

Lemma drop_incl {A : Type} (df df' : list (Z * A)) label :
  drop df label = Ok df' -> incl df' df.
Proof.
  unfold drop. destruct (existsb _ df); [| discriminate].
  intro H. inversion H. intros rw Hrw. now apply filter_In in Hrw.
Qed.

Lemma record_shape_incl gt gt' r :
  incl gt' gt -> record_shape gt' r -> record_shape gt r.
Proof.
  intros Hincl [H | [Hlt (rw & Hin & Hrest)]]; [now left |].
  right. split; [exact Hlt |]. exists rw. split; [now apply Hincl | exact Hrest].
Qed.

(** X14. Every record the loop over an image's detections appends is either
    unmatched, (-1, overlap 0), or carries an overlap above the reservation
    threshold 0.2 together with the id of a ground-truth row of that image
    whose category is the detection's own. *)
Theorem match_image_record_shape iou_poly self img_props : forall img_gt acc out,
  match_image iou_poly self img_props img_gt acc = Ok out ->
  exists recs,
    out = acc ++ recs
    /\ List.length recs = List.length img_props
    /\ Forall (record_shape img_gt) recs.
Proof.
  induction img_props as [| det rest IH]; intros img_gt acc out H; simpl in H.
  - inversion H. exists []. rewrite app_nil_r. repeat split. constructor.
  - inv_bind H. rename x into t. cbv zeta in H.
    pose proof (calculate_tpfp_shape _ _ _ _ _ E) as Hshape.
    assert (Hr : record_shape img_gt
                   (mkOv (bbox_id t) (overlap t) (p_cat_id det) (score det))).
    { exact Hshape. }
    destruct (negb (Z.eqb (bbox_id t) (-1))).
    + inv_bind H. destruct (IH _ _ _ H) as (recs & -> & Hlen & Hall).
      exists (mkOv (bbox_id t) (overlap t) (p_cat_id det) (score det) :: recs).
      rewrite <- app_assoc. split; [reflexivity |].
      split; [simpl; now rewrite Hlen |].
      constructor; [exact Hr |].
      eapply Forall_impl; [| exact Hall].
      intro r. apply record_shape_incl. eapply drop_incl; eauto.
    + destruct (IH _ _ _ H) as (recs & -> & Hlen & Hall).
      exists (mkOv (bbox_id t) (overlap t) (p_cat_id det) (score det) :: recs).
      rewrite <- app_assoc. split; [reflexivity |].
      split; [simpl; now rewrite Hlen |]. now constructor.
Qed.

Lemma match_image_record_shape_witness :
  exists recs,
    [mkOv 1 (100 # 100) 1 (5 # 10); mkOv (-1) 0 1 (9 # 10)] = [] ++ recs
    /\ List.length recs = 2%nat
    /\ Forall (record_shape [(1%Z, Sample.note_a); (2%Z, Sample.note_b)]) recs.
Proof.
  apply (match_image_record_shape Sample.iou_one Sample.aligned_store
           (sort_values_score Sample.aligned_props)
           [(1%Z, Sample.note_a); (2%Z, Sample.note_b)] []).
  vm_compute. reflexivity.
Defined.

(** On records of that shape, counted in one order, two thresholds that
    both lie in (0, 0.2] give the same entry. *)
Lemma entry_of_low_thresholds img_gt sorted nr_gt t1 t2 :
  Forall (record_shape img_gt) sorted ->
  0 < t1 -> t1 <= reserve_thr -> 0 < t2 -> t2 <= reserve_thr ->
  entry_of nr_gt sorted t1 = entry_of nr_gt sorted t2.
Proof.
  intros Hall H1 H1' H2 H2'.
  assert (Hb : forall r, record_shape img_gt r ->
                         Qle_bool t1 (ov_overlap r) = Qle_bool t2 (ov_overlap r)).
  { intros r [[_ H0] | [Hlt _]].
    - rewrite H0.
      assert (E1 : Qle_bool t1 0 = false).
      { destruct (Qle_bool t1 0) eqn:E; [| reflexivity].
        apply Qle_bool_iff in E. exfalso. exact (Qlt_not_le _ _ H1 E). }
      assert (E2 : Qle_bool t2 0 = false).
      { destruct (Qle_bool t2 0) eqn:E; [| reflexivity].
        apply Qle_bool_iff in E. exfalso. exact (Qlt_not_le _ _ H2 E). }
      now rewrite E1, E2.
    - assert (E1 : Qle_bool t1 (ov_overlap r) = true).
      { apply Qle_bool_iff, Qlt_le_weak. eapply Qle_lt_trans; eauto. }
      assert (E2 : Qle_bool t2 (ov_overlap r) = true).
      { apply Qle_bool_iff, Qlt_le_weak. eapply Qle_lt_trans; eauto. }
      now rewrite E1, E2. }
  assert (Htp : tp_sum_of sorted t1 = tp_sum_of sorted t2).
  { unfold tp_sum_of, Qge_bool. f_equal. apply map_ext_in.
    intros r Hr. apply Hb. rewrite Forall_forall in Hall. now apply Hall. }
  assert (Hfp : fp_sum_of sorted t1 = fp_sum_of sorted t2).
  { unfold fp_sum_of, Qlt_bool. f_equal. apply map_ext_in.
    intros r Hr. f_equal. apply Hb. rewrite Forall_forall in Hall. now apply Hall. }
  unfold entry_of. cbv zeta. now rewrite Htp, Hfp.
Qed.

Lemma insert_by_last {A : Type} (le : A -> A -> bool) x l :
  Forall (fun y => le x y = false) l -> insert_by le x l = l ++ [x].
Proof.
  induction 1 as [| y l Hy _ IH]; simpl; [reflexivity |].
  now rewrite Hy, IH.
Qed.

(** Rows whose scores strictly decrease are left as they are by the sort of
    a pass. *)
Lemma sort_by_score_desc_fixed rows :
  StronglySorted (fun r1 r2 => ov_score r2 < ov_score r1) rows ->
  sort_by_score_desc rows = rows.
Proof.
  intro H. unfold sort_by_score_desc.
  assert (E : sort_by (fun r1 r2 => Qle_bool (ov_score r1) (ov_score r2)) rows
              = rev rows).
  { induction H as [| r rows Hs IH Hr]; [reflexivity |].
    cbn [sort_by rev]. rewrite IH. apply insert_by_last.
    apply Forall_forall. intros y Hy. apply in_rev in Hy.
    rewrite Forall_forall in Hr. specialize (Hr y Hy). cbv beta in Hr.
    destruct (Qle_bool (ov_score r) (ov_score y)) eqn:E; [| reflexivity].
    apply Qle_bool_iff in E. exfalso. exact (Qlt_not_le _ _ Hr E). }
  rewrite E. apply rev_involutive.
Qed.

(** X15. On the records the matcher produces, [_evaluate_overlaps] cannot
    tell apart two thresholds that both lie in (0, 0.2]: asked for either
    alone it reports the same entry; asked for both in one call it reports
    that entry twice when no two records share a score.  Records that share
    a score change places from one pass of the loop to the next, and the two
    entries can then differ: with a matched and an unmatched record of one
    score the mean recall is 1/4 at 0.1 and 1/2 at 0.2. *)
Theorem low_thresholds_coincide series_eq_seq self bc n img_gt rows t1 t2 :
  nr_gt_of series_eq_seq self bc = Ok n ->
  Forall (record_shape img_gt) rows ->
  0 < t1 -> t1 <= reserve_thr -> 0 < t2 -> t2 <= reserve_thr ->
  (exists d,
      _evaluate_overlaps series_eq_seq self (Array2D rows) [t1] bc
      = Ok [(t1, d)]
      /\ _evaluate_overlaps series_eq_seq self (Array2D rows) [t2] bc
         = Ok [(t2, d)])
  /\ (~ t1 == t2 ->
      StronglySorted (fun r1 r2 => ov_score r2 < ov_score r1)
        (sort_by_score_desc rows) ->
      exists d,
        _evaluate_overlaps series_eq_seq self (Array2D rows) [t1; t2] bc
        = Ok [(t1, d); (t2, d)])
  /\ (exists d1 d2,
         _evaluate_overlaps Sample.eq_all Sample.aligned_store
           (Array2D [mkOv 1 1 1 (1 # 2); mkOv (-1) 0 1 (1 # 2)])
           [1 # 10; 2 # 10] ByNone
         = Ok [(1 # 10, d1); (2 # 10, d2)]
         /\ str_get d1 "recall" = Ok (2 # 8)
         /\ str_get d2 "recall" = Ok (4 # 8)).
Proof.
  intros Hn Hall H1 H1' H2 H2'.
  assert (Hs : Forall (record_shape img_gt) (sort_by_score_desc rows)).
  { apply Forall_forall. intros r Hr. rewrite Forall_forall in Hall.
    apply Hall. eapply Permutation_in; [apply sort_by_score_desc_perm | exact Hr]. }
  pose proof (entry_of_low_thresholds img_gt _ n t1 t2 Hs H1 H1' H2 H2') as He.
  split; [| split].
  - exists (entry_of n (sort_by_score_desc rows) t1).
    rewrite !(evaluate_overlaps_single _ _ _ n) by exact Hn.
    split; [reflexivity | now rewrite He].
  - intros Hne Hstrict.
    exists (entry_of n (sort_by_score_desc rows) t1).
    unfold _evaluate_overlaps.
    rewrite evaluate_loop_cons, Hn. cbn [bind].
    rewrite evaluate_loop_cons, Hn. cbn [bind evaluate_loop].
    rewrite (sort_by_score_desc_fixed _ Hstrict), <- He.
    unfold num_set. cbn [dict_set].
    destruct (Qeq_bool t1 t2) eqn:E; [| reflexivity].
    apply Qeq_bool_iff in E. contradiction.
  - do 2 eexists. split; [vm_compute; reflexivity |]. split; reflexivity.
Qed.

Lemma low_thresholds_coincide_witness :
  exists d,
    _evaluate_overlaps Sample.eq_all Sample.aligned_store
      (Array2D [mkOv (-1) 0 1 (9 # 10); mkOv 1 (100 # 100) 1 (5 # 10)])
      [1 # 10; 2 # 10] ByNone
    = Ok [(1 # 10, d); (2 # 10, d)].
Proof.
  refine (proj1 (proj2 (low_thresholds_coincide Sample.eq_all
                          Sample.aligned_store ByNone 2
                          [(1%Z, Sample.note_a); (2%Z, Sample.note_b)]
                          [mkOv (-1) 0 1 (9 # 10); mkOv 1 (100 # 100) 1 (5 # 10)]
                          (1 # 10) (2 # 10) eq_refl _ eq_refl _ eq_refl _))
            _ _).
  - constructor; [left; split; reflexivity |].
    constructor; [| constructor]. right. split; [reflexivity |].
    exists (1%Z, Sample.note_a). split; [now left | split; reflexivity].
  - unfold reserve_thr. discriminate.
  - unfold reserve_thr. discriminate.
  - discriminate.
  - repeat constructor.
Defined.

(** ** The evaluator's order and counts *)

(** X16. The order in which [_evaluate_overlaps] counts: the records
    rearranged so that scores never increase. *)
Theorem sort_by_score_desc_sorted rows :
  Permutation (sort_by_score_desc rows) rows
  /\ StronglySorted (fun r1 r2 => ov_score r2 <= ov_score r1)
       (sort_by_score_desc rows).
Proof.
  split; [apply sort_by_score_desc_perm |].
  unfold sort_by_score_desc.
  apply (StronglySorted_rev (fun r1 r2 => ov_score r1 <= ov_score r2)).
  apply Sorted_StronglySorted.
  - intros x y z. apply Qle_trans.
  - apply sort_by_sorted.
    + intros x y E. now apply Qle_bool_iff.
    + intros x y E. apply Qlt_le_weak, Qnot_le_lt. intro Hle.
      apply Qle_bool_iff in Hle. congruence.
Qed.

Lemma cumsum_from_pair bs : forall a b i t f,
  nth_error (cumsum_from a bs) i = Some t ->
  nth_error (cumsum_from b (map negb bs)) i = Some f ->
  exists ta fb,
    t = inject_Z ta /\ f = inject_Z fb
    /\ (ta + fb = a + b + Z.of_nat (S i))%Z /\ (a <= ta)%Z /\ (b <= fb)%Z.
Proof.
  induction bs as [| c bs IH]; intros a b i t f Ht Hf;
    [now destruct i |].
  destruct i as [| i]; simpl in Ht, Hf.
  - inversion Ht; inversion Hf; subst. do 2 eexists.
    split; [reflexivity |]. split; [reflexivity |]. destruct c; simpl; lia.
  - destruct (IH _ _ _ _ _ Ht Hf) as (ta & fb & -> & -> & Hsum & Ha & Hb).
    exists ta, fb. split; [reflexivity |]. split; [reflexivity |].
    destruct c; simpl in *; lia.
Qed.

Lemma fp_mask_is_negation sorted thr :
  map (fun r => Qlt_bool (ov_overlap r) thr) sorted
  = map negb (map (fun r => Qge_bool (ov_overlap r) thr) sorted).
Proof. now rewrite map_map. Qed.

Lemma tp_fp_at sorted thr i t f :
  nth_error (tp_sum_of sorted thr) i = Some t ->
  nth_error (fp_sum_of sorted thr) i = Some f ->
  exists ta fb,
    t = inject_Z ta /\ f = inject_Z fb
    /\ (ta + fb = Z.of_nat (S i))%Z /\ (0 <= ta)%Z /\ (0 <= fb)%Z.
Proof.
  unfold tp_sum_of, fp_sum_of, cumsum. rewrite fp_mask_is_negation.
  intros Ht Hf. destruct (cumsum_from_pair _ _ _ _ _ _ Ht Hf)
    as (ta & fb & H1 & H2 & H3 & H4 & H5).
  exists ta, fb. split; [exact H1 |]. split; [exact H2 |].
  split; [lia |]. split; assumption.
Qed.

(** X17. Along the sorted records every record is counted exactly once, as
    a true or as a false positive: at every position [i] (from 0) the
    cumulative counts are non-negative and add up to [i + 1]. *)
Theorem tp_fp_partition sorted iou_thr i t f :
  nth_error (tp_sum_of sorted iou_thr) i = Some t ->
  nth_error (fp_sum_of sorted iou_thr) i = Some f ->
  t + f == inject_Z (Z.of_nat (S i)) /\ 0 <= t /\ 0 <= f.
Proof.
  intros Ht Hf.
  destruct (tp_fp_at _ _ _ _ _ Ht Hf) as (ta & fb & -> & -> & Hs & Ha & Hb).
  split; [| split].
  - rewrite <- Hs, inject_Z_plus. reflexivity.
  - change 0 with (inject_Z 0). now rewrite <- Zle_Qle.
  - change 0 with (inject_Z 0). now rewrite <- Zle_Qle.
Qed.

Lemma tp_fp_partition_witness :
  (1 # 1) + (2 # 1) == inject_Z (Z.of_nat 3) /\ 0 <= 1 # 1 /\ 0 <= 2 # 1.
Proof.
  apply (tp_fp_partition
           [mkOv (-1) 0 1 (9 # 10); mkOv 1 (100 # 100) 1 (5 # 10);
            mkOv (-1) 0 1 (4 # 10)]
           (1 # 2) 2).
  - reflexivity.
  - reflexivity.
Defined.

(** ** Bounds of the curves and of the average precision *)

Lemma np_spacing_1_pos : 0 < np_spacing_1.
Proof. reflexivity. Qed.

Lemma in_combine_nth {A B : Type} (l : list A) : forall (r : list B) x y,
  In (x, y) (combine l r) ->
  exists i, nth_error l i = Some x /\ nth_error r i = Some y.
Proof.
  induction l as [| a l IH]; intros [| b r] x y H; simpl in H; try destruct H.
  - inversion H; subst. now exists 0%nat.
  - destruct (IH _ _ _ H) as (i & H1 & H2). now exists (S i).
Qed.

Lemma precision_of_unit sorted thr :
  Forall unit_range (precision_of (tp_sum_of sorted thr) (fp_sum_of sorted thr)).
Proof.
  unfold precision_of. apply Forall_forall. intros p Hp.
  apply in_map_iff in Hp. destruct Hp as ([t f] & <- & Hin).
  destruct (in_combine_nth _ _ _ _ Hin) as (i & Ht & Hf).
  destruct (tp_fp_at _ _ _ _ _ Ht Hf) as (ta & fb & -> & -> & _ & Ha & Hb).
  cbn [fst snd]. pose proof np_spacing_1_pos as He.
  assert (H0 : 0 <= inject_Z ta)
    by (change 0 with (inject_Z 0); now rewrite <- Zle_Qle).
  assert (H1 : 0 <= inject_Z fb)
    by (change 0 with (inject_Z 0); now rewrite <- Zle_Qle).
  split.
  - apply Qle_shift_div_l; lra.
  - apply Qle_shift_div_r; lra.
Qed.

Lemma fold_left_Qplus_bounds l : forall a,
  Forall unit_range l ->
  a <= fold_left Qplus l a
  /\ fold_left Qplus l a <= a + inject_Z (Z.of_nat (List.length l)).
Proof.
  induction l as [| x l IH]; intros a H.
  - cbn [fold_left List.length]. change (inject_Z (Z.of_nat 0)) with 0.
    split; lra.
  - inversion H as [| ? ? [Hx0 Hx1] Hl]; subst.
    destruct (IH (a + x) Hl) as [H1 H2].
    cbn [fold_left List.length]. rewrite Nat2Z.inj_succ, <- Z.add_1_r, inject_Z_plus.
    change (inject_Z 1) with 1. split; lra.
Qed.

Lemma np_average_unit l : Forall unit_range l -> unit_range (np_average l).
Proof.
  intro H. unfold np_average, Qsum.
  destruct (fold_left_Qplus_bounds l 0 H) as [H1 H2].
  destruct l as [| x l]; [split; discriminate |].
  assert (Hn : 0 < inject_Z (Z.of_nat (List.length (x :: l)))).
  { change 0 with (inject_Z 0). rewrite <- Zlt_Qlt. simpl. lia. }
  split.
  - apply Qle_shift_div_l; [exact Hn | lra].
  - apply Qle_shift_div_r; [exact Hn | lra].
Qed.

Lemma envelope_length l : List.length (envelope l) = List.length l.
Proof.
  induction l as [| x l IH]; simpl; [reflexivity |].
  destruct (envelope l) as [| y t]; simpl in *; [now rewrite <- IH | now rewrite <- IH].
Qed.

Lemma envelope_Forall (P : Q -> Prop) l :
  (forall x y, P x -> P y -> P (Qmax x y)) ->
  Forall P l -> Forall P (envelope l).
Proof.
  intros Hmax. induction 1 as [| x l Hx Hl IH]; simpl; [constructor |].
  destruct (envelope l) as [| y t]; [repeat constructor; exact Hx |].
  inversion IH; subst. constructor; [now apply Hmax | exact IH].
Qed.

Lemma unit_range_max x y : unit_range x -> unit_range y -> unit_range (Qmax x y).
Proof.
  intros [Hx0 Hx1] [Hy0 Hy1]. split.
  - eapply Qle_trans; [exact Hx0 | apply Q.le_max_l].
  - apply Q.max_lub; assumption.
Qed.

(** X18. The monotone envelope [_average_precision] takes of the precisions
    (each value replaced, from the right, by the maximum of itself and its
    right neighbour): it keeps the length, lies pointwise on or above the
    input, and never increases from left to right. *)
Theorem envelope_monotone l :
  List.length (envelope l) = List.length l
  /\ Forall2 Qle l (envelope l)
  /\ StronglySorted (fun x y => y <= x) (envelope l).
Proof.
  split; [apply envelope_length |].
  induction l as [| x l [IH2 IH3]]; simpl; [split; constructor |].
  destruct (envelope l) as [| y t] eqn:E.
  - apply envelope_nil in E. subst l. split; repeat constructor. apply Qle_refl.
  - split.
    + constructor; [apply Q.le_max_l | exact IH2].
    + constructor; [exact IH3 |].
      inversion IH3 as [| ? ? _ Hy]; subst.
      constructor; [apply Q.le_max_r |].
      eapply Forall_impl; [| exact Hy]. intros z Hz. cbv beta in *.
      eapply Qle_trans; [exact Hz | apply Q.le_max_r].
Qed.

Lemma area_sum_bounds : forall mrec mpre,
  Sorted Qle mrec -> Forall unit_range mpre ->
  List.length mpre = List.length mrec ->
  0 <= area_sum mrec mpre
  /\ area_sum mrec mpre <= last mrec 0 - hd 0 mrec.
Proof.
  induction mrec as [| r0 rt IH]; intros mpre Hs Hp Hlen.
  - simpl. split; lra.
  - destruct rt as [| r1 rt'].
    + destruct mpre as [| p0 [| p1 pt]]; simpl; split; lra.
    + destruct mpre as [| p0 [| p1 pt]]; try discriminate.
      inversion Hs as [| ? ? Hs' Hhd]; subst.
      inversion Hhd as [| ? ? H01]; subst.
      inversion Hp as [| ? ? _ Hp']; subst.
      inversion Hp' as [| ? ? [Hp0 Hp1] _]; subst.
      destruct (IH (p1 :: pt) Hs' Hp') as [I0 I1];
        [simpl in Hlen |- *; lia |].
      change (area_sum (r0 :: r1 :: rt') (p0 :: p1 :: pt))
        with ((if Qeq_bool r1 r0 then 0 else (r1 - r0) * p1)
              + area_sum (r1 :: rt') (p1 :: pt)).
      change (last (r0 :: r1 :: rt') 0) with (last (r1 :: rt') 0).
      change (hd 0 (r0 :: r1 :: rt')) with r0.
      change (hd 0 (r1 :: rt')) with r1 in I1.
      assert (Ht : 0 <= (r1 - r0) * p1 /\ (r1 - r0) * p1 <= r1 - r0).
      { split; nra. }
      destruct (Qeq_bool r1 r0); split; lra.
Qed.

Lemma Sorted_padded recalls :
  Sorted Qle recalls -> Forall unit_range recalls ->
  Sorted Qle (0 :: recalls ++ [1]).
Proof.
  intros Hs Hu.
  assert (H1 : Sorted Qle (recalls ++ [1])).
  { induction Hs as [| r l Hs' IH Hhd]; simpl; [repeat constructor |].
    inversion Hu as [| ? ? [_ Hr1] Hu']; subst.
    constructor; [now apply IH |].
    destruct l; simpl; constructor; [exact Hr1 | now inversion Hhd]. }
  constructor; [exact H1 |].
  destruct recalls; simpl; constructor; [discriminate |].
  inversion Hu as [| ? ? [H0 _] _]; subst. exact H0.
Qed.

Lemma average_precision_area_bounds_aux recalls precisions :
  List.length precisions = List.length recalls ->
  Sorted Qle recalls -> Forall unit_range recalls ->
  Forall unit_range precisions ->
  0 <= area_sum ([0] ++ recalls ++ [1]) (envelope ([0] ++ precisions ++ [0]))
  /\ area_sum ([0] ++ recalls ++ [1]) (envelope ([0] ++ precisions ++ [0])) <= 1.
Proof.
  intros Hlen Hs Hr Hp.
  destruct (area_sum_bounds ([0] ++ recalls ++ [1])
              (envelope ([0] ++ precisions ++ [0]))) as [H0 H1].
  - now apply Sorted_padded.
  - apply envelope_Forall; [exact unit_range_max |].
    constructor; [split; discriminate |].
    apply Forall_app. split; [exact Hp |]. repeat constructor; discriminate.
  - rewrite envelope_length. simpl. rewrite !length_app. simpl. lia.
  - split; [exact H0 |].
    change ([0] ++ recalls ++ [1]) with (0 :: recalls ++ [1]) in H1.
    cbn [hd] in H1.
    replace (last (0 :: recalls ++ [1]) 0) with 1 in H1;
      [eapply Qle_trans; [exact H1 | lra] |].
    change (0 :: recalls ++ [1]) with ((0 :: recalls) ++ [1]).
    now rewrite last_last.
Qed.

(** X19. In mode 'area', on recalls that never decrease and lie within
    [0, 1] and as many precisions within [0, 1], [_average_precision]
    returns a value within [0, 1]. *)
Theorem average_precision_area_bounds recalls precisions :
  List.length precisions = List.length recalls ->
  Sorted Qle recalls -> Forall unit_range recalls ->
  Forall unit_range precisions ->
  exists ap,
    _average_precision recalls precisions "area" = Ok ap /\ unit_range ap.
Proof.
  intros Hlen Hs Hr Hp. rewrite average_precision_area by (symmetry; exact Hlen).
  eexists. split; [reflexivity |].
  exact (average_precision_area_bounds_aux _ _ Hlen Hs Hr Hp).
Qed.

Lemma average_precision_area_bounds_witness :
  exists ap,
    _average_precision [0; 1 # 2; 1 # 2] [0; 1 # 2; 1 # 3] "area" = Ok ap
    /\ unit_range ap.
Proof.
  apply (average_precision_area_bounds [0; 1 # 2; 1 # 2] [0; 1 # 2; 1 # 3]).
  - reflexivity.
  - repeat constructor; discriminate.
  - repeat constructor; discriminate.
  - repeat constructor; discriminate.
Defined.

Lemma cumsum_from_bounds bs : forall a,
  Sorted Qle (cumsum_from a bs)
  /\ Forall (fun t => inject_Z a <= t
                      /\ t <= inject_Z (a + Z.of_nat
                                               (List.length (filter (fun b => b) bs))))
            (cumsum_from a bs).
Proof.
  induction bs as [| b bs IH]; intro a; simpl; [split; constructor |].
  destruct (IH (a + (if b then 1 else 0))%Z) as [Hs Hf]. split.
  - constructor; [exact Hs |].
    destruct bs as [| b' bs]; simpl; constructor.
    rewrite <- Zle_Qle. destruct b'; lia.
  - constructor.
    + rewrite <- !Zle_Qle. destruct b; simpl; lia.
    + eapply Forall_impl; [| exact Hf]. intros t [H1 H2]. cbv beta.
      split.
      * eapply Qle_trans; [| exact H1]. rewrite <- Zle_Qle. destruct b; lia.
      * eapply Qle_trans; [exact H2 |]. rewrite <- Zle_Qle.
        destruct b; simpl; lia.
Qed.

Lemma tp_sum_of_bounds sorted thr :
  Sorted Qle (tp_sum_of sorted thr)
  /\ Forall (fun t => 0 <= t /\ t <= inject_Z (Z.of_nat (tp_count sorted thr)))
            (tp_sum_of sorted thr).
Proof.
  unfold tp_sum_of, cumsum, tp_count.
  destruct (cumsum_from_bounds
              (map (fun r => Qge_bool (ov_overlap r) thr) sorted) 0) as [Hs Hf].
  split; [exact Hs |].
  replace (List.length (filter (fun r => Qge_bool (ov_overlap r) thr) sorted))
    with (List.length (filter (fun b : bool => b)
                         (map (fun r => Qge_bool (ov_overlap r) thr) sorted))).
  - exact Hf.
  - clear. induction sorted as [| r l IH]; simpl; [reflexivity |].
    destruct (Qge_bool (ov_overlap r) thr); simpl; now rewrite IH.
Qed.

Lemma zeros_sorted_unit l :
  Forall (fun r => r == 0) l -> Sorted Qle l /\ Forall unit_range l.
Proof.
  induction 1 as [| x l Hx Hl [IHs IHu]]; [split; constructor |]. split.
  - constructor; [exact IHs |].
    destruct l; constructor. inversion Hl; subst. lra.
  - constructor; [split; lra | exact IHu].
Qed.

Lemma recall_of_bounds n sorted thr :
  (tp_count sorted thr <= n)%nat ->
  Sorted Qle (recall_of n (tp_sum_of sorted thr))
  /\ Forall unit_range (recall_of n (tp_sum_of sorted thr)).
Proof.
  intro Hc. destruct n as [| n].
  - apply zeros_sorted_unit, recall_of_zero.
  - destruct (tp_sum_of_bounds sorted thr) as [Hs Hf].
    unfold recall_of. cbn [Nat.ltb Nat.leb].
    assert (Hn : 0 < inject_Z (Z.of_nat (S n))).
    { change 0 with (inject_Z 0). rewrite <- Zlt_Qlt. lia. }
    assert (Hcn : inject_Z (Z.of_nat (tp_count sorted thr))
                  <= inject_Z (Z.of_nat (S n))).
    { rewrite <- Zle_Qle. lia. }
    revert Hs Hf. generalize (tp_sum_of sorted thr) as tp.
    induction tp as [| t tp IH]; intros Hs Hf; cbn [map];
      [split; constructor |].
    inversion Hs as [| ? ? Hs' Hhd]; subst.
    inversion Hf as [| ? ? [Ht0 Ht1] Hf']; subst.
    destruct (IH Hs' Hf') as [I1 I2]. split.
    + constructor; [exact I1 |].
      destruct tp as [| t' tp]; cbn [map]; constructor.
      inversion Hhd as [| ? ? Htt']; subst.
      unfold Qdiv. apply Qmult_le_compat_r; [exact Htt' |].
      apply Qinv_le_0_compat. lra.
    + constructor; [| exact I2]. split.
      * apply Qle_shift_div_l; lra.
      * apply Qle_shift_div_r; lra.
Qed.

(** X20. The three numbers [_evaluate_overlaps] reports for a threshold:
    the mean precision always lies within [0, 1]; the average precision and
    the mean recall lie within [0, 1] as soon as the true positives at that
    threshold do not outnumber the ground-truth count; with more true
    positives than ground truth the mean recall can exceed 1. *)
Theorem entry_of_bounds nr_gt sorted iou_thr :
  (exists ap pr rc,
      entry_of nr_gt sorted iou_thr
      = [("ap"%string, ap); ("precision"%string, pr); ("recall"%string, rc)]
      /\ unit_range pr
      /\ ((tp_count sorted iou_thr <= nr_gt)%nat ->
          unit_range ap /\ unit_range rc))
  /\ (exists ap pr rc,
         entry_of 1 [mkOv 1 1 1 (9 # 10); mkOv 2 1 1 (8 # 10)] (1 # 2)
         = [("ap"%string, ap); ("precision"%string, pr); ("recall"%string, rc)]
         /\ 1 < rc).
Proof.
  split.
  - unfold entry_of. cbv zeta. do 3 eexists. split; [reflexivity |].
    pose proof (precision_of_unit sorted iou_thr) as Hp.
    split; [now apply np_average_unit |].
    intro Hc. destruct (recall_of_bounds nr_gt sorted iou_thr Hc) as [Hs Hu].
    split; [| now apply np_average_unit].
    destruct (average_precision_area_bounds_aux
                (recall_of nr_gt (tp_sum_of sorted iou_thr))
                (precision_of (tp_sum_of sorted iou_thr)
                              (fp_sum_of sorted iou_thr))) as [H0 H1];
      try assumption; [| split; assumption].
    rewrite recall_of_length, precision_of_length;
      rewrite tp_sum_of_length; [reflexivity |].
    now rewrite fp_sum_of_length.
  - do 3 eexists. split; [vm_compute; reflexivity | reflexivity].
Qed.

Lemma nr_gt_of_class_absent series_eq_seq self c :
  Forall (fun rw => cat_id (snd rw) <> [] /\ first_cat rw <> c) (ann_info self) ->
  nr_gt_of series_eq_seq self (ByClass c) = Ok 0%nat.
Proof.
  intro H. unfold nr_gt_of.
  rewrite (first_cats_total (ann_info self)).
  - cbn [bind]. rewrite map_map.
    rewrite (bool_index_map (fun rw => Z.eqb (first_cat rw) c)). cbn [bind].
    replace (filter (fun rw => Z.eqb (first_cat rw) c) (ann_info self))
      with (@nil (Z * annotation)); [reflexivity |].
    symmetry. induction H as [| rw l [_ Hne] _ IH]; simpl; [reflexivity |].
    destruct (Z.eqb_spec (first_cat rw) c); [contradiction | exact IH].
  - eapply Forall_impl; [| exact H]. now intros rw [Hne _].
Qed.

(** X21. The classwise denominator looks only at the first category id of
    each annotation: for a class that no annotation carries in first
    position (for instance a class of the second annotation set),
    [_evaluate_overlaps] returns a report that holds an entry for every
    requested threshold, and every entry has average precision 0 and mean
    recall 0, whatever the records, perfectly matched ones included. *)
Theorem class_of_later_set_scores_zero series_eq_seq self c rows iou_thrs :
  Forall (fun rw => cat_id (snd rw) <> [] /\ first_cat rw <> c) (ann_info self) ->
  exists m,
    _evaluate_overlaps series_eq_seq self (Array2D rows) iou_thrs (ByClass c)
    = Ok m
    /\ Forall (fun te => zero_entry (snd te)) m
    /\ incl (map fst m) iou_thrs
    /\ (distinct_thrs iou_thrs -> map fst m = iou_thrs)
    /\ forall t, In t iou_thrs ->
                 exists k d, In (k, d) m /\ k == t /\ zero_entry d.
Proof.
  intro H. pose proof (nr_gt_of_class_absent series_eq_seq self c H) as Hn.
  destruct (evaluate_overlaps_report series_eq_seq self (ByClass c) 0 rows
              iou_thrs Hn) as (m & Hm & Hk & Hd & Hall & _).
  exists m. split; [exact Hm |].
  split.
  { unfold _evaluate_overlaps in Hm.
    eapply evaluate_loop_entries; [| constructor | exact Hm].
    intros n sorted t Hn' _ _. rewrite Hn in Hn'. inversion Hn'; subst.
    apply entry_of_zero. }
  split; [exact Hk |]. split; [exact Hd |].
  intros t Ht. destruct (Hall t Ht) as (k & d & sorted & Hin & Hkt & _ & ->).
  exists k, (entry_of 0 sorted t).
  split; [exact Hin |]. split; [exact Hkt | apply entry_of_zero].
Qed.

Lemma class_of_later_set_scores_zero_witness :
  exists m,
    _evaluate_overlaps Sample.eq_all Sample2.store
      (Array2D [mkOv 10 1 7 (9 # 10); mkOv 11 1 7 (8 # 10)])
      [1 # 2] (ByClass 7)
    = Ok m
    /\ Forall (fun te => zero_entry (snd te)) m
    /\ incl (map fst m) [1 # 2]
    /\ (distinct_thrs [1 # 2] -> map fst m = [1 # 2])
    /\ forall t, In t [1 # 2] ->
                 exists k d, In (k, d) m /\ k == t /\ zero_entry d.
Proof.
  apply (class_of_later_set_scores_zero Sample.eq_all Sample2.store 7).
  repeat constructor; simpl; discriminate.
Defined.

(** ** The 11-point mode and the modes' failures *)

Lemma py_max_from_in m l : In (py_max_from m l) (m :: l).
Proof.
  revert m; induction l as [| x l IH]; intro m; simpl; [now left |].
  destruct (Qlt_le_dec m x).
  - destruct (IH x) as [H | H]; [right; left; exact H | right; right; exact H].
  - destruct (IH m) as [H | H]; [left; exact H | right; right; exact H].
Qed.

Lemma fold_left_sum_bounds {A : Type} (g : A -> Q) l : forall a,
  (forall k, In k l -> unit_range (g k)) ->
  a <= fold_left (fun ap k => ap + g k) l a
  /\ fold_left (fun ap k => ap + g k) l a
     <= a + inject_Z (Z.of_nat (List.length l)).
Proof.
  induction l as [| x l IH]; intros a H.
  - cbn [fold_left List.length]. change (inject_Z (Z.of_nat 0)) with 0.
    split; lra.
  - destruct (H x (or_introl eq_refl)) as [Hx0 Hx1].
    destruct (IH (a + g x) (fun k Hk => H k (or_intror Hk))) as [H1 H2].
    cbn [fold_left List.length].
    rewrite Nat2Z.inj_succ, <- Z.add_1_r, inject_Z_plus.
    change (inject_Z 1) with 1. split; lra.
Qed.

(** X22. [_average_precision] checks the shapes before the mode: on curves
    of different lengths it raises the assertion error whatever the mode; on
    curves of equal length it raises [ValueError] for every mode other than
    'area' and '11points'; and in mode '11points', on precisions within
    [0, 1], it returns a value within [0, 1]. *)
Theorem average_precision_modes recalls precisions mode :
  (List.length recalls <> List.length precisions ->
   _average_precision recalls precisions mode = Raise AssertionError)
  /\ (List.length recalls = List.length precisions ->
      mode <> "area"%string -> mode <> "11points"%string ->
      _average_precision recalls precisions mode = Raise ValueError)
  /\ (List.length recalls = List.length precisions ->
      Forall unit_range precisions ->
      exists ap,
        _average_precision recalls precisions "11points" = Ok ap
        /\ unit_range ap).
Proof.
  unfold _average_precision. split; [| split].
  - intro H. apply Nat.eqb_neq in H. now rewrite H.
  - intros H Ha Hp. rewrite H, Nat.eqb_refl. cbn [negb].
    apply String.eqb_neq in Ha, Hp. now rewrite Ha, Hp.
  - intros H Hu. rewrite H, Nat.eqb_refl. cbn [negb].
    change (String.eqb "11points" "area") with false.
    change (String.eqb "11points" "11points") with true. cbv iota.
    eexists. split; [reflexivity |]. unfold eleven_points.
    match goal with
    | |- unit_range (fold_left ?f ?l 0 / 11) =>
        destruct (fold_left_sum_bounds
                    (fun k => let thr := inject_Z (Z.of_nat k) / 10 in
                              let precs := map snd
                                             (filter (fun rp => Qge_bool (fst rp) thr)
                                                     (combine recalls precisions)) in
                              match py_max precs with Ok m => m | Raise _ => 0 end)
                    l 0) as [H0 H1]
    end.
    + intros k _. cbv zeta.
      destruct (map snd (filter _ (combine recalls precisions))) as [| p ps] eqn:E;
        cbn [py_max]; [split; discriminate |].
      assert (Hin : In (py_max_from p ps) (p :: ps)) by apply py_max_from_in.
      rewrite <- E in Hin. apply in_map_iff in Hin.
      destruct Hin as ([r q] & Hq & Hf). simpl in Hq. rewrite <- Hq.
      apply filter_In in Hf. destruct Hf as [Hc _].
      apply in_combine_r in Hc. rewrite Forall_forall in Hu. now apply Hu.
    + cbv zeta in H0, H1. change (inject_Z (Z.of_nat (List.length (seq 0 11))))
        with 11 in H1.
      split.
      * apply Qle_shift_div_l; [reflexivity | lra].
      * apply Qle_shift_div_r; [reflexivity | lra].
Qed.

Lemma average_precision_modes_witness :
  _average_precision [0; 1 # 2] [1] "area" = Raise AssertionError
  /\ _average_precision [0; 1 # 2] [1; 1 # 2] "trapezoid" = Raise ValueError.
Proof.
  split.
  - apply (proj1 (average_precision_modes [0; 1 # 2] [1] "area")).
    simpl. lia.
  - apply (proj1 (proj2 (average_precision_modes [0; 1 # 2] [1; 1 # 2]
                           "trapezoid"))).
    + reflexivity.
    + discriminate.
    + discriminate.
Defined.

(** ** The keys of the report *)

Lemma sorted_perm_unique (l1 : list Z) : forall l2,
  StronglySorted Z.le l1 -> StronglySorted Z.le l2 -> Permutation l1 l2 ->
  l1 = l2.
Proof.
  induction l1 as [| a l1 IH]; intros l2 H1 H2 Hp.
  - apply Permutation_nil in Hp. now subst.
  - destruct l2 as [| b l2].
    { apply Permutation_sym, Permutation_nil in Hp. discriminate. }
    inversion H1 as [| ? ? H1' Ha]; subst.
    inversion H2 as [| ? ? H2' Hb]; subst.
    assert (Hab : a = b).
    { assert (Hia : In a (b :: l2)) by (eapply Permutation_in; eauto; now left).
      assert (Hib : In b (a :: l1))
        by (eapply Permutation_in; [symmetry; eauto | now left]).
      rewrite Forall_forall in Ha, Hb.
      destruct Hia as [-> | Hia]; [reflexivity |].
      destruct Hib as [-> | Hib]; [reflexivity |].
      specialize (Ha _ Hib). specialize (Hb _ Hia). lia. }
    subst b. f_equal. apply IH; [exact H1' | exact H2' |].
    eapply Permutation_cons_inv; eauto.
Qed.

Lemma sort_by_Z_sorted l : StronglySorted Z.le (sort_by Z.leb l).
Proof.
  apply Sorted_StronglySorted; [intros x y z; apply Z.le_trans |].
  apply sort_by_sorted.
  - intros x y E. now apply Z.leb_le.
  - intros x y E. apply Z.leb_gt in E. lia.
Qed.

Lemma np_unique_Z_perm l1 l2 :
  Permutation l1 l2 -> np_unique_Z l1 = np_unique_Z l2.
Proof.
  intro Hp. unfold np_unique_Z. f_equal.
  apply sorted_perm_unique; try apply sort_by_Z_sorted.
  rewrite <- (sort_by_perm Z.leb l1), <- (sort_by_perm Z.leb l2). exact Hp.
Qed.

Lemma classwise_results_keys series_eq_seq self rows iou_thrs classes :
  forall acc r,
    foldM (fun results_dict class_idx =>
             m <- _evaluate_overlaps series_eq_seq self
                    (Array2D (filter (fun r => Z.eqb (ov_cat_id r) class_idx) rows))
                    iou_thrs (ByClass class_idx) ;;
             Ok (results_dict ++ [(KInt class_idx, m)]))
          classes acc = Ok r ->
    exists new,
      r = acc ++ new
      /\ map fst new = map KInt classes
      /\ Forall (fun ct => incl (map fst (snd ct)) iou_thrs
                           /\ (distinct_thrs iou_thrs ->
                               map fst (snd ct) = iou_thrs)) new.
Proof.
  induction classes as [| c classes IH]; intros acc r H; simpl in H.
  - inversion H; subst. exists []. rewrite app_nil_r. repeat split; constructor.
  - inv_bind H. inv_bind E. rename x0 into m. inversion E; subst x. clear E.
    destruct (IH _ _ H) as (new & Hr & Hk & Hall).
    exists ((KInt c, m) :: new). rewrite <- app_assoc in Hr.
    split; [exact Hr |]. split; [simpl; now f_equal |].
    constructor; [| exact Hall]. cbn [snd]. unfold _evaluate_overlaps in E0.
    split.
    + now apply evaluate_loop_keys in E0.
    + intro Hd. now apply evaluate_loop_keys_distinct in E0.
Qed.

(** X23. The classwise report of [calculate_metrics] (no averaging) has one
    key per distinct category of the loaded proposals, in ascending order,
    and under each a mapping whose keys are among the requested thresholds:
    exactly the requested thresholds, in order, when no two of them are
    equal. *)
Theorem classwise_report_keys iou_poly series_eq_seq self props iou_thrs r :
  proposals self = Some props ->
  calculate_metrics iou_poly series_eq_seq self iou_thrs true false = Ok r ->
  map fst r = map KInt (np_unique_Z (map p_cat_id props))
  /\ Forall (fun ct =>
               exists m,
                 snd ct = PerThreshold m
                 /\ incl (map fst m) iou_thrs
                 /\ (distinct_thrs iou_thrs -> map fst m = iou_thrs)) r.
Proof.
  intros Hp H. unfold calculate_metrics in H. rewrite Hp in H.
  inv_bind H. rename x into ovs. inv_bind H. rename x into results.
  inversion H; subst r. clear H.
  inv_bind E0. rename x into rows.
  assert (Hrows : rows = ovs).
  { destruct ovs; [discriminate | now inversion E1]. }
  subst rows. apply classwise_results_keys in E0.
  destruct E0 as (new & -> & Hk & Hall). cbn [app].
  rewrite map_map. cbn [fst]. split.
  - change (map (fun x : pykey * list (Q * eval_dict) => fst x) new)
      with (map fst new).
    rewrite Hk. f_equal. apply np_unique_Z_perm.
    pose proof (match_images_keys_perm _ _ _ _ E) as Hperm.
    apply (Permutation_map fst) in Hperm.
    now rewrite !map_map in Hperm.
  - apply Forall_map. eapply Forall_impl; [| exact Hall].
    intros ct [H1 H2]. exists (snd ct). cbn [snd]. auto.
Qed.

Lemma classwise_report_keys_witness :
  exists r,
    calculate_metrics Sample.iou_one Sample.eq_all Sample2.loaded
      [1 # 2; 3 # 4] true false = Ok r
    /\ map fst r = [KInt 1; KInt 2]
    /\ Forall (fun ct =>
                 exists m,
                   snd ct = PerThreshold m
                   /\ incl (map fst m) [1 # 2; 3 # 4]
                   /\ (distinct_thrs [1 # 2; 3 # 4] ->
                       map fst m = [1 # 2; 3 # 4])) r.
Proof.
  eexists. split; [vm_compute; reflexivity |].
  apply (classwise_report_keys Sample.iou_one Sample.eq_all Sample2.loaded
           Sample2.props [1 # 2; 3 # 4]).
  - reflexivity.
  - vm_compute. reflexivity.
Defined.

(** ** The image wall *)

Section ImageWallFacts.
Import ImageWall.
Local Open Scope Z_scope.

Lemma imagewall_init_inv size dim mode col w :
  init size dim mode col = Ok w ->
  fst dim <> 0 /\ snd dim <> 0
  /\ w = mkWall (fst size) (snd size) (fst dim) (snd dim) mode col
           (fst size / fst dim) (snd size / snd dim).
Proof.
  unfold init, floordiv. intro H.
  destruct (negb _); [discriminate |].
  destruct (Z.eqb_spec (fst dim) 0); [discriminate |].
  destruct (Z.eqb_spec (snd dim) 0); [discriminate |].
  cbn [bind] in H. inversion H. auto.
Qed.

(** X24. The cells of a wall built by [ImageWall(size, dim, ...)] with a
    positive number of columns and lines on a canvas of non-negative size:
    [__get_cell] places every cell of the grid inside the canvas, with the
    width [width // columns] and the height [height // lines]; it answers
    the empty tuple outside [0..columns] x [0..lines]; but its bounds are
    inclusive, so the position (columns, lines), one past the last cell, is
    answered with a rectangle too. *)
Theorem imagewall_cells size dim mode col w :
  init size dim mode col = Ok w ->
  0 < fst dim -> 0 < snd dim -> 0 <= fst size -> 0 <= snd size ->
  (forall x y, 0 <= x < columns w -> 0 <= y < lines w ->
     exists x0 y0 x1 y1,
       __get_cell w x y = Some (x0, y0, x1, y1)
       /\ 0 <= x0 /\ x0 <= x1 /\ x1 <= width w
       /\ 0 <= y0 /\ y0 <= y1 /\ y1 <= height w
       /\ x1 - x0 = fst size / fst dim /\ y1 - y0 = snd size / snd dim)
  /\ (forall x y, x < 0 \/ columns w < x \/ y < 0 \/ lines w < y ->
                  __get_cell w x y = None)
  /\ __get_cell w (columns w) (lines w)
     = Some (columns w * cx w, lines w * cy w,
             (columns w + 1) * cx w, (lines w + 1) * cy w).
Proof.
  intros H Hc Hl Hw Hh.
  destruct (imagewall_init_inv _ _ _ _ _ H) as (_ & _ & ->).
  cbn [columns lines width height cx cy].
  pose proof (Z.div_pos (fst size) (fst dim) Hw Hc) as Hcx.
  pose proof (Z.div_pos (snd size) (snd dim) Hh Hl) as Hcy.
  pose proof (Z.mul_div_le (fst size) (fst dim) Hc) as Hmx.
  pose proof (Z.mul_div_le (snd size) (snd dim) Hl) as Hmy.
  split; [| split].
  - intros x y Hx Hy. unfold __get_cell. cbn [columns lines cx cy].
    replace ((0 <=? x) && (x <=? fst dim)) with true
      by (symmetry; apply andb_true_iff; split; apply Z.leb_le; lia).
    replace ((0 <=? y) && (y <=? snd dim)) with true
      by (symmetry; apply andb_true_iff; split; apply Z.leb_le; lia).
    cbn [negb orb]. do 4 eexists. split; [reflexivity |].
    repeat split; try nia.
  - intros x y Hout. unfold __get_cell. cbn [columns lines].
    destruct (Z.leb_spec 0 x); destruct (Z.leb_spec x (fst dim));
      destruct (Z.leb_spec 0 y); destruct (Z.leb_spec y (snd dim));
      cbn [andb negb orb]; try reflexivity; lia.
  - unfold __get_cell. cbn [columns lines cx cy].
    replace ((0 <=? fst dim) && (fst dim <=? fst dim)) with true
      by (symmetry; apply andb_true_iff; split; apply Z.leb_le; lia).
    replace ((0 <=? snd dim) && (snd dim <=? snd dim)) with true
      by (symmetry; apply andb_true_iff; split; apply Z.leb_le; lia).
    reflexivity.
Qed.

Lemma imagewall_cells_witness :
  __get_cell sample (columns sample) (lines sample)
  = Some (columns sample * cx sample, lines sample * cy sample,
          (columns sample + 1) * cx sample, (lines sample + 1) * cy sample).
Proof.
  apply (proj2 (proj2 (imagewall_cells (300, 140) (3, 2) "RGB" (255, 255, 255)
                         sample eq_refl eq_refl eq_refl
                         ltac:(discriminate) ltac:(discriminate)))).
Defined.








End ImageWallFacts.

(** ** The start of [visualize] *)

Lemma list_index_getitem l x i :
  list_index l x = Ok i -> getitem l i = Ok x.
Proof.
  intro H. unfold getitem. now rewrite (list_index_bound _ _ _ H).
Qed.

Lemma visualize_select_default self img_idx img_id s0 rest :
  annotation_sets self = s0 :: rest ->
  fst (visualize_select self img_idx img_id None)
  = set_annotation_set_filter self (OneSet s0).
Proof.
  intro Hs. unfold visualize_select, getitem. rewrite Hs. reflexivity.
Qed.

(** X27. [visualize] called without an annotation set overwrites the filter
    of the object with the first annotation set of the file, and the object
    keeps it whatever the rest of the call does: every later [get_ann_ids]
    without a filter of its own answers as under that one set, so each row
    it returns carries exactly one category id; a second such call changes
    nothing more. *)
Theorem visualize_overwrites_filter self img_idx img_id s0 rest :
  annotation_sets self = s0 :: rest ->
  fst (visualize_select self img_idx img_id None)
  = set_annotation_set_filter self (OneSet s0)
  /\ (forall ids,
        get_ann_ids (fst (visualize_select self img_idx img_id None)) ids None
        = get_ann_ids self ids (Some (OneSet s0)))
  /\ (forall ids rows,
        get_ann_ids (fst (visualize_select self img_idx img_id None)) ids None
        = Ok rows ->
        Forall (fun rw => List.length (cat_id (snd rw)) = 1%nat) rows)
  /\ (forall img_idx' img_id',
        fst (visualize_select
               (fst (visualize_select self img_idx img_id None))
               img_idx' img_id' None)
        = fst (visualize_select self img_idx img_id None)).
Proof.
  intro Hs. rewrite (visualize_select_default _ _ _ _ _ Hs).
  split; [reflexivity |]. split; [reflexivity |]. split.
  - intros ids rows H. apply get_ann_ids_rows in H.
    eapply Forall_impl; [| exact H].
    intros rw (_ & Hne & Hle & _). cbn in Hle.
    destruct (cat_id (snd rw)); [congruence | simpl in *; lia].
  - intros i' k'.
    now rewrite (visualize_select_default _ i' k' s0 rest) by exact Hs.
Qed.

Lemma visualize_overwrites_filter_witness :
  Forall (fun rw => List.length (cat_id (snd rw)) = 1%nat)
         [(10%Z, set_cat_id Sample2.ann10 [1%Z]);
          (11%Z, set_cat_id Sample2.ann11 [2%Z])].
Proof.
  apply (proj1 (proj2 (proj2 (visualize_overwrites_filter Sample2.store
                                (Some 0%nat) None "deepscores"
                                ["muscima"%string] eq_refl)))
           [10%Z; 11%Z]).
  reflexivity.
Defined.

Lemma get_ann_ids_unknown_set self ids c :
  chosen_ann_set self = OneSet c ->
  ~ In c (annotation_sets self) ->
  is_ok (get_ann_ids self ids None) = false.
Proof.
  intros Hc Hn. unfold get_ann_ids.
  destruct (loc (ann_info self) ids); [| reflexivity]. cbn [bind].
  rewrite Hc. cbn [mapM].
  destruct (list_index (annotation_sets self) c) as [i | e] eqn:E;
    [| reflexivity].
  apply list_index_bound in E. apply nth_error_In in E. contradiction.
Qed.

(** X28. [visualize] called with the name of an annotation set of the file
    reads the new filter out of the filter in force at the position of that
    name.  While the filter is the file's list of sets (as [load_annotations]
    leaves it) the named set becomes the filter.  Once the filter is a single
    name (after any earlier [visualize], or a load with a filter) the new
    filter is one character of that name, or the call raises [IndexError]
    with the object unchanged when the name is too short; and unless that
    character is itself the name of an annotation set the call raises before
    any image file is opened. *)
Theorem visualize_named_set self img_idx img_id a i :
  list_index (annotation_sets self) a = Ok i ->
  (chosen_ann_set self = ManySets (annotation_sets self) ->
   fst (visualize_select self img_idx img_id (Some a))
   = set_annotation_set_filter self (OneSet a))
  /\ (forall s c,
        chosen_ann_set self = OneSet s -> String.get i s = Some c ->
        fst (visualize_select self img_idx img_id (Some a))
        = set_annotation_set_filter self (OneSet (String c EmptyString))
        /\ (~ In (String c EmptyString) (annotation_sets self) ->
            is_ok (snd (visualize_select self img_idx img_id (Some a)))
            = false))
  /\ (forall s,
        chosen_ann_set self = OneSet s -> String.get i s = None ->
        visualize_select self img_idx img_id (Some a)
        = (self, Raise IndexError)).
Proof.
  intro Hi. unfold visualize_select. rewrite Hi. cbn [bind].
  split; [| split].
  - intro Hc. rewrite Hc, (list_index_getitem _ _ _ Hi). reflexivity.
  - intros s c Hc Hg. rewrite Hc. unfold str_getitem. rewrite Hg.
    cbn [bind fst snd]. split; [reflexivity |].
    intro Hn. unfold get_img_ann_pair.
    destruct (_xor_args _ _); [| reflexivity]. cbn [bind].
    destruct (get_imgs _ _ _) as [imgs | e] eqn:E; [| reflexivity].
    cbn [bind].
    assert (Himgs : exists im, imgs = [im]).
    { unfold get_imgs in E.
      destruct (_xor_args _ _); [| discriminate]. cbn [bind] in E.
      destruct img_idx as [k |]; cbn [option_map] in E.
      - cbn [mapM] in E. inv_bind E. inversion E; subst. now exists x.
      - destruct img_id as [k |]; cbn [option_map] in E; [| discriminate].
        cbn [mapM] in E. inv_bind E. inversion E; subst. now exists x. }
    destruct Himgs as (im & ->). cbn [mapM].
    pose proof (get_ann_ids_unknown_set
                  (set_annotation_set_filter self
                     (OneSet (String c EmptyString)))
                  (ann_ids im) (String c EmptyString) eq_refl Hn) as Hko.
    destruct (get_ann_ids _ _ _); [discriminate | reflexivity].
  - intros s Hc Hg. rewrite Hc. unfold str_getitem. rewrite Hg. reflexivity.
Qed.

Lemma visualize_named_set_witness :
  fst (visualize_select Sample2.store (Some 0%nat) None (Some "muscima"%string))
  = set_annotation_set_filter Sample2.store (OneSet "muscima").
Proof.
  apply (proj1 (visualize_named_set Sample2.store (Some 0%nat) None "muscima"
                  1%nat eq_refl) eq_refl).
Defined.

(** ** The tools *)

Section ToolFacts.
Import ImageWall DeepScoresV2.

(** X29. The key loop of [visualize_annotation] on a file of [n] images
    ([max_size = len(ob.img_info)] after [load_annotations]) keeps the view
    within [0..n], but [n] itself is reached: 'down' or 'right' on the last
    image moves to view [n], one past the last index, and [visualize] at that
    index raises [IndexError]; so does the first [visualize] when the file
    has no image. *)
Theorem visualize_annotation_past_last_image data ob :
  load_annotations OBBAnns_init data None = Ok ob ->
  (forall kn view v,
      (view <= OBBAnns_len ob)%nat ->
      next_view kn view (OBBAnns_len ob) = Some v ->
      (v <= OBBAnns_len ob)%nat)
  /\ (forall kn,
        kn = "down"%string \/ kn = "right"%string ->
        (0 < OBBAnns_len ob)%nat ->
        next_view kn (OBBAnns_len ob - 1) (OBBAnns_len ob)
        = Some (OBBAnns_len ob))
  /\ snd (visualize_select ob (Some (OBBAnns_len ob)) None None)
     = Raise IndexError.
Proof.
  intro Hl. unfold load_annotations in Hl. cbn [bind] in Hl.
  inversion Hl; subst ob; clear Hl.
  unfold OBBAnns_len. cbn [img_info].
  set (n := List.length (af_images data)).
  split; [| split].
  - intros kn view v Hv H. unfold next_view in H.
    destruct (_ || _).
    + inversion H; subst. destruct (Nat.eqb view 0); lia.
    + destruct (_ || _); [| discriminate].
      inversion H; subst. destruct (Nat.eqb_spec view n); lia.
  - intros kn [-> | ->] Hn; unfold next_view; cbn [String.eqb Ascii.eqb Bool.eqb orb andb];
      (destruct (Nat.eqb_spec (n - 1) n); [lia | f_equal; lia]).
  - unfold visualize_select. cbn [option_map annotation_sets].
    destruct (af_annotation_sets data) as [| s0 rest]; [reflexivity |].
    cbn [getitem nth_error bind snd].
    unfold get_img_ann_pair, get_imgs. cbn [_xor_args bind mapM].
    unfold img_info_at, set_annotation_set_filter. cbn [img_info].
    unfold getitem.
    assert (E : nth_error (af_images data) n = None)
      by (apply nth_error_None; unfold n; lia).
    rewrite E. reflexivity.
Qed.

Lemma visualize_annotation_past_last_image_witness :
  snd (visualize_select Sample2.store (Some (OBBAnns_len Sample2.store))
         None None) = Raise IndexError.
Proof.
  apply (proj2 (proj2 (visualize_annotation_past_last_image Sample2.file
                         Sample2.store eq_refl))).
Defined.

Local Open Scope Z_scope.

(** X30. The wall [visualize_cats] builds for [num > 0] category images has
    10 columns of 200 pixels and just enough lines of 140 pixels: the last
    line is not empty, and image number [i] of [draw_wall] (column [i % 10],
    row [i // 10]) gets a cell of 200 x 140 pixels that lies inside the
    canvas. *)
Theorem visualize_cats_grid num :
  0 < num ->
  exists w,
    visualize_cats_wall num = Ok w
    /\ columns w = 10 /\ cx w = 200 /\ cy w = 140
    /\ width w = 2000 /\ height w = 140 * lines w
    /\ 10 * (lines w - 1) < num <= 10 * lines w
    /\ forall i, 0 <= i < num ->
         __get_cell w (i mod 10) (i / 10)
         = Some (200 * (i mod 10), 140 * (i / 10),
                 200 * (i mod 10) + 200, 140 * (i / 10) + 140)
         /\ 200 * (i mod 10) + 200 <= width w
         /\ 140 * (i / 10) + 140 <= height w.
Proof.
  intro Hn. unfold visualize_cats_wall, pymod, floordiv. cbn [Z.eqb bind].
  set (l := if negb (num mod 10 =? 0) then num / 10 + 1 else num / 10).
  assert (Hl : 10 * (l - 1) < num <= 10 * l).
  { unfold l. destruct (Z.eqb_spec (num mod 10) 0); cbn [negb];
      Z.div_mod_to_equations; lia. }
  assert (Hl0 : 0 < l) by lia.
  unfold init. cbn [String.eqb Ascii.eqb Bool.eqb orb andb negb fst snd].
  unfold floordiv.
  destruct (Z.eqb_spec l 0); [lia |].
  change (200 * 10 =? 0) with false. cbn [bind].
  assert (Ecx : 200 * 10 / 10 = 200) by reflexivity.
  assert (Ecy : 140 * l / l = 140)
    by (apply Z.div_mul; lia).
  rewrite Ecx, Ecy.
  eexists. split; [reflexivity |]. cbn [columns cx cy width height lines].
  repeat split; try lia.
  - unfold __get_cell. cbn [columns cx cy lines].
    assert (H1 : 0 <= i mod 10 < 10) by (apply Z.mod_pos_bound; lia).
    assert (H2 : 0 <= i / 10 < l) by (Z.div_mod_to_equations; lia).
    replace ((0 <=? i mod 10) && (i mod 10 <=? 10)) with true
      by (symmetry; apply andb_true_iff; split; apply Z.leb_le; lia).
    replace ((0 <=? i / 10) && (i / 10 <=? l)) with true
      by (symmetry; apply andb_true_iff; split; apply Z.leb_le; lia).
    cbn [negb orb]. f_equal. f_equal; [f_equal; [f_equal |] |]; ring.
  - assert (H1 : 0 <= i mod 10 < 10) by (apply Z.mod_pos_bound; lia). lia.
  - assert (H2 : 0 <= i / 10 < l) by (Z.div_mod_to_equations; lia). lia.
Qed.

Lemma visualize_cats_grid_witness :
  exists w,
    visualize_cats_wall 23 = Ok w
    /\ columns w = 10 /\ cx w = 200 /\ cy w = 140
    /\ width w = 2000 /\ height w = 140 * lines w
    /\ 10 * (lines w - 1) < 23 <= 10 * lines w
    /\ forall i, 0 <= i < 23 ->
         __get_cell w (i mod 10) (i / 10)
         = Some (200 * (i mod 10), 140 * (i / 10),
                 200 * (i mod 10) + 200, 140 * (i / 10) + 140)
         /\ 200 * (i mod 10) + 200 <= width w
         /\ 140 * (i / 10) + 140 <= height w.
Proof.
  apply (visualize_cats_grid 23). reflexivity.
Defined.

End ToolFacts.
